(** * civitai-user-downloader: the tag filter, the metadata cache and the
      scan orchestrator of [index.js]

    The development follows the layout of [index.js]:
    - [Js]: the JavaScript built-ins the program calls (string methods,
      [RegExp], the expression grammar read by [new Function], [Map]);
    - [TagFilter], [MetadataCache], [CivitDownloader]: the three classes,
      each followed by the notions its properties are stated with;
    - [Demo]: sample runs;
    - [Utils], [Configuration]: the helpers of a download and the
      configuration factory;
    - [Query], [Course], [Layout]: the notions further facts about the
      filter, about a run and about the text of a query are stated with;
    - the properties, one module of facts per module of definitions.

    Strings are sequences of code units below 256 (the type [ascii]).  The
    orchestrator keeps, next to the state of the program, the trace of what
    it did to its collaborators (requests, saves, scans, downloads
    submitted, messages); the downloads themselves run in the queue and are
    not followed. *)

From Stdlib Require Import Ascii String DecimalString.
From Stdlib Require Import List Bool Arith Lia ZArith Permutation.
From Stdlib Require Import Floats.SpecFloat.
Import ListNotations.

Set Implicit Arguments.

(** A JavaScript string, as the list of its code units. *)
Definition str := list ascii.

Coercion list_ascii_of_string : string >-> list.

(* ================================================================== *)
(** * JavaScript built-ins *)
(* ================================================================== *)

Module Js.

Definition code (c : ascii) : nat := nat_of_ascii c.

Definition between (lo hi n : nat) : bool := (lo <=? n) && (n <=? hi).

(** White space and line terminators below 256: TAB, LF, VT, FF, CR, SP
    and NBSP. [String.prototype.trim] and the class [\s] use this set. *)
Definition is_space (c : ascii) : bool :=
  let n := code c in between 9 13 n || (n =? 32) || (n =? 160).

(** The class [\d]. *)
Definition is_digit (c : ascii) : bool := between 48 57 (code c).

(** The word characters of [\b] (no [u] flag): [A-Za-z0-9_]. *)
Definition is_word (c : ascii) : bool :=
  let n := code c in
  between 97 122 n || between 65 90 n || between 48 57 n || (n =? 95).

(** [Canonicalize] of a pattern with the [i] flag and without [u]: the
    upper-case form when it is a single code unit.  Below 256 this moves
    [a-z] and the accented lower-case letters (224..254 but the division
    sign) down by 32; sharp s has a two-letter upper case and stays, while
    micro and y-diaeresis go to code units above 255 that nothing else below
    256 reaches, so each is its own representative here. *)
Definition canon (c : ascii) : ascii :=
  let n := code c in
  if between 97 122 n || (between 224 254 n && negb (n =? 247))
  then ascii_of_nat (n - 32) else c.

(** [String.prototype.toUpperCase], used by the program only to compare a
    token with the five operator spellings; the three characters below 256
    whose upper case leaves the range (sharp s, micro, y-diaeresis) are kept
    in place: neither form is white space or occurs in an operator. *)
Definition toUpperCase (s : str) : str := map canon s.

Fixpoint trimStart (s : str) : str :=
  match s with
  | c :: s' => if is_space c then trimStart s' else s
  | [] => []
  end.

(** [String.prototype.trim]. *)
Definition trim (s : str) : str := rev (trimStart (rev (trimStart s))).

Definition str_eqb (a b : str) : bool :=
  if list_eq_dec ascii_dec a b then true else false.

(** Truthiness of a string value: the empty string is falsy. *)
Definition truthy (s : str) : bool :=
  match s with [] => false | _ :: _ => true end.

(** [s.split(d)] with a one-character string separator. *)
Fixpoint split_char_go (d : ascii) (piece : str) (s : str) : list str :=
  match s with
  | [] => [rev piece]
  | c :: s' =>
      if Ascii.eqb c d then rev piece :: split_char_go d [] s'
      else split_char_go d (c :: piece) s'
  end.

Definition split_char (d : ascii) (s : str) : list str := split_char_go d [] s.

(** ** Regular expressions

    Every pattern of the program carries the [i] flag and none carries [u],
    [m], [s] or [y]; the matcher below is the backtracking matcher of the
    language for the constructs those patterns use.  Quantifiers are greedy
    and apply to one-character atoms only. *)

Inductive cclass :=
| CLit (c : ascii)   (* a pattern character, compared up to [canon] *)
| CDigit             (* \d *)
| CSpace.            (* \s *)

Definition cmatch (cl : cclass) (c : ascii) : bool :=
  match cl with
  | CLit a => Ascii.eqb (canon a) (canon c)
  | CDigit => is_digit c
  | CSpace => is_space c
  end.

Inductive regex :=
| Eps
| Chr (cl : cclass)
| WordB                        (* \b *)
| Seq (r1 r2 : regex)
| Alt (r1 r2 : regex)          (* r1|r2 *)
| Star (cl : cclass)           (* a*, greedy *)
| Opt (cl : cclass)            (* a?, greedy *)
| Group (n : nat) (r : regex). (* the n-th capturing group *)

(** [a+] is [aa*]. *)
Definition Plus (cl : cclass) : regex := Seq (Chr cl) (Star cl).

(** The literal string [s]. *)
Definition Lit (s : str) : regex := fold_right (fun c r => Seq (Chr (CLit c)) r) Eps s.

Definition seq_of (l : list regex) : regex := fold_right Seq Eps l.

(** A position inside the input: the character before it (for [\b]), the
    input from it on, and the captures made so far. *)
Record mstate := MState {
  m_prev : option ascii;
  m_rest : str;
  m_caps : list (nat * str)
}.

Definition is_word_opt (o : option ascii) : bool :=
  match o with Some c => is_word c | None => false end.

Definition at_boundary (prev : option ascii) (rest : str) : bool :=
  xorb (is_word_opt prev) (is_word_opt (hd_error rest)).

Fixpoint star_loop (cl : cclass) (caps : list (nat * str))
    (prev : option ascii) (rest : str)
    (k : mstate -> option mstate) : option mstate :=
  match rest with
  | c :: rest' =>
      if cmatch cl c then
        match star_loop cl caps (Some c) rest' k with
        | Some r => Some r
        | None => k (MState prev rest caps)
        end
      else k (MState prev rest caps)
  | [] => k (MState prev rest caps)
  end.

(** The matcher, in continuation-passing style: [rmatch r st k] tries the
    ways [r] can match at [st] in priority order and gives the first one
    the continuation [k] accepts. *)
Fixpoint rmatch (r : regex) (st : mstate) (k : mstate -> option mstate)
    : option mstate :=
  match r with
  | Eps => k st
  | Chr cl =>
      match m_rest st with
      | c :: rest' =>
          if cmatch cl c then k (MState (Some c) rest' (m_caps st)) else None
      | [] => None
      end
  | WordB => if at_boundary (m_prev st) (m_rest st) then k st else None
  | Seq r1 r2 => rmatch r1 st (fun st' => rmatch r2 st' k)
  | Alt r1 r2 =>
      match rmatch r1 st k with
      | Some res => Some res
      | None => rmatch r2 st k
      end
  | Star cl => star_loop cl (m_caps st) (m_prev st) (m_rest st) k
  | Opt cl =>
      match m_rest st with
      | c :: rest' =>
          if cmatch cl c then
            match k (MState (Some c) rest' (m_caps st)) with
            | Some res => Some res
            | None => k st
            end
          else k st
      | [] => k st
      end
  | Group n r1 =>
      rmatch r1 st (fun st' =>
        let len := length (m_rest st) - length (m_rest st') in
        k (MState (m_prev st') (m_rest st')
                  ((n, firstn len (m_rest st)) :: m_caps st')))
  end.

(** One match attempt at a fixed position. *)
Definition exec_at (r : regex) (prev : option ascii) (rest : str) : option mstate :=
  rmatch r (MState prev rest []) Some.

Fixpoint search (r : regex) (prev : option ascii) (rest : str) : bool :=
  match exec_at r prev rest with
  | Some _ => true
  | None =>
      match rest with
      | c :: rest' => search r (Some c) rest'
      | [] => false
      end
  end.

(** [r.test(s)] for a pattern without the [g] and [y] flags: is there a
    match starting at some index of [s]. *)
Definition test (r : regex) (s : str) : bool := search r None s.

Fixpoint capture (n : nat) (caps : list (nat * str)) : option str :=
  match caps with
  | (m, s) :: caps' => if m =? n then Some s else capture n caps'
  | [] => None
  end.

(** The captures [1..n] of a match, [None] for a group that took no part. *)
Definition captures (n : nat) (caps : list (nat * str)) : list (option str) :=
  map (fun i => capture i caps) (seq 1 n).

(** [s.split(r)] for a pattern [r] with [groups] capturing groups.  The
    scan keeps the piece since the last separator in [piece] (reversed);
    [skip] counts the characters of the last match still to step over.  A
    match attempt is made at each index below the length; an empty match at
    the start of the current piece counts as a failure. *)
Fixpoint split_go (r : regex) (groups : nat) (skip : nat) (piece : str)
    (prev : option ascii) (rest : str) : list (option str) :=
  match rest with
  | [] => [Some (rev piece)]
  | c :: rest' =>
      match skip with
      | S n => split_go r groups n [] (Some c) rest'
      | O =>
          match exec_at r prev rest with
          | None => split_go r groups 0 (c :: piece) (Some c) rest'
          | Some st' =>
              match length rest - length (m_rest st'), piece with
              | O, [] => split_go r groups 0 [c] (Some c) rest'
              | O, _ :: _ =>
                  Some (rev piece) :: captures groups (m_caps st')
                    ++ split_go r groups 0 [c] (Some c) rest'
              | S n, _ =>
                  Some (rev piece) :: captures groups (m_caps st')
                    ++ split_go r groups n [] (Some c) rest'
              end
          end
      end
  end.

Definition split (r : regex) (groups : nat) (s : str) : list (option str) :=
  match s with
  | [] => match exec_at r None [] with Some _ => [] | None => [Some []] end
  | _ :: _ => split_go r groups 0 [] None s
  end.

(** ** [new RegExp(source, 'i')]

    The sources the program builds are a fixed prefix and suffix around an
    escaped term, so the reader below covers what such a source can hold:
    [\b], [\d], an escaped syntax character, a plain character, and the
    quantifiers [*] and [?] after a one-character atom.  [None] is the
    [SyntaxError] of the constructor (or a construct outside this list). *)

Definition is_syntax_char (c : ascii) : bool :=
  existsb (Ascii.eqb c)
    "^$\.*+?()[]{}|"%string.

Inductive ptok :=
| PBoundary            (* \b *)
| PAtom (cl : cclass)  (* a one-character atom *)
| PStar                (* * *)
| PQuest.              (* ? *)

Fixpoint lex_pattern (src : str) : option (list ptok) :=
  match src with
  | [] => Some []
  | c :: rest =>
      if Ascii.eqb c "\" then
        match rest with
        | e :: rest' =>
            if Ascii.eqb e "b" then option_map (cons PBoundary) (lex_pattern rest')
            else if Ascii.eqb e "d" then option_map (cons (PAtom CDigit)) (lex_pattern rest')
            else if is_syntax_char e then option_map (cons (PAtom (CLit e))) (lex_pattern rest')
            else None
        | [] => None
        end
      else if Ascii.eqb c "*" then option_map (cons PStar) (lex_pattern rest)
      else if Ascii.eqb c "?" then option_map (cons PQuest) (lex_pattern rest)
      else if is_syntax_char c then None
      else option_map (cons (PAtom (CLit c))) (lex_pattern rest)
  end.

Fixpoint read_atoms (l : list ptok) : option (list regex) :=
  match l with
  | [] => Some []
  | PBoundary :: l' => option_map (cons WordB) (read_atoms l')
  | PAtom cl :: l' =>
      match l' with
      | PStar :: l'' => option_map (cons (Star cl)) (read_atoms l'')
      | PQuest :: l'' => option_map (cons (Opt cl)) (read_atoms l'')
      | _ => option_map (cons (Chr cl)) (read_atoms l')
      end
  | PStar :: _ => None
  | PQuest :: _ => None
  end.

Definition RegExp_i (src : str) : option regex :=
  match lex_pattern src with
  | Some l => option_map seq_of (read_atoms l)
  | None => None
  end.

(** ** The expression read by [new Function]

    [TagFilter.compile] hands the engine the text [return <expression>;]
    where the expression is a concatenation of the six pieces
    [Terms[i].test(prompt)], [ && ], [ || ], [ !], [(] and [)]
    for a non-blank query, and the literal [true] for a blank one.  Such a
    text splits into those pieces in one way only, so it is kept as the list
    of its pieces. *)

Inductive etok :=
| TTerm (i : nat)   (* Terms[i].test(prompt) *)
| TAnd              (* && *)
| TOr               (* || *)
| TNot              (* ! *)
| TLP               (* ( *)
| TRP               (* ) *)
| TTrue.            (* true *)

(** The trees of the language's grammar over these pieces.  A parenthesised
    expression is its content.  A second pair of parentheses after an
    operand is a call of that operand. *)
Inductive expr :=
| ETrue
| ETerm (i : nat)
| ENot (e : expr)
| EAnd (e1 e2 : expr)
| EOr (e1 e2 : expr)
| ECall0 (f : expr)             (* f() *)
| ECall1 (f : expr) (a : expr). (* f(a) *)

Inductive presult :=
| POk (e : expr) (rest : list etok)
| PSyntaxError
| POutOfFuel.

(** Recursive descent along the grammar
    [or ::= and ('||' and)*], [and ::= unary ('&&' unary)*],
    [unary ::= '!' unary | call], [call ::= primary ('(' [or] ')')*],
    [primary ::= Terms[i].test(prompt) | true | '(' or ')']. *)
Fixpoint parse_or (fuel : nat) (ts : list etok) : presult :=
  match fuel with
  | O => POutOfFuel
  | S f =>
      match parse_and f ts with
      | POk e rest => or_tail f e rest
      | err => err
      end
  end
with or_tail (fuel : nat) (e : expr) (ts : list etok) : presult :=
  match fuel with
  | O => POutOfFuel
  | S f =>
      match ts with
      | TOr :: ts' =>
          match parse_and f ts' with
          | POk e2 rest => or_tail f (EOr e e2) rest
          | err => err
          end
      | _ => POk e ts
      end
  end
with parse_and (fuel : nat) (ts : list etok) : presult :=
  match fuel with
  | O => POutOfFuel
  | S f =>
      match parse_unary f ts with
      | POk e rest => and_tail f e rest
      | err => err
      end
  end
with and_tail (fuel : nat) (e : expr) (ts : list etok) : presult :=
  match fuel with
  | O => POutOfFuel
  | S f =>
      match ts with
      | TAnd :: ts' =>
          match parse_unary f ts' with
          | POk e2 rest => and_tail f (EAnd e e2) rest
          | err => err
          end
      | _ => POk e ts
      end
  end
with parse_unary (fuel : nat) (ts : list etok) : presult :=
  match fuel with
  | O => POutOfFuel
  | S f =>
      match ts with
      | TNot :: ts' =>
          match parse_unary f ts' with
          | POk e rest => POk (ENot e) rest
          | err => err
          end
      | _ => parse_call f ts
      end
  end
with parse_call (fuel : nat) (ts : list etok) : presult :=
  match fuel with
  | O => POutOfFuel
  | S f =>
      match parse_primary f ts with
      | POk e rest => call_tail f e rest
      | err => err
      end
  end
with call_tail (fuel : nat) (e : expr) (ts : list etok) : presult :=
  match fuel with
  | O => POutOfFuel
  | S f =>
      match ts with
      | TLP :: TRP :: ts' => call_tail f (ECall0 e) ts'
      | TLP :: ts' =>
          match parse_or f ts' with
          | POk a (TRP :: rest) => call_tail f (ECall1 e a) rest
          | POk _ _ => PSyntaxError
          | err => err
          end
      | _ => POk e ts
      end
  end
with parse_primary (fuel : nat) (ts : list etok) : presult :=
  match fuel with
  | O => POutOfFuel
  | S f =>
      match ts with
      | TTerm i :: ts' => POk (ETerm i) ts'
      | TTrue :: ts' => POk ETrue ts'
      | TLP :: ts' =>
          match parse_or f ts' with
          | POk e (TRP :: rest) => POk e rest
          | POk _ _ => PSyntaxError
          | err => err
          end
      | _ => PSyntaxError
      end
  end.

(** The whole text must be one expression: [None] is the [SyntaxError]
    thrown by [new Function]. *)
Definition parse_expression (ts : list etok) : option expr :=
  match parse_or (5 * length ts + 5) ts with
  | POk e [] => Some e
  | _ => None
  end.

(** The value of an evaluation: every operand is a boolean, so the only
    completions are a boolean and the [TypeError] of calling one. *)
Inductive completion :=
| Val (b : bool)
| TypeError.

(** Evaluation with the short circuits of [&&] and [||].  [operand i] is the
    value of [Terms[i].test(prompt)]. *)
Fixpoint eval (operand : nat -> completion) (e : expr) : completion :=
  match e with
  | ETrue => Val true
  | ETerm i => operand i
  | ENot e1 =>
      match eval operand e1 with
      | Val b => Val (negb b)
      | TypeError => TypeError
      end
  | EAnd e1 e2 =>
      match eval operand e1 with
      | Val true => eval operand e2
      | other => other
      end
  | EOr e1 e2 =>
      match eval operand e1 with
      | Val false => eval operand e2
      | other => other
      end
  | ECall0 _ => TypeError     (* the callee is a boolean, or threw itself *)
  | ECall1 _ _ => TypeError
  end.

(** ** [Map]

    A [Map] keeps its entries in insertion order; [set] on a present key
    replaces the value in place. *)
Section Map.
Variables (K V : Type) (K_eqb : K -> K -> bool).

Fixpoint map_set (k : K) (v : V) (m : list (K * V)) : list (K * V) :=
  match m with
  | [] => [(k, v)]
  | (k', v') :: m' =>
      if K_eqb k' k then (k, v) :: m' else (k', v') :: map_set k v m'
  end.

Fixpoint map_get (k : K) (m : list (K * V)) : option V :=
  match m with
  | [] => None
  | (k', v') :: m' => if K_eqb k' k then Some v' else map_get k m'
  end.

(** [Array.from(m.values())]. *)
Definition map_values (m : list (K * V)) : list V := map snd m.

(** [new Map(entries)]. *)
Definition map_of_entries (es : list (K * V)) : list (K * V) :=
  fold_left (fun m e => map_set (fst e) (snd e) m) es [].

End Map.

(** ** What a pattern matches

    The matches of a pattern without their captures, as a relation between
    the position where the match starts and the position where it ends.  A
    position is the character before it and the input from it on. *)

Definition position : Type := option ascii * str.

(** The character before the position reached [pre] further on. *)
Fixpoint after (prev : option ascii) (pre : str) : option ascii :=
  match pre with
  | [] => prev
  | c :: pre' => after (Some c) pre'
  end.

Inductive matches : regex -> position -> position -> Prop :=
| m_eps p : matches Eps p p
| m_chr cl prev c rest :
    cmatch cl c = true -> matches (Chr cl) (prev, c :: rest) (Some c, rest)
| m_wordb prev rest :
    at_boundary prev rest = true -> matches WordB (prev, rest) (prev, rest)
| m_seq r1 r2 p p1 p2 :
    matches r1 p p1 -> matches r2 p1 p2 -> matches (Seq r1 r2) p p2
| m_alt_l r1 r2 p p' : matches r1 p p' -> matches (Alt r1 r2) p p'
| m_alt_r r1 r2 p p' : matches r2 p p' -> matches (Alt r1 r2) p p'
| m_star_stop cl p : matches (Star cl) p p
| m_star_more cl prev c rest p' :
    cmatch cl c = true -> matches (Star cl) (Some c, rest) p' ->
    matches (Star cl) (prev, c :: rest) p'
| m_opt_none cl p : matches (Opt cl) p p
| m_opt_some cl prev c rest :
    cmatch cl c = true -> matches (Opt cl) (prev, c :: rest) (Some c, rest)
| m_group n r p p' : matches r p p' -> matches (Group n r) p p'.

(** The pattern matches somewhere in [s]. *)
Definition matches_in (r : regex) (s : str) : Prop :=
  exists pre post p', s = pre ++ post /\ matches r (after None pre, post) p'.

(** ** Notions used by the facts about the built-ins *)

(** A reader consumes a piece ([shrinks]) or none ([keeps]), and has fuel
    enough when it is given five units per piece and [n] more. *)
Definition shrinks (p : list etok -> presult) : Prop :=
  forall ts e r, p ts = POk e r -> length r < length ts.

Definition keeps (p : expr -> list etok -> presult) : Prop :=
  forall e0 ts e r, p e0 ts = POk e r -> length r <= length ts.

Definition fueled (n : nat) (f : nat) (p : list etok -> presult) : Prop :=
  forall ts, 5 * length ts + n <= f -> p ts <> POutOfFuel.

Definition fueled_tail (f : nat) (p : expr -> list etok -> presult) : Prop :=
  forall e ts, 5 * length ts + 1 <= f -> p e ts <> POutOfFuel.

(** The pattern matches at no index of [s]. *)
Fixpoint never (r : regex) (prev : option ascii) (s : str) : Prop :=
  match s with
  | [] => True
  | c :: s' => exec_at r prev s = None /\ never r (Some c) s'
  end.

End Js.

(* ================================================================== *)
(** * [class TagFilter] *)
(* ================================================================== *)

Module TagFilter.
Import Js.

(** A single quote or a double quote (code 34). *)
Definition is_quote (c : ascii) : bool :=
  Ascii.eqb c "'" || Ascii.eqb c "034".

Definition drop_last_quote (s : str) : str :=
  match rev s with
  | c :: r => if is_quote c then rev r else s
  | [] => []
  end.

(** [s.replace(re, '')] where [re] is a quote at the start or a quote at the
    end, with the [g] flag: one quote is removed at the start, and one at
    the end of what follows it. *)
Definition strip_quotes (s : str) : str :=
  match s with
  | c :: s' => if is_quote c then drop_last_quote s' else drop_last_quote s
  | [] => []
  end.

(** [escapeRegex]: a backslash before each of [. * + ? ^ $ { } ( ) | [ ] \]. *)
Definition escapeRegex (s : str) : str :=
  flat_map (fun c => if is_syntax_char c then ["\"%char; c] else [c]) s.

(** The source text of an exclusion pattern and of an inclusion pattern. *)
Definition exclude_source (t : str) : str :=
  "\b\d*"%string ++ escapeRegex t ++ "\b"%string.

Definition include_source (t : str) : str :=
  "\b\d*"%string ++ escapeRegex t ++ "s?\b"%string.

(** All of a list of constructor calls succeed, or the first failure
    propagates. *)
Fixpoint all_some {A} (l : list (option A)) : option (list A) :=
  match l with
  | [] => Some []
  | Some a :: l' => option_map (cons a) (all_some l')
  | None :: _ => None
  end.

(** The terms of the exclusion list: split on commas, trimmed, unquoted,
    empty ones dropped. *)
Definition exclusion_terms (s : str) : list str :=
  filter truthy (map (fun t => strip_quotes (trim t)) (split_char "," s)).

(** [parseExclusions(str)]; the argument is absent when the configuration
    has no [excludeTags].  [None] is a [SyntaxError] of [new RegExp]. *)
Definition parseExclusions (s : option str) : option (list regex) :=
  match s with
  | None => Some []
  | Some [] => Some []
  | Some s => all_some (map (fun t => RegExp_i (exclude_source t)) (exclusion_terms s))
  end.

(** The separator of the include query,
    [/\s+(AND|OR|NOT)\s+|\s*(\(|\))\s*/i]. *)
Definition keyword : regex :=
  Group 1 (Alt (Lit "AND"%string) (Alt (Lit "OR"%string) (Lit "NOT"%string))).

Definition parenthesis : regex :=
  Group 2 (Alt (Chr (CLit "(")) (Chr (CLit ")"))).

Definition separator : regex :=
  Alt (Seq (Plus CSpace) (Seq keyword (Plus CSpace)))
      (Seq (Star CSpace) (Seq parenthesis (Star CSpace))).

(** [query.split(separator).filter(t => t && t.trim())]: the pieces between
    separators and the captured operators, in order, without the absent
    captures and the blank pieces. *)
Definition tokens (query : str) : list str :=
  flat_map (fun o => match o with
                     | Some t => if truthy t && truthy (trim t) then [t] else []
                     | None => []
                     end)
           (split separator 2 query).

(** [mapOperator(op)] on the five spellings the caller lets through
    ([['AND','OR','NOT','(',')'].includes(upper)]); [None] for any other
    token, which is a tag. *)
Definition mapOperator (op : str) : option etok :=
  if str_eqb op "AND"%string then Some TAnd
  else if str_eqb op "OR"%string then Some TOr
  else if str_eqb op "NOT"%string then Some TNot
  else if str_eqb op "("%string then Some TLP
  else if str_eqb op ")"%string then Some TRP
  else None.

Record inclusions := Inclusions {
  terms : list regex;
  expression : list etok
}.

(** The body of the [forEach] of [parseInclusions]. *)
Definition add_token (acc : option inclusions) (token : str) : option inclusions :=
  match acc with
  | None => None
  | Some inc =>
      let upper := trim (toUpperCase token) in
      match mapOperator upper with
      | Some op => Some (Inclusions (terms inc) (expression inc ++ [op]))
      | None =>
          let index := length (terms inc) in
          let cleanTag := strip_quotes token in
          match RegExp_i (include_source cleanTag) with
          | Some r =>
              Some (Inclusions (terms inc ++ [r]) (expression inc ++ [TTerm index]))
          | None => None
          end
      end
  end.

Definition is_blank (query : option str) : bool :=
  match query with
  | None => true
  | Some q => negb (truthy q) || negb (truthy (trim q))
  end.

(** [parseInclusions(query)]; [None] is a [SyntaxError] of [new RegExp]. *)
Definition parseInclusions (query : option str) : option inclusions :=
  match query with
  | None => Some (Inclusions [] [TTrue])
  | Some q =>
      if is_blank query then Some (Inclusions [] [TTrue])
      else fold_left add_token (tokens q) (Some (Inclusions [] []))
  end.

(** The compiled predicate: the constant function, or the function built by
    [new Function] and bound to its terms and exclusions. *)
Inductive predicate :=
| AlwaysTrue
| Compiled (Exclusions Terms : list regex) (body : expr).

Inductive compiled :=
| Filter (p : predicate)
| InvalidLogicSyntax     (* the message and [process.exit(1)] *)
| RegExpSyntaxError.     (* thrown by [new RegExp], not caught in the class *)

Definition compile (query excludeString : option str) : compiled :=
  match parseExclusions excludeString, parseInclusions query with
  | Some exclusions, Some inc =>
      if (length exclusions =? 0) && (length (terms inc) =? 0)
      then Filter AlwaysTrue
      else match parse_expression (expression inc) with
           | Some body => Filter (Compiled exclusions (terms inc) body)
           | None => InvalidLogicSyntax
           end
  | _, _ => RegExpSyntaxError
  end.

(** The value of [Terms[i].test(prompt)]. *)
Definition operand (Terms : list regex) (prompt : str) (i : nat) : completion :=
  match nth_error Terms i with
  | Some r => Val (Js.test r prompt)
  | None => TypeError
  end.

(** A call of the predicate: the exclusion loop, then the expression. *)
Definition call (p : predicate) (prompt : str) : completion :=
  match p with
  | AlwaysTrue => Val true
  | Compiled Exclusions Terms body =>
      if existsb (fun r => Js.test r prompt) Exclusions then Val false
      else eval (operand Terms prompt) body
  end.

(** [prompt] or else the empty string, for a prompt that is a string,
    [null] or [undefined]. *)
Definition or_empty (prompt : option str) : str :=
  match prompt with Some s => s | None => [] end.

(** [test(prompt)]: the predicate on the prompt or else the empty string. *)
Definition test (p : predicate) (prompt : option str) : completion :=
  call p (or_empty prompt).

(** ** The shapes of the specification

    Optional leading digits, the literal term and a word boundary on each
    side; an inclusion pattern also lets one [s] follow the term. *)
Definition literal (t : str) : list regex := map (fun c => Chr (CLit c)) t.

Definition include_shape (t : str) : regex :=
  seq_of ([WordB; Star CDigit] ++ literal t ++ [Opt (CLit "s"); WordB]).

Definition exclude_shape (t : str) : regex :=
  seq_of ([WordB; Star CDigit] ++ literal t ++ [WordB]).

(** The same shape, in words: the prompt holds, between two word
    boundaries, some digits or none, then the term up to case, then, for an
    inclusion, one [s] of either case or none. *)
Definition occurs (plural : bool) (t prompt : str) : Prop :=
  exists pre ds body s post,
    prompt = pre ++ ds ++ body ++ s ++ post /\
    forallb is_digit ds = true /\
    map canon body = map canon t /\
    (s = [] \/ (plural = true /\ exists c, s = [c] /\ canon c = "S"%char)) /\
    at_boundary (after None pre) (ds ++ body ++ s ++ post) = true /\
    at_boundary (after None (pre ++ ds ++ body ++ s)) post = true.

(** The tags of an include query: the tokens that are not operators,
    unquoted. *)
Definition include_tags (query : option str) : list str :=
  match query with
  | None => []
  | Some q =>
      if is_blank query then []
      else map strip_quotes
             (filter (fun t => match mapOperator (trim (toUpperCase t)) with
                               | Some _ => false
                               | None => true
                               end)
                     (tokens q))
  end.

(** The terms of an exclusion list. *)
Definition exclude_tags (excludeString : option str) : list str :=
  match excludeString with
  | None => []
  | Some s => exclusion_terms s
  end.

(** ** The precedence grammar of the specification

    NOT binds tightest, then AND, then OR, and parentheses override: the
    usual stratified grammar, as a relation between the pieces of an
    expression and its tree.  The last two rules of [g_call] are the calls
    the language reads in [a (b)] and [a ()]. *)
Inductive g_or : list etok -> expr -> Prop :=
| g_or_and ts e : g_and ts e -> g_or ts e
| g_or_or ts1 e1 ts2 e2 :
    g_or ts1 e1 -> g_and ts2 e2 -> g_or (ts1 ++ TOr :: ts2) (EOr e1 e2)
with g_and : list etok -> expr -> Prop :=
| g_and_unary ts e : g_unary ts e -> g_and ts e
| g_and_and ts1 e1 ts2 e2 :
    g_and ts1 e1 -> g_unary ts2 e2 -> g_and (ts1 ++ TAnd :: ts2) (EAnd e1 e2)
with g_unary : list etok -> expr -> Prop :=
| g_unary_call ts e : g_call ts e -> g_unary ts e
| g_unary_not ts e : g_unary ts e -> g_unary (TNot :: ts) (ENot e)
with g_call : list etok -> expr -> Prop :=
| g_term i : g_call [TTerm i] (ETerm i)
| g_true : g_call [TTrue] ETrue
| g_paren ts e : g_or ts e -> g_call (TLP :: ts ++ [TRP]) e
| g_call0 ts f : g_call ts f -> g_call (ts ++ [TLP; TRP]) (ECall0 f)
| g_call1 ts f us a :
    g_call ts f -> g_or us a -> g_call (ts ++ TLP :: us ++ [TRP]) (ECall1 f a).

(** ** Notions used by the facts about the filter *)

(** A reader follows a grammar: what it consumes derives the tree it
    returns ([sound_tail] for the readers that extend a tree read before). *)
Definition sound (g : list etok -> expr -> Prop) (p : list etok -> presult) : Prop :=
  forall ts e r, p ts = POk e r -> exists ts1, ts = ts1 ++ r /\ g ts1 e.

Definition sound_tail (g : list etok -> expr -> Prop)
    (p : expr -> list etok -> presult) : Prop :=
  forall e0 ts e r, p e0 ts = POk e r ->
  forall ts0, g ts0 e0 -> exists ts1, ts = ts1 ++ r /\ g (ts0 ++ ts1) e.

(** The atoms of an escaped term, and the texts a term may be followed by. *)
Definition literal_atoms (t : str) : list ptok := map (fun c => PAtom (CLit c)) t.

Definition unquantified (l : list ptok) : Prop :=
  match l with
  | PStar :: _ => False
  | PQuest :: _ => False
  | _ => True
  end.

(** The tokens that are not operators. *)
Definition is_tag (t : str) : bool :=
  match mapOperator (trim (toUpperCase t)) with
  | Some _ => false
  | None => true
  end.

(** A string of word characters. *)
Definition words (s : str) : Prop := forallb is_word s = true.

(** The three keywords of the separator. *)
Definition keywords : list str := ["AND"%string : str; "OR"%string : str; "NOT"%string : str].

(** Both shapes at once: [include_shape] is [shape true] and
    [exclude_shape] is [shape false]. *)
Definition shape (plural : bool) (t : str) : regex :=
  seq_of ([WordB; Star CDigit] ++ literal t
          ++ (if plural then [Opt (CLit "s")] else []) ++ [WordB]).


Definition not_3d : predicate :=
  Compiled [] [include_shape "NOT 3d"%string] (ETerm 0).

End TagFilter.

(* ================================================================== *)
(** * [class MetadataCache] *)
(* ================================================================== *)

Module MetadataCache.
Import Js.

(** An image identifier: a number or a string.  [Map] and [Set] tell the
    number [1] from the string ["1"]. *)
Inductive ident :=
| IdNum (n : Z)
| IdStr (s : str).

Definition ident_eqb (a b : ident) : bool :=
  match a, b with
  | IdNum n, IdNum m => Z.eqb n m
  | IdStr s, IdStr t => str_eqb s t
  | _, _ => false
  end.

(** [id.toString()], for the whole numbers the language writes in plain
    decimal digits: those a double holds exactly, up to 2^53 in absolute
    value, where the ids of the listing lie.  Farther out the language
    rounds the digits and, from 10^21 on, writes an exponent; the facts
    that rest on the text of an id are stated for the numbers of this
    range. *)
Definition ident_toString (i : ident) : str :=
  match i with
  | IdNum n => list_ascii_of_string (NilZero.string_of_int (Z.to_int n))
  | IdStr s => s
  end.

(** An image record of the listing: the fields the program reads, and the
    others, each as its name and its JSON text. *)
Record item := Item {
  id : ident;
  url : str;
  prompt : option str;               (* item.meta?.prompt *)
  passthrough : list (str * str)
}.

(** The metadata file: absent, not a JSON array of records, or the array.
    [JSON.stringify] followed by [JSON.parse] gives back the array, so the
    content is kept as the array itself. *)
Inductive file :=
| NoFile
| Unparsable
| Records (arr : list item).

Record t := Cache {
  data : list (ident * item);   (* this.data, a Map *)
  files : list str              (* this.files, a Set *)
}.

(** The constructor. *)
Definition new : t := Cache [] [].

Definition entry (it : item) : ident * item := (id it, it).

(** [loadMetadata()]: the second component tells whether the warning about
    a corrupt file was printed. *)
Definition loadMetadata (f : file) (c : t) : t * bool :=
  match f with
  | NoFile => (c, false)
  | Unparsable => (c, true)
  | Records arr => (Cache (map_of_entries ident_eqb (map entry arr)) (files c), false)
  end.

Definition last_dot (s : str) : option nat :=
  fold_left (fun acc ci => if Ascii.eqb (snd ci) "." then Some (fst ci) else acc)
            (combine (seq 0 (length s)) s) None.

(** [path.parse(f).name] of a file name without directory part. *)
Definition path_name (f : str) : str :=
  match last_dot f with
  | None => f
  | Some O => f
  | Some i => if str_eqb f ".."%string then f else firstn i f
  end.

(** [loadFiles()], from the listing of the directory. *)
Definition loadFiles (listing : list str) (c : t) : t :=
  Cache (data c) (map path_name listing).

(** [upsertBatch(items)]. *)
Definition upsertBatch (items : list item) (c : t) : t :=
  Cache (fold_left (fun m it => map_set ident_eqb (id it) it m) items (data c))
        (files c).

(** [getAll()]. *)
Definition getAll (c : t) : list item := map_values (data c).

(** [save()]: [write_ok] tells whether [writeFileSync] succeeds; when it
    throws the failure is only printed.  The file is then taken to be as
    it was: a write that fails half-way is not modelled. *)
Definition save (write_ok : bool) (c : t) (f : file) : file :=
  if write_ok then Records (getAll c) else f.

Definition isEmpty (c : t) : bool := length (data c) =? 0.

Definition hasFile (i : ident) (c : t) : bool :=
  existsb (str_eqb (ident_toString i)) (files c).

(** A sequence of [upsertBatch] calls. *)
Definition upsertBatches (batches : list (list item)) (c : t) : t :=
  fold_left (fun c b => upsertBatch b c) batches c.

(** The last record of [l] with the id [i]. *)
Definition last_with (i : ident) (l : list item) : option item :=
  find (fun it => ident_eqb (id it) i) (rev l).

(** A fresh [load()] from a file: a new cache that reads it. *)
Definition reload (f : file) : t := fst (loadMetadata f new).

(** The ids of the records of a store, in order. *)
Definition ids (c : t) : list ident := map id (getAll c).

(** What the class maintains about [this.data]: every record sits under its
    own id, and no key occurs twice. *)
Definition keyed (c : t) : Prop :=
  Forall (fun kv => fst kv = id (snd kv)) (data c) /\ NoDup (map fst (data c)).

(** The stores the methods of the class can produce. *)
Inductive reachable : t -> Prop :=
| reach_new : reachable new
| reach_loadMetadata f c : reachable c -> reachable (fst (loadMetadata f c))
| reach_loadFiles listing c : reachable c -> reachable (loadFiles listing c)
| reach_upsertBatch items c : reachable c -> reachable (upsertBatch items c).

Definition ident_eq_dec (a b : ident) : {a = b} + {a <> b}.
Proof.
  decide equality; [apply Z.eq_dec | apply (list_eq_dec ascii_dec)].
Defined.

(** The store after [Map.set] of each record of a list, in order. *)
Definition upsert_all (l : list item) (m : list (ident * item)) : list (ident * item) :=
  fold_left (fun m it => map_set ident_eqb (id it) it m) l m.

End MetadataCache.

(* ================================================================== *)
(** * [class CivitDownloader] *)
(* ================================================================== *)

Module CivitDownloader.
Import Js.
Import MetadataCache.

(** The fields of the configuration the orchestrator reads for the scan;
    the limit is a whole number. *)
Record config := Config {
  username : str;
  sort : str;
  nsfw : str;
  limit : Z;
  offline : bool
}.

(** [this.stats]. *)
Record Stats := MkStats {
  scanned : nat;
  matches : nat;
  downloaded : nat;
  skipped : nat
}.

(** The three messages of [fetchPage]. *)
Inductive error_class :=
| NotFound        (* status 404 *)
| Unauthorized    (* status 401 or 403 *)
| ApiError.       (* anything else *)

(** What the orchestrator does to its collaborators, in order. *)
Inductive event :=
| EvCorruptMetadata               (* the warning of loadMetadata *)
| EvFetch (u : str)               (* axios.get(url) *)
| EvFetchError (c : error_class)  (* the message printed by fetchPage *)
| EvNoImages                      (* the message that the user has no images *)
| EvUpsert (items : list item)    (* cache.upsertBatch(items) *)
| EvSave (arr : list item) (ok : bool)
                                  (* cache.save(): the array it serialises,
                                     and whether the write went through *)
| EvScan (it : item)              (* stats.scanned++ and filter.test *)
| EvMatch (it : item)             (* stats.matches++ *)
| EvSkip (it : item)              (* stats.skipped++ *)
| EvSubmit (it : item)            (* stats.downloaded++ and queue.add *)
| EvDrain                         (* queue.onIdle() *)
| EvSummary (s : Stats)           (* printSummaryLog *)
| EvFatal.                        (* the message of a fatal error *)

(** The state of a run.  [trace] holds the events so far, latest first;
    [disk] is the metadata file. *)
Record state := State {
  stats : Stats;
  cache : MetadataCache.t;
  queue : list item;
  disk : file;
  trace : list event
}.

(** The answer of the listing endpoint to one request. *)
Record page := Page {
  items : list item;
  nextPage : option str     (* metadata.nextPage *)
}.

Inductive response :=
| Data (p : page)
| Failed (status : option nat).   (* err.response?.status *)

(** The surroundings of a run: the initial content of the output directory,
    and whether the write issued after [n] events succeeds. *)
Record world := World {
  metadata_file : file;
  listing : list str;
  write_ok : nat -> bool
}.

(** A method either returns or throws; both leave a state behind. *)
Inductive outcome :=
| Returned (s : state)
| Threw (s : state).

Section Run.
Variable cfg : config.
Variable filter : TagFilter.predicate.
Variable w : world.

Definition log (e : event) (s : state) : state :=
  State (stats s) (cache s) (queue s) (disk s) (e :: trace s).

Definition set_stats (st : Stats) (s : state) : state :=
  State st (cache s) (queue s) (disk s) (trace s).

(** [this.cache.save()]. *)
Definition save (s : state) : state :=
  let ok := write_ok w (length (trace s)) in
  log (EvSave (getAll (cache s)) ok)
      (State (stats s) (cache s) (queue s)
             (MetadataCache.save ok (cache s) (disk s)) (trace s)).

Definition isLimitReached (s : state) : bool :=
  (limit cfg <=? Z.of_nat (matches (stats s)))%Z.

Definition updateScanStats (it : item) (s : state) : state :=
  let st := stats s in
  log (EvScan it)
      (set_stats (MkStats (S (scanned st)) (matches st) (downloaded st) (skipped st)) s).

Definition count_match (it : item) (s : state) : state :=
  let st := stats s in
  log (EvMatch it)
      (set_stats (MkStats (scanned st) (S (matches st)) (downloaded st) (skipped st)) s).

Definition count_skip (it : item) (s : state) : state :=
  let st := stats s in
  log (EvSkip it)
      (set_stats (MkStats (scanned st) (matches st) (downloaded st) (S (skipped st))) s).

Definition enqueueDownload (it : item) (s : state) : state :=
  let st := stats s in
  let s1 := set_stats (MkStats (scanned st) (matches st) (S (downloaded st)) (skipped st)) s in
  log (EvSubmit it)
      (State (stats s1) (cache s1) (queue s1 ++ [it]) (disk s1) (trace s1)).

(** [processBatch(items)]. *)
Fixpoint processBatch (its : list item) (s : state) : outcome :=
  match its with
  | [] => Returned s
  | it :: rest =>
      if isLimitReached s then Returned s
      else
        let s1 := updateScanStats it s in
        match TagFilter.test filter (prompt it) with
        | TypeError => Threw s1
        | Val false => processBatch rest s1
        | Val true =>
            let s2 := count_match it s1 in
            if hasFile (id it) (cache s2)
            then processBatch rest (count_skip it s2)
            else processBatch rest (enqueueDownload it s2)
        end
  end.

Definition classify (status : option nat) : error_class :=
  match status with
  | Some n =>
      if n =? 404 then NotFound
      else if (n =? 401) || (n =? 403) then Unauthorized
      else ApiError
  | None => ApiError
  end.

(** [fetchPage(url)], given the answer of the server: the data, or [null]
    after the message and the save of the [catch] block. *)
Definition fetchPage (u : str) (r : response) (s : state) : option page * state :=
  let s1 := log (EvFetch u) s in
  match r with
  | Data p => (Some p, s1)
  | Failed status => (None, save (log (EvFetchError (classify status)) s1))
  end.

Definition isUserEmpty (its : list item) (s : state) : bool :=
  (scanned (stats s) =? 0) && (length its =? 0).

Definition upsert (its : list item) (s : state) : state :=
  log (EvUpsert its)
      (State (stats s) (upsertBatch its (cache s)) (queue s) (disk s) (trace s)).

(** The [while] loop of [runOnlineStrategy].  [answers] are the answers of
    the server to the successive requests; [None] when the loop asks for
    more answers than were given. *)
Fixpoint online_loop (answers : list response) (nextUrl : option str)
    (s : state) : option outcome :=
  match nextUrl with
  | None => Some (Returned s)
  | Some u =>
      if negb (truthy u) || isLimitReached s then Some (Returned s)
      else
        match answers with
        | [] => None
        | r :: answers' =>
            match fetchPage u r s with
            | (None, s1) => Some (Returned s1)
            | (Some p, s1) =>
                if isUserEmpty (items p) s1 then Some (Returned (log EvNoImages s1))
                else
                  match processBatch (items p) (upsert (items p) s1) with
                  | Threw s2 => Some (Threw s2)
                  | Returned s2 =>
                      let s3 := save s2 in
                      let next := if isLimitReached s3 then None else nextPage p in
                      online_loop answers' next s3
                  end
            end
        end
  end.

Definition BASE_URL : str := "https://civitai.com/api/v1"%string.

Definition first_url : str :=
  BASE_URL ++ "/images?username="%string ++ username cfg
           ++ "&sort="%string ++ sort cfg
           ++ "&nsfw="%string ++ nsfw cfg ++ "&limit=200"%string.

Definition runOnlineStrategy (answers : list response) (s : state) : option outcome :=
  online_loop answers (Some first_url) s.

Definition runOfflineStrategy (s : state) : outcome :=
  processBatch (getAll (cache s)) s.

(** [finalize()]: wait for the queue, save, print the summary. *)
Definition finalize (s : state) : state :=
  let s1 := save (log EvDrain s) in
  log (EvSummary (stats s1)) s1.

(** The state the constructors leave. *)
Definition initial : state :=
  State (MkStats 0 0 0 0) MetadataCache.new [] (metadata_file w) [].

(** [initialize()]: the metadata and the file names are loaded ([ensureDir]
    and the progress bars leave the state alone); [None] when it throws
    (offline mode on an empty cache). *)
Definition initialize (s : state) : option state :=
  let '(c1, warned) := loadMetadata (disk s) (cache s) in
  let c2 := loadFiles (listing w) c1 in
  let s1 := State (stats s) c2 (queue s) (disk s) (trace s) in
  let s2 := if warned then log EvCorruptMetadata s1 else s1 in
  if offline cfg && isEmpty c2 then None else Some s2.

(** How [run()] ends. *)
Inductive ending :=
| InitFailed              (* initialize threw: the error leaves run *)
| Completed (s : state)   (* finalize ran *)
| Aborted (s : state).    (* the catch block of run ran *)

(** [run()]; [None] when the answers given do not reach the end of the
    scan. *)
Definition run (answers : list response) : option ending :=
  match initialize initial with
  | None => Some InitFailed
  | Some s0 =>
      let strategy :=
        if offline cfg then Some (runOfflineStrategy s0)
        else runOnlineStrategy answers s0 in
      match strategy with
      | None => None
      | Some (Returned s1) => Some (Completed (finalize s1))
      | Some (Threw s1) => Some (Aborted (log EvFatal (save s1)))
      end
  end.

End Run.

(** The events of a run in the order they happened. *)
Definition history (s : state) : list event := rev (trace s).

(** The state a run ends in, when [run()] returns. *)
Definition final (e : ending) : option state :=
  match e with
  | InitFailed => None
  | Completed s => Some s
  | Aborted s => Some s
  end.

Definition state_of (o : outcome) : state :=
  match o with Returned s => s | Threw s => s end.

(** ** Reading a trace *)

Definition is_scan (e : event) : bool :=
  match e with EvScan _ => true | _ => false end.
Definition is_match (e : event) : bool :=
  match e with EvMatch _ => true | _ => false end.
Definition is_skip (e : event) : bool :=
  match e with EvSkip _ => true | _ => false end.
Definition is_submit (e : event) : bool :=
  match e with EvSubmit _ => true | _ => false end.
Definition is_fetch_error (e : event) : bool :=
  match e with EvFetchError _ => true | _ => false end.

(** The events of the per-item logic. *)
Definition per_item (e : event) : bool :=
  is_scan e || is_match e || is_skip e || is_submit e.

Definition count (p : event -> bool) (t : list event) : nat :=
  length (filter p t).

(** The records scanned by a list of events. *)
Definition scans (t : list event) : list item :=
  flat_map (fun e => match e with EvScan it => [it] | _ => [] end) t.

(** What the match limit asks of an event, given the events before it
    (latest first): a page is fetched and a record is scanned only while
    the matches counted so far are below the limit; a match is counted for
    the record just scanned; a skip or a download belongs to the match just
    counted. *)
Definition allowed (lim : Z) (e : event) (earlier : list event) : Prop :=
  match e with
  | EvFetch _ => (Z.of_nat (count is_match earlier) < lim)%Z
  | EvScan _ => (Z.of_nat (count is_match earlier) < lim)%Z
  | EvMatch it => exists before, earlier = EvScan it :: before
  | EvSkip it => exists before, earlier = EvMatch it :: before
  | EvSubmit it => exists before, earlier = EvMatch it :: before
  | _ => True
  end.

Fixpoint within_limit (lim : Z) (t : list event) : Prop :=
  match t with
  | [] => True
  | e :: earlier => allowed lim e earlier /\ within_limit lim earlier
  end.

(** ** Notions used by the facts about the orchestrator *)

(** The counters are the numbers of events of each kind, every event was
    allowed when it happened, and the matches are shared out between the
    skips and the downloads. *)
Record inv (cfg : config) (s : state) : Prop := Inv {
  inv_limit : within_limit (limit cfg) (trace s);
  inv_scanned : scanned (stats s) = count is_scan (trace s);
  inv_matches : matches (stats s) = count is_match (trace s);
  inv_downloaded : downloaded (stats s) = count is_submit (trace s);
  inv_skipped : skipped (stats s) = count is_skip (trace s);
  inv_balance : downloaded (stats s) + skipped (stats s) = matches (stats s);
  inv_bound : matches (stats s) = 0 \/ (Z.of_nat (matches (stats s)) <= limit cfg)%Z
}.

(** The events the limit and the counters do not depend on. *)
Definition neutral (e : event) : bool :=
  match e with
  | EvFetch _ | EvScan _ | EvMatch _ | EvSkip _ | EvSubmit _ => false
  | _ => true
  end.

(** No request of the trace failed. *)
Definition no_error (t : list event) : Prop :=
  forallb (fun e => negb (is_fetch_error e)) t = true.

(** The state [fetchPage] leaves when the request fails. *)
Definition failed_at (w : world) (u : str) (status : option nat) (s : state) : state :=
  save w (log (EvFetchError (classify status)) (log (EvFetch u) s)).

(** The order in which the store would be persisted right after the upsert,
    before any record of the page is processed. *)
Definition persisted_before_processing (h : list event) : Prop :=
  forall before its after,
    h = before ++ EvUpsert its :: after -> its <> [] ->
    exists arr ok after', after = EvSave arr ok :: after'.

End CivitDownloader.

(* ================================================================== *)
(** * Sample runs *)
(* ================================================================== *)

Module Demo.
Import Js MetadataCache CivitDownloader.

(** An online run for the user ArtMaster with a limit of two matches. *)
Definition demo_cfg : config :=
  Config ("ArtMaster"%string : str) ("Newest"%string : str) ("X"%string : str) 2 false.

(** The filter compiled from the include query [cat] and no exclusion. *)
Definition demo_filter : TagFilter.predicate :=
  TagFilter.Compiled [] [TagFilter.include_shape "cat"%string] (ETerm 0).

(** An empty output directory where every write succeeds. *)
Definition demo_world : world := World NoFile [] (fun _ => true).

(** A record with the id [n] and the prompt [p]. *)
Definition picture (n : Z) (p : string) : item :=
  Item (IdNum n) ("https://image.example/width=450/a.jpeg"%string : str)
       (Some (p : str)) [].

(** Three pages of the listing; the records 1, 4, 6 and 7 match [cat]. *)
Definition page1 : page :=
  Page [picture 1 "a cat"; picture 2 "a dog"; picture 3 "a bird"]
       (Some ("https://civitai.com/api/v1/images?cursor=2"%string : str)).

Definition page2 : page :=
  Page [picture 4 "two cats"; picture 5 "a fish"; picture 6 "a cat at night"]
       (Some ("https://civitai.com/api/v1/images?cursor=3"%string : str)).

Definition page3 : page := Page [picture 7 "a cat"] None.

Definition demo_answers : list response := [Data page1; Data page2; Data page3].

(** The state at the end of the run over these pages. *)
Definition demo_end : state :=
  match run demo_cfg demo_filter demo_world demo_answers with
  | Some (Completed s) => s
  | _ => initial demo_world
  end.

(** A run whose second request is refused with status 404. *)
Definition refused : ending :=
  match run demo_cfg demo_filter demo_world [Data page1; Failed (Some 404)] with
  | Some e => e
  | None => InitFailed
  end.

(** A record with one more field than the program reads. *)
Definition sample (n : Z) (p : string) (extra : string) : item :=
  Item (IdNum n) ("https://image.example/width=450/a.jpeg"%string) (Some (p : str))
       [("hash"%string : str, extra : str)].

End Demo.

(* ================================================================== *)
(** * The helpers of a download *)
(* ================================================================== *)

Module Utils.
Import Js MetadataCache.

(** What is left of [s] after the prefix [p], compared code unit by code
    unit; [None] when [s] does not start with [p]. *)
Fixpoint after_prefix (p s : str) : option str :=
  match p, s with
  | [], _ => Some s
  | a :: p', c :: s' => if Ascii.eqb a c then after_prefix p' s' else None
  | _ :: _, [] => None
  end.

(** [s.endsWith(suffix)]: the suffix read backwards starts [s] read
    backwards. *)
Definition endsWith (s suffix : str) : bool :=
  match after_prefix (rev suffix) (rev s) with
  | Some _ => true
  | None => false
  end.

(** [resolveExtension(url)]. *)
Definition resolveExtension (url : str) : str :=
  if endsWith url ".png"%string then ".png"%string
  else if endsWith url ".webp"%string then ".webp"%string
  else ".jpeg"%string.

Fixpoint skip_digits (s : str) : str :=
  match s with
  | c :: s' => if is_digit c then skip_digits s' else s
  | [] => []
  end.

(** A match of [/width=\d+/] at the start of [s]: what follows the match.
    The pattern has no flag, so the letters are compared as they are; the
    digits are taken as far as they go. *)
Definition width_at (s : str) : option str :=
  match after_prefix "width="%string s with
  | Some (d :: rest) => if is_digit d then Some (skip_digits rest) else None
  | _ => None
  end.

(** [url.replace(/width=\d+/, 'original=true')]: the leftmost match is
    replaced, and only that one. *)
Fixpoint replace_width (s : str) : str :=
  match width_at s with
  | Some rest => "original=true"%string ++ rest
  | None =>
      match s with
      | c :: s' => c :: replace_width s'
      | [] => []
      end
  end.

(** [resolveImageUrl(url, quality)]. *)
Definition resolveImageUrl (url quality : str) : str :=
  if str_eqb quality "HD"%string then replace_width url else url.

Section Download.

(** [sanitize] of the package [sanitize-filename]. *)
Variable sanitize : str -> str.

(** The name [downloadItem] gives the file of a record. *)
Definition filename (quality : str) (it : item) : str :=
  let imageUrl := resolveImageUrl (url it) quality in
  let ext := resolveExtension imageUrl in
  sanitize (ident_toString (id it) ++ ext).

End Download.

(** ** Notions used by the facts about the helpers *)

(** The pattern [/width=\d+/] matches somewhere in [s]. *)
Fixpoint has_width (s : str) : bool :=
  match width_at s with
  | Some _ => true
  | None =>
      match s with
      | _ :: s' => has_width s'
      | [] => false
      end
  end.

(** The ids whose text [toString] writes in full: a string, or a whole
    number that a double holds exactly (at most 2^53 in absolute value). *)
Definition safe_id (i : ident) : Prop :=
  match i with
  | IdNum n => (- 2 ^ 53 <= n <= 2 ^ 53)%Z
  | IdStr _ => True
  end.

(** The three extensions [resolveExtension] gives. *)
Definition extensions : list str :=
  [".png"%string : str; ".webp"%string : str; ".jpeg"%string : str].

End Utils.

(* ================================================================== *)
(** * The configuration factory *)
(* ================================================================== *)

Module Configuration.
Import Js.

Local Unset Elimination Schemes.

(** The values of an option or of a JSON text.  A number is a double. *)
Inductive value :=
| VUndefined
| VNull
| VBool (b : bool)
| VNum (x : spec_float)
| VStr (s : str)
| VArr (elems : list value)
| VObj (props : list (str * value)).

Local Set Elimination Schemes.

(** An object, as the list of its own enumerable properties.  The program
    only reads properties by name, so nothing depends on the order. *)
Definition object : Type := list (str * value).

(** The double of a whole number. *)
Definition Number (z : Z) : value := VNum (binary_normalize 53 1024 z 0 false).

(** [ToBoolean]. *)
Definition truthy_value (v : value) : bool :=
  match v with
  | VUndefined => false
  | VNull => false
  | VBool b => b
  | VNum (S754_zero _) => false
  | VNum S754_nan => false
  | VNum _ => true
  | VStr s => truthy s
  | VArr _ => true
  | VObj _ => true
  end.

(** [o[k]] and [o[k] = v]. *)
Definition get (k : str) (o : object) : option value := map_get str_eqb k o.

Definition put (k : str) (v : value) (o : object) : object := map_set str_eqb k v o.

(** The key of the index [i]. *)
Definition index_key (i : nat) : str :=
  list_ascii_of_string (NilZero.string_of_uint (Nat.to_uint i)).

(** The properties a spread copies from a value: those of an object, the
    elements of an array and the characters of a string under their
    indices, none for any other value. *)
Definition own_props (v : value) : object :=
  match v with
  | VObj props => props
  | VArr elems => combine (map index_key (seq 0 (length elems))) elems
  | VStr s => combine (map index_key (seq 0 (length s))) (map (fun c => VStr [c]) s)
  | _ => []
  end.

(** [{ ...target, ...source }]: the properties of the source are set on
    the target one after the other. *)
Definition assign (target source : object) : object :=
  fold_left (fun o kv => put (fst kv) (snd kv) o) source target.

Definition DEFAULTS : object :=
  [("nsfw"%string : str, VStr "X"%string);
   ("sort"%string : str, VStr "Newest"%string);
   ("limit"%string : str, Number 10);
   ("output"%string : str, VStr "downloads"%string);
   ("concurrency"%string : str, Number 5);
   ("quality"%string : str, VStr "HD"%string);
   ("excludeTags"%string : str, VStr [])].

(** What stands at a path: nothing, something that is not readable as
    JSON ([readFileSync] or [JSON.parse] throws), or a file with the value
    of its text. *)
Inductive config_file :=
| Missing
| Broken
| Holds (v : value).

(** The surroundings of [loadConfigFile]: what stands at each path, the
    path being resolved against the working directory. *)
Definition files : Type := str -> config_file.

(** [o.k]: [undefined] for a property the object does not have. *)
Definition prop (k : str) (o : object) : value :=
  match get k o with
  | Some v => v
  | None => VUndefined
  end.

(** The two messages of [loadConfigFile]. *)
Inductive message :=
| LoadedConfig
| FailedToParseConfig.

(** [loadConfigFile] from [existsSync] on: what it returns and what it
    prints for what stands at the resolved path. *)
Definition read_config (f : config_file) : value * list message :=
  match f with
  | Missing => (VObj [], [])
  | Broken => (VObj [], [LoadedConfig; FailedToParseConfig])
  | Holds v => (if truthy_value v then v else VObj [], [LoadedConfig])
  end.

(** [loadConfigFile(configPath)]: what it returns and what it prints.
    [None] is the [TypeError] that [path.resolve] throws for a path that
    is not a string; nothing catches it in the function. *)
Definition loadConfigFile (fs : files) (configPath : value)
    : option (value * list message) :=
  match configPath with
  | VStr p => Some (read_config (fs p))
  | _ => None
  end.

(** [cleanOptions(options)]. *)
Definition cleanOptions (options : object) : object :=
  fold_left (fun clean key =>
               match get key options with
               | Some VUndefined => clean
               | Some v => put key v clean
               | None => clean
               end)
            (map fst options) [].

(** [createConfiguration(username, options)]: the configuration and what
    was printed, or [None] when [loadConfigFile(options.config)] throws. *)
Definition createConfiguration (username : value) (options : object)
    (fs : files) : option (object * list message) :=
  match loadConfigFile fs (prop "config"%string options) with
  | None => None
  | Some (fileConfig, printed) =>
      let config :=
        assign (assign (assign [] DEFAULTS) (own_props fileConfig))
               (cleanOptions options) in
      Some (put "username"%string username config, printed)
  end.

(** ** Notions used by the facts about the configuration *)

(** The value an option was given, if it was given one. *)
Definition given (k : str) (options : object) : option value :=
  match get k options with
  | Some VUndefined => None
  | other => other
  end.

(** The properties the file brings. *)
Definition file_props (f : config_file) : object :=
  own_props (fst (read_config f)).

(** The first of three sources that has a value. *)
Definition first_of (a b c : option value) : option value :=
  match a with
  | Some v => Some v
  | None => match b with Some v => Some v | None => c end
  end.

(** The options of a command line that gives a limit and leaves the sort
    order undefined, with the default path of the configuration file; a
    configuration file with three fields, and a directory that holds it
    under that path. *)
Definition sample_options : object :=
  [("limit"%string : str, Number 50); ("sort"%string : str, VUndefined);
   ("username"%string : str, VStr "Other"%string);
   ("config"%string : str, VStr "config.json"%string)].

Definition sample_file : config_file :=
  Holds (VObj [("limit"%string : str, Number 20);
               ("sort"%string : str, VStr "Oldest"%string);
               ("username"%string : str, VStr "Someone"%string)]).

Definition sample_files : files :=
  fun p => if str_eqb p "config.json"%string then sample_file else Missing.

End Configuration.

(* ================================================================== *)
(** * Notions used by further facts about the filter *)
(* ================================================================== *)

Module Query.
Import Js TagFilter.

(** Induction along the four levels of the precedence grammar at once. *)
Scheme g_or_min := Minimality for g_or Sort Prop
  with g_and_min := Minimality for g_and Sort Prop
  with g_unary_min := Minimality for g_unary Sort Prop
  with g_call_min := Minimality for g_call Sort Prop.

Combined Scheme grammar_ind from g_or_min, g_and_min, g_unary_min, g_call_min.

(** A position of the matcher over an input: what is left to read and what
    was captured are made of characters of the input. *)
Definition inside (input : str) (st : mstate) : Prop :=
  incl (m_rest st) input /\
  forall n s, In (n, s) (m_caps st) -> incl s input.

(** Every operand below [n] has a value. *)
Definition defined_below (n : nat) (operand : nat -> completion) : Prop :=
  forall i, i < n -> exists b, operand i = Val b.

(** ** Reading with enough fuel *)

(** The result of a reader does not change once it has fuel enough. *)
Definition steady (p : nat -> list etok -> presult) (f : nat) : Prop :=
  forall ts, p f ts <> POutOfFuel -> p (S f) ts = p f ts.

Definition steady_tail (p : nat -> expr -> list etok -> presult) (f : nat) : Prop :=
  forall e ts, p f e ts <> POutOfFuel -> p (S f) e ts = p f e ts.

(** The result a reader gives from some amount of fuel on. *)
Definition settles (p : nat -> list etok -> presult) (ts : list etok)
    (r : presult) : Prop :=
  exists f0, forall f, f0 <= f -> p f ts = r.

Definition settles_tail (p : nat -> expr -> list etok -> presult) (e : expr)
    (ts : list etok) (r : presult) : Prop :=
  exists f0, forall f, f0 <= f -> p f e ts = r.

(** What may follow an operand of [&&], and an operand of [||]. *)
Definition no_call (rest : list etok) : Prop :=
  match rest with TLP :: _ => False | _ => True end.

Definition no_and (rest : list etok) : Prop :=
  match rest with TLP :: _ => False | TAnd :: _ => False | _ => True end.

(** The pieces an expression can start with. *)
Definition starts (ts : list etok) : Prop :=
  match ts with
  | TTerm _ :: _ => True
  | TTrue :: _ => True
  | TNot :: _ => True
  | TLP :: _ => True
  | _ => False
  end.

Definition starts_call (ts : list etok) : Prop :=
  match ts with
  | TTerm _ :: _ => True
  | TTrue :: _ => True
  | TLP :: _ => True
  | _ => False
  end.

End Query.

(* ================================================================== *)
(** * Notions used by further facts about the orchestrator *)
(* ================================================================== *)

Module Course.
Import Js MetadataCache CivitDownloader.

(** The URLs requested by a list of events, in the order of the list. *)
Definition requests (h : list event) : list str :=
  flat_map (fun e => match e with EvFetch u => [u] | _ => [] end) h.

(** The pages upserted by a list of events. *)
Definition upserted (h : list event) : list (list item) :=
  flat_map (fun e => match e with EvUpsert its => [its] | _ => [] end) h.


(** The links to the next page that the leading answers carry. *)
Fixpoint links (answers : list response) : list str :=
  match answers with
  | Data p :: rest =>
      match nextPage p with
      | Some u => u :: links rest
      | None => []
      end
  | _ => []
  end.

(** The store [initialize] leaves: the records of the metadata file and
    the names of the files of the directory. *)
Definition loaded (w : world) : MetadataCache.t :=
  loadFiles (listing w) (fst (loadMetadata (metadata_file w) MetadataCache.new)).

(** The messages printed during a scan. *)
Definition message (e : event) : bool :=
  match e with
  | EvCorruptMetadata => true
  | EvFetchError _ => true
  | EvNoImages => true
  | _ => false
  end.


(** The events of the end of a run. *)
Definition closing (e : event) : bool :=
  match e with
  | EvDrain => true
  | EvSummary _ => true
  | EvFatal => true
  | _ => false
  end.

(** An event without the outcome of the write. *)
Definition unflagged (e : event) : event :=
  match e with
  | EvSave arr _ => EvSave arr true
  | other => other
  end.

(** Two states that differ by the file and the outcomes of the writes
    only. *)
Definition alike (s1 s2 : state) : Prop :=
  stats s1 = stats s2 /\ cache s1 = cache s2 /\ queue s1 = queue s2 /\
  map unflagged (trace s1) = map unflagged (trace s2).

Definition alike_outcome (o1 o2 : outcome) : Prop :=
  match o1, o2 with
  | Returned s1, Returned s2 => alike s1 s2
  | Threw s1, Threw s2 => alike s1 s2
  | _, _ => False
  end.

Definition alike_ending (e1 e2 : ending) : Prop :=
  match e1, e2 with
  | InitFailed, InitFailed => True
  | Completed s1, Completed s2 => alike s1 s2
  | Aborted s1, Aborted s2 => alike s1 s2
  | _, _ => False
  end.

(** The ids [l] adds to the ids [seen], in the order they first occur. *)
Fixpoint news (seen : list ident) (l : list ident) : list ident :=
  match l with
  | [] => []
  | i :: l' =>
      if existsb (ident_eqb i) seen then news seen l'
      else i :: news (seen ++ [i]) l'
  end.

(** An offline run over a directory that holds the metadata of two records
    and the file of the first one. *)
Definition offline_cfg : config :=
  Config ("ArtMaster"%string : str) ("Newest"%string : str) ("X"%string : str) 5 true.

Definition offline_world : world :=
  World (Records [Demo.picture 1 "a cat"; Demo.picture 2 "two cats"])
        [("1.jpeg"%string : str); ("metadata.json"%string : str)]
        (fun _ => true).

(** An empty output directory where no write succeeds. *)
Definition failing_world : world := World NoFile [] (fun _ => false).

(** A filter whose expression calls a boolean: the query [cat (dog)]. *)
Definition throwing_filter : TagFilter.predicate :=
  TagFilter.Compiled []
    [TagFilter.include_shape "cat"%string; TagFilter.include_shape "dog"%string]
    (ECall1 (ETerm 0) (ETerm 1)).

End Course.

(* ================================================================== *)
(** * The layout of an include query *)
(* ================================================================== *)

(** The separator of the include query cuts the text into pieces.  The
    notions below describe a query by what it is made of: tag phrases,
    keywords between white space and parentheses. *)
Module Layout.
Import Js TagFilter.

(** A character that is neither white space nor a parenthesis. *)
Definition is_plain (c : ascii) : bool :=
  negb (is_space c) && negb (Ascii.eqb c "(") && negb (Ascii.eqb c ")").

Definition is_parenthesis (c : ascii) : bool :=
  Ascii.eqb c "(" || Ascii.eqb c ")".

(** A chunk: one or more plain characters. *)
Definition chunk (w : str) : bool := truthy w && forallb is_plain w.

(** White space, possibly none ([blank]) or some ([gap]). *)
Definition blank (ws : str) : bool := forallb is_space ws.

Definition gap (ws : str) : bool := truthy ws && blank ws.

(** [AND], [OR] or [NOT], in any case of the letters. *)
Definition is_keyword (w : str) : bool :=
  existsb (str_eqb (toUpperCase w)) keywords.

(** What a query is made of.  A phrase is a chunk followed by further
    chunks, each after some white space; the first phrase of a query may
    have white space before it and the last one white space after it.  A
    keyword stands between two stretches of white space; a parenthesis
    may have white space on either side. *)
Inductive item :=
| Phrase (lead w : str) (more : list (str * str)) (trail : str)
| Keyword (before kw after : str)
| Parenthesis (before : str) (p : ascii) (after : str).

(** The chunks of a phrase with the white space between them. *)
Definition phrase_text (w : str) (more : list (str * str)) : str :=
  w ++ flat_map (fun gw => fst gw ++ snd gw) more.

(** The text of an item, and of a sequence of items. *)
Definition text_of (i : item) : str :=
  match i with
  | Phrase lead w more trail => lead ++ phrase_text w more ++ trail
  | Keyword b kw a => b ++ kw ++ a
  | Parenthesis b p a => b ++ p :: a
  end.


(** The piece of the query an item leaves after the split: a phrase with
    the white space it has at the ends of the query, a keyword or a
    parenthesis without the white space around it. *)
Definition piece (i : item) : str :=
  match i with
  | Phrase _ _ _ _ => text_of i
  | Keyword _ kw _ => kw
  | Parenthesis _ p _ => [p]
  end.

















(** The pieces a split leaves that the filter of [tokens] keeps. *)
Definition kept (l : list (option str)) : list str :=
  flat_map (fun o => match o with
                     | Some t => if truthy t && truthy (trim t) then [t] else []
                     | None => []
                     end) l.


(** A keyword stands in [q] with white space on both sides. *)
Definition spaced_keyword (q : str) : Prop :=
  exists pre ws1 kw ws2 post,
    q = pre ++ ws1 ++ kw ++ ws2 ++ post /\
    gap ws1 = true /\ is_keyword kw = true /\ gap ws2 = true.


Fixpoint past (P : ascii -> bool) (q : str) : str :=
  match q with
  | c :: q' => if P c then past P q' else q
  | [] => []
  end.








End Layout.

(* ================================================================== *)
(** * Facts about the built-ins *)
(* ================================================================== *)

Module JsFacts.
Import Js.

Lemma str_eqb_eq (a b : str) : str_eqb a b = true <-> a = b.
Proof.
  unfold str_eqb. destruct (list_eq_dec ascii_dec a b); split; congruence.
Qed.

Lemma str_eqb_neq (a b : str) : str_eqb a b = false <-> a <> b.
Proof.
  unfold str_eqb. destruct (list_eq_dec ascii_dec a b); split; congruence.
Qed.

Lemma str_eqb_refl (a : str) : str_eqb a a = true.
Proof. now apply str_eqb_eq. Qed.

(** *** The reader of expressions consumes pieces and never lacks fuel *)

Ltac parse_step :=
  match goal with
  | H : POk _ _ = POk _ _ |- _ => inversion H; subst; clear H
  | H : PSyntaxError = POk _ _ |- _ => discriminate H
  | H : POutOfFuel = POk _ _ |- _ => discriminate H
  | H : match ?x with _ => _ end = POk _ _ |- _ =>
      first [ is_var x; destruct x
            | let E := fresh "E" in destruct x eqn:E ]
  end.

Ltac use_lengths :=
  repeat match goal with
  | IH : forall ts e r, ?p ts = POk e r -> _, H : ?p _ = POk _ _ |- _ =>
      apply IH in H
  | IH : forall e0 ts e r, ?p e0 ts = POk e r -> _, H : ?p _ _ = POk _ _ |- _ =>
      apply IH in H
  end.

Lemma parse_lengths (f : nat) :
  shrinks (parse_or f) /\ keeps (or_tail f) /\
  shrinks (parse_and f) /\ keeps (and_tail f) /\
  shrinks (parse_unary f) /\
  shrinks (parse_call f) /\ keeps (call_tail f) /\
  shrinks (parse_primary f).
Proof.
  induction f as [|f (IHor & IHort & IHand & IHandt & IHun & IHcall & IHcallt & IHprim)];
    unfold shrinks, keeps in *.
  - repeat split; intros; discriminate.
  - repeat split; intros; simpl in *; repeat parse_step;
      use_lengths; simpl in *; lia.
Qed.

Ltac fuel_step :=
  match goal with
  | |- POk _ _ <> POutOfFuel => discriminate
  | |- PSyntaxError <> POutOfFuel => discriminate
  | |- match ?x with _ => _ end <> POutOfFuel =>
      let E := fresh "E" in destruct x eqn:E
  end.

Lemma parse_fuel (f : nat) :
  fueled 5 f (parse_or f) /\ fueled_tail f (or_tail f) /\
  fueled 4 f (parse_and f) /\ fueled_tail f (and_tail f) /\
  fueled 3 f (parse_unary f) /\
  fueled 2 f (parse_call f) /\ fueled_tail f (call_tail f) /\
  fueled 1 f (parse_primary f).
Proof.
  induction f as [|f (IHor & IHort & IHand & IHandt & IHun & IHcall & IHcallt & IHprim)];
    unfold fueled, fueled_tail in *.
  - repeat split; intros; lia.
  - destruct (parse_lengths f) as (Lor & Lort & Land & Landt & Lun & Lcall & Lcallt & Lprim).
    unfold shrinks, keeps in *.
    repeat split; intros; simpl in *; repeat fuel_step; subst; simpl in *;
      use_lengths; simpl in *;
      first [ exfalso; eapply IHor; [ | eassumption]; simpl in *; lia
            | exfalso; eapply IHand; [ | eassumption]; simpl in *; lia
            | exfalso; eapply IHun; [ | eassumption]; simpl in *; lia
            | exfalso; eapply IHcall; [ | eassumption]; simpl in *; lia
            | exfalso; eapply IHprim; [ | eassumption]; simpl in *; lia
            | apply IHort; simpl in *; lia
            | apply IHandt; simpl in *; lia
            | apply IHcallt; simpl in *; lia
            | apply IHcall; simpl in *; lia ].
Qed.

(** [parse_expression] gives its reader fuel enough for any text. *)
Lemma parse_expression_fuel (ts : list etok) :
  parse_or (5 * length ts + 5) ts <> POutOfFuel.
Proof.
  destruct (parse_fuel (5 * length ts + 5)) as (H & _). apply H. lia.
Qed.

(** *** The matcher only ever looks at suffixes of its input *)

Section Suffixes.
Variable Q : str -> Prop.
Hypothesis Q_tail : forall c s, Q (c :: s) -> Q s.

Lemma star_loop_none (cl : cclass) (caps : list (nat * str)) (rest : str) :
  forall prev k,
    Q rest ->
    (forall st', Q (m_rest st') -> k st' = None) ->
    star_loop cl caps prev rest k = None.
Proof.
  induction rest as [|c rest IH]; intros prev k HQ Hk; simpl.
  - now apply Hk.
  - destruct (cmatch cl c).
    + rewrite IH; eauto.
    + now apply Hk.
Qed.

(** If the continuation refuses every position whose rest satisfies [Q],
    and the match starts at such a position, the match fails. *)
Lemma rmatch_none (r : regex) :
  forall st k,
    Q (m_rest st) ->
    (forall st', Q (m_rest st') -> k st' = None) ->
    rmatch r st k = None.
Proof.
  induction r as [|cl| |r1 IH1 r2 IH2|r1 IH1 r2 IH2|cl|cl|n r1 IH1];
    intros [prev rest caps] k HQ Hk; simpl in *.
  - now apply Hk.
  - destruct rest as [|c rest']; [reflexivity|].
    destruct (cmatch cl c); [|reflexivity]. apply Hk. simpl. eauto.
  - destruct (at_boundary prev rest); [now apply Hk | reflexivity].
  - apply IH1; [assumption|]. intros st' HQ'. now apply IH2.
  - rewrite IH1 by assumption. now apply IH2.
  - now apply star_loop_none.
  - destruct rest as [|c rest']; [now apply Hk|].
    destruct (cmatch cl c); [|now apply Hk].
    rewrite (Hk (MState (Some c) rest' caps)) by (simpl; eauto).
    now apply Hk.
  - apply IH1; [assumption|]. intros st' HQ'. now apply Hk.
Qed.

End Suffixes.

(** *** What a successful match consumed *)

Lemma star_loop_some (cl : cclass) (caps : list (nat * str)) (rest : str) :
  forall prev k res,
    star_loop cl caps prev rest k = Some res ->
    exists ws rest' prev',
      rest = ws ++ rest' /\ forallb (cmatch cl) ws = true /\
      k (MState prev' rest' caps) = Some res.
Proof.
  induction rest as [|c rest IH]; intros prev k res H; simpl in H.
  - exists [], [], prev. now repeat split.
  - destruct (cmatch cl c) eqn:Hc.
    + destruct (star_loop cl caps (Some c) rest k) as [res'|] eqn:E.
      * inversion H; subst res'.
        apply IH in E as (ws & rest' & prev' & -> & Hws & Hk).
        exists (c :: ws), rest', prev'. simpl. rewrite Hc, Hws. now repeat split.
      * exists [], (c :: rest), prev. now repeat split.
    + exists [], (c :: rest), prev. now repeat split.
Qed.

Lemma chr_some (cl : cclass) (st : mstate) (k : mstate -> option mstate) (res : mstate) :
  rmatch (Chr cl) st k = Some res ->
  exists c rest',
    m_rest st = c :: rest' /\ cmatch cl c = true /\
    k (MState (Some c) rest' (m_caps st)) = Some res.
Proof.
  simpl. destruct (m_rest st) as [|c rest']; [discriminate|].
  destruct (cmatch cl c) eqn:Hc; [|discriminate].
  intros H. exists c, rest'. now repeat split.
Qed.

(** *** Splitting where the separator never matches *)

Lemma split_go_never (r : regex) (groups : nat) (s : str) :
  forall piece prev,
    never r prev s ->
    split_go r groups 0 piece prev s = [Some (rev piece ++ s)].
Proof.
  induction s as [|c s IH]; intros piece prev H; simpl.
  - now rewrite app_nil_r.
  - destruct H as (H1 & H2). rewrite H1.
    rewrite IH by assumption. simpl. now rewrite <- app_assoc.
Qed.

Lemma lit_some (s : str) :
  forall st k res,
    rmatch (Lit s) st k = Some res ->
    exists matched rest' prev',
      m_rest st = matched ++ rest' /\
      map canon matched = map canon s /\
      k (MState prev' rest' (m_caps st)) = Some res.
Proof.
  induction s as [|a s IH]; intros [prev rest caps] k res H.
  - exists [], rest, prev. now repeat split.
  - change (Lit (a :: s)) with (Seq (Chr (CLit a)) (Lit s)) in H.
    cbn [rmatch] in H. fold (rmatch (Chr (CLit a))) in H.
    change (rmatch (Chr (CLit a)) (MState prev rest caps)
              (fun st' => rmatch (Lit s) st' k) = Some res) in H.
    apply chr_some in H as (c & rest' & E & Hc & H). simpl in E. subst rest.
    apply IH in H as (matched & rest'' & prev' & E & Hm & Hk). simpl in E, Hk.
    exists (c :: matched), rest'', prev'. subst rest'. simpl.
    apply Ascii.eqb_eq in Hc. rewrite Hm, Hc. now repeat split.
Qed.

Lemma firstn_matched (matched rest : str) :
  firstn (length (matched ++ rest) - length rest) (matched ++ rest) = matched.
Proof.
  rewrite length_app, Nat.add_sub. rewrite firstn_app, Nat.sub_diag.
  rewrite firstn_all. simpl. apply app_nil_r.
Qed.

(** *** The matcher finds a match exactly when the pattern has one *)

Lemma rmatch_complete (r : regex) (p p' : position) :
  matches r p p' ->
  forall caps k,
    (forall caps', k (MState (fst p') (snd p') caps') <> None) ->
    rmatch r (MState (fst p) (snd p) caps) k <> None.
Proof.
  induction 1 as [p|cl prev c rest Hc|prev rest Hb|r1 r2 p p1 p2 _ IH1 _ IH2
                  |r1 r2 p p' _ IH|r1 r2 p p' _ IH|cl p
                  |cl prev c rest p' Hc _ IH|cl p|cl prev c rest Hc|n r p p' _ IH];
    intros caps k Hk; simpl in *.
  - apply Hk.
  - rewrite Hc. apply Hk.
  - rewrite Hb. apply Hk.
  - apply IH1. intros caps'. apply IH2. exact Hk.
  - destruct (rmatch r1 _ k) eqn:E; [discriminate|].
    exfalso. exact (IH caps k Hk E).
  - destruct (rmatch r1 _ k); [discriminate|]. now apply IH.
  - destruct p as [prev [|c rest]]; simpl; [apply Hk|].
    destruct (cmatch cl c); [|apply Hk].
    destruct (star_loop cl caps (Some c) rest k); [discriminate | apply Hk].
  - rewrite Hc.
    destruct (star_loop cl caps (Some c) rest k) eqn:E; [discriminate|].
    exfalso. exact (IH caps k Hk E).
  - destruct p as [prev [|c rest]]; simpl; [apply Hk|].
    destruct (cmatch cl c); [|apply Hk].
    destruct (k (MState (Some c) rest caps)); [discriminate | apply Hk].
  - rewrite Hc.
    destruct (k (MState (Some c) rest caps)) eqn:E; [discriminate|].
    exfalso. exact (Hk caps E).
  - apply IH. intros caps'. apply Hk.
Qed.

Lemma star_loop_sound (cl : cclass) (caps : list (nat * str)) (rest : str) :
  forall prev k res,
    star_loop cl caps prev rest k = Some res ->
    exists p',
      matches (Star cl) (prev, rest) p' /\
      k (MState (fst p') (snd p') caps) = Some res.
Proof.
  induction rest as [|c rest IH]; intros prev k res H; simpl in H.
  - exists (prev, []). split; [constructor | exact H].
  - destruct (cmatch cl c) eqn:Hc.
    + destruct (star_loop cl caps (Some c) rest k) as [res'|] eqn:E.
      * inversion H; subst res'. apply IH in E as (p' & M & Hk).
        exists p'. split; [now apply m_star_more | exact Hk].
      * exists (prev, c :: rest). split; [constructor | exact H].
    + exists (prev, c :: rest). split; [constructor | exact H].
Qed.

Lemma rmatch_sound (r : regex) :
  forall st k res,
    rmatch r st k = Some res ->
    exists p' caps',
      matches r (m_prev st, m_rest st) p' /\
      k (MState (fst p') (snd p') caps') = Some res.
Proof.
  induction r as [|cl| |r1 IH1 r2 IH2|r1 IH1 r2 IH2|cl|cl|n r1 IH1];
    intros [prev rest caps] k res H; simpl in *.
  - exists (prev, rest), caps. split; [constructor | exact H].
  - destruct rest as [|c rest]; [discriminate|].
    destruct (cmatch cl c) eqn:Hc; [|discriminate].
    exists (Some c, rest), caps. split; [now constructor | exact H].
  - destruct (at_boundary prev rest) eqn:Hb; [|discriminate].
    exists (prev, rest), caps. split; [now constructor | exact H].
  - apply IH1 in H as (p1 & caps1 & M1 & H).
    apply IH2 in H as (p2 & caps2 & M2 & H). simpl in M2.
    exists p2, caps2. split; [|exact H].
    apply m_seq with (p1 := p1); [exact M1|]. now destruct p1.
  - destruct (rmatch r1 _ k) as [res'|] eqn:E.
    + inversion H; subst res'. apply IH1 in E as (p' & caps' & M & Hk).
      exists p', caps'. split; [now apply m_alt_l | exact Hk].
    + apply IH2 in H as (p' & caps' & M & Hk).
      exists p', caps'. split; [now apply m_alt_r | exact Hk].
  - apply star_loop_sound in H as (p' & M & Hk). now exists p', caps.
  - destruct rest as [|c rest].
    + exists (prev, []), caps. split; [constructor | exact H].
    + destruct (cmatch cl c) eqn:Hc.
      * destruct (k (MState (Some c) rest caps)) as [res'|] eqn:E.
        -- inversion H; subst res'.
           exists (Some c, rest), caps. split; [now constructor | exact E].
        -- exists (prev, c :: rest), caps. split; [constructor | exact H].
      * exists (prev, c :: rest), caps. split; [constructor | exact H].
  - apply IH1 in H as (p' & caps' & M & Hk). simpl in Hk.
    eexists p', _. split; [now constructor | exact Hk].
Qed.

Lemma exec_at_matches (r : regex) (prev : option ascii) (rest : str) :
  exec_at r prev rest <> None <-> exists p', matches r (prev, rest) p'.
Proof.
  unfold exec_at. split.
  - destruct (rmatch r (MState prev rest []) Some) as [res|] eqn:E; [|congruence].
    intros _. apply rmatch_sound in E as (p' & _ & M & _). now exists p'.
  - intros (p' & M).
    apply (rmatch_complete M [] Some). discriminate.
Qed.

Lemma search_matches (r : regex) (s : str) :
  forall prev,
    search r prev s = true <->
    exists pre post p', s = pre ++ post /\ matches r (after prev pre, post) p'.
Proof.
  induction s as [|c s IH]; intros prev; simpl.
  - destruct (exec_at r prev []) as [res|] eqn:E; split.
    + intros _. assert (X : exec_at r prev [] <> None) by congruence.
      apply exec_at_matches in X as (p' & M). now exists [], [], p'.
    + reflexivity.
    + discriminate.
    + intros (pre & post & p' & Es & M).
      symmetry in Es. apply app_eq_nil in Es as (-> & ->). simpl in M.
      assert (X : exec_at r prev [] <> None) by (apply exec_at_matches; eauto).
      congruence.
  - destruct (exec_at r prev (c :: s)) as [res|] eqn:E; split.
    + intros _. assert (X : exec_at r prev (c :: s) <> None) by congruence.
      apply exec_at_matches in X as (p' & M). now exists [], (c :: s), p'.
    + reflexivity.
    + intros H. apply IH in H as (pre & post & p' & -> & M).
      now exists (c :: pre), post, p'.
    + intros (pre & post & p' & Es & M). destruct pre as [|x pre]; simpl in *.
      * subst post.
        assert (X : exec_at r prev (c :: s) <> None) by (apply exec_at_matches; eauto).
        congruence.
      * inversion Es; subst. apply IH. now exists pre, post, p'.
Qed.

(** [r.test(s)] is true exactly when the pattern has a match in [s]. *)
Lemma test_matches (r : regex) (s : str) :
  Js.test r s = true <-> matches_in r s.
Proof. unfold Js.test, matches_in. apply search_matches. Qed.

Lemma after_app (pre1 pre2 : str) :
  forall prev, after prev (pre1 ++ pre2) = after (after prev pre1) pre2.
Proof. induction pre1 as [|c pre1 IH]; intros prev; simpl; [reflexivity | apply IH]. Qed.

Lemma matches_star (cl : cclass) (p p' : position) :
  matches (Star cl) p p' <->
  exists run, snd p = run ++ snd p' /\ forallb (cmatch cl) run = true /\
              fst p' = after (fst p) run.
Proof.
  split.
  - remember (Star cl) as r eqn:Er. induction 1; inversion Er; subst.
    + exists []. now repeat split.
    + destruct (IHmatches eq_refl) as (run & E & F & A). simpl in *.
      exists (c :: run). simpl. rewrite E, H, F. now repeat split.
  - destruct p as [prev rest], p' as [prev' rest']. simpl.
    intros (run & -> & F & ->). revert prev F.
    induction run as [|c run IH]; intros prev F; simpl in *.
    + constructor.
    + apply andb_true_iff in F as (Hc & F). apply m_star_more; [exact Hc|].
      now apply IH.
Qed.

End JsFacts.

(* ================================================================== *)
(** * Facts about [TagFilter] *)
(* ================================================================== *)

Module TagFilterFacts.
Import Js JsFacts TagFilter.

(** *** The reader of expressions follows the precedence grammar *)

Lemma parse_sound (f : nat) :
  sound g_or (parse_or f) /\ sound_tail g_or (or_tail f) /\
  sound g_and (parse_and f) /\ sound_tail g_and (and_tail f) /\
  sound g_unary (parse_unary f) /\
  sound g_call (parse_call f) /\ sound_tail g_call (call_tail f) /\
  sound g_call (parse_primary f).
Proof.
  induction f as [|f (IHor & IHort & IHand & IHandt & IHun & IHcall & IHcallt & IHprim)];
    unfold sound, sound_tail in *.
  - repeat split; intros; discriminate.
  - repeat split.
    + (* parse_or *)
      intros ts e r H. simpl in H. repeat parse_step.
      apply IHand in E as (ts1 & -> & G1).
      eapply IHort in H as (ts2 & -> & G2); [ | apply g_or_and; eassumption ].
      exists (ts1 ++ ts2). now rewrite app_assoc.
    + (* or_tail *)
      intros e0 ts e r H ts0 G0. simpl in H.
      destruct ts as [|[] ts'];
        try (inversion H; subst; exists []; split;
             [reflexivity | now rewrite app_nil_r]).
      repeat parse_step.
      apply IHand in E as (ts1 & -> & G1).
      eapply IHort in H as (ts2 & -> & G2); [ | eapply g_or_or; eassumption ].
      exists (TOr :: ts1 ++ ts2). split.
      * simpl. now rewrite <- app_assoc.
      * now rewrite <- app_assoc in G2.
    + (* parse_and *)
      intros ts e r H. simpl in H. repeat parse_step.
      apply IHun in E as (ts1 & -> & G1).
      eapply IHandt in H as (ts2 & -> & G2); [ | apply g_and_unary; eassumption ].
      exists (ts1 ++ ts2). now rewrite app_assoc.
    + (* and_tail *)
      intros e0 ts e r H ts0 G0. simpl in H.
      destruct ts as [|[] ts'];
        try (inversion H; subst; exists []; split;
             [reflexivity | now rewrite app_nil_r]).
      repeat parse_step.
      apply IHun in E as (ts1 & -> & G1).
      eapply IHandt in H as (ts2 & -> & G2); [ | eapply g_and_and; eassumption ].
      exists (TAnd :: ts1 ++ ts2). split.
      * simpl. now rewrite <- app_assoc.
      * now rewrite <- app_assoc in G2.
    + (* parse_unary *)
      intros ts e r H. simpl in H.
      destruct ts as [|[] ts'];
        try (apply IHcall in H as (ts1 & -> & G1); exists ts1; split;
             [reflexivity | now apply g_unary_call]).
      repeat parse_step.
      apply IHun in E as (ts1 & -> & G1).
      exists (TNot :: ts1). split; [reflexivity | now apply g_unary_not].
    + (* parse_call *)
      intros ts e r H. simpl in H. repeat parse_step.
      apply IHprim in E as (ts1 & -> & G1).
      eapply IHcallt in H as (ts2 & -> & G2); [ | eassumption ].
      exists (ts1 ++ ts2). now rewrite app_assoc.
    + (* call_tail *)
      intros e0 ts e r H ts0 G0. simpl in H.
      destruct ts as [|[] ts'];
        try (inversion H; subst; exists []; split;
             [reflexivity | now rewrite app_nil_r]).
      destruct ts' as [|t ts''].
      * exfalso. destruct (parse_or f []) as [a rest| |] eqn:E; try discriminate.
        apply (proj1 (parse_lengths f)) in E. simpl in E. lia.
      * assert (Hargs : forall us a rest,
                  parse_or f us = POk a (TRP :: rest) ->
                  call_tail f (ECall1 e0 a) rest = POk e r ->
                  exists ts1, TLP :: us = ts1 ++ r /\ g_call (ts0 ++ ts1) e).
        { intros us a rest Ha Hc.
          apply IHor in Ha as (ts1 & Ha & G1). rewrite Ha.
          eapply IHcallt in Hc as (ts2 & -> & G2); [ | eapply g_call1; eassumption ].
          exists (TLP :: ts1 ++ TRP :: ts2). split.
          - simpl. now rewrite <- app_assoc.
          - replace (ts0 ++ TLP :: ts1 ++ TRP :: ts2)
              with ((ts0 ++ TLP :: ts1 ++ [TRP]) ++ ts2); [assumption|].
            rewrite <- !app_assoc. simpl. now rewrite <- app_assoc. }
        destruct t; try (repeat parse_step; eapply Hargs; eassumption).
        (* the empty argument list *)
        eapply IHcallt in H as (ts2 & -> & G2); [ | eapply g_call0; eassumption ].
        exists (TLP :: TRP :: ts2). split; [reflexivity|].
        now rewrite <- app_assoc in G2.
    + (* parse_primary *)
      intros ts e r H. simpl in H.
      destruct ts as [|[] ts']; try discriminate.
      * inversion H; subst. exists [TTerm i]. split; [reflexivity | constructor].
      * repeat parse_step.
        apply IHor in E as (ts1 & -> & G1).
        exists (TLP :: ts1 ++ [TRP]). split.
        -- simpl. now rewrite <- app_assoc.
        -- now apply g_paren.
      * inversion H; subst. exists [TTrue]. split; [reflexivity | constructor].
Qed.

(** Every expression text the engine accepts is read along the grammar. *)
Lemma parse_expression_sound (ts : list etok) (e : expr) :
  parse_expression ts = Some e -> g_or ts e.
Proof.
  unfold parse_expression. intros H.
  destruct (parse_or (5 * length ts + 5) ts) as [e' [|]| |] eqn:E; try discriminate.
  inversion H; subst.
  destruct (parse_sound (5 * length ts + 5)) as (S & _).
  apply S in E as (ts1 & -> & G). now rewrite app_nil_r.
Qed.

(** *** The patterns built from a term *)

Lemma plain_char (c : ascii) :
  is_syntax_char c = false ->
  Ascii.eqb c "\" = false /\ Ascii.eqb c "*" = false /\ Ascii.eqb c "?" = false.
Proof.
  unfold is_syntax_char. simpl. intros H.
  repeat match type of H with
         | (_ || _)%bool = false => apply orb_false_iff in H as [? H]
         end.
  repeat split; assumption.
Qed.

Lemma syntax_char_escape (c : ascii) :
  is_syntax_char c = true ->
  Ascii.eqb c "b" = false /\ Ascii.eqb c "d" = false.
Proof.
  unfold is_syntax_char. intros H.
  apply existsb_exists in H as (x & Hin & Hx).
  apply Ascii.eqb_eq in Hx. subst x.
  simpl in Hin.
  repeat (destruct Hin as [<- | Hin]; [split; reflexivity | ]).
  contradiction.
Qed.

Lemma lex_escaped (t rest : str) :
  lex_pattern (escapeRegex t ++ rest)
  = option_map (app (literal_atoms t)) (lex_pattern rest).
Proof.
  induction t as [|c t IH]; simpl.
  - now destruct (lex_pattern rest).
  - destruct (is_syntax_char c) eqn:Hc; simpl.
    + destruct (syntax_char_escape c Hc) as (Hb & Hd).
      rewrite Hb, Hd, Hc, IH. now destruct (lex_pattern rest).
    + destruct (plain_char c Hc) as (H1 & H2 & H3).
      rewrite H1, H2, H3, Hc, IH. now destruct (lex_pattern rest).
Qed.

Lemma read_literal (t : str) (rest : list ptok) :
  unquantified rest ->
  read_atoms (literal_atoms t ++ rest)
  = option_map (app (literal t)) (read_atoms rest).
Proof.
  intros Hrest. induction t as [|c t IH].
  - simpl. now destruct (read_atoms rest).
  - change (literal_atoms (c :: t) ++ rest)
      with (PAtom (CLit c) :: (literal_atoms t ++ rest)).
    cbn [read_atoms].
    destruct (literal_atoms t ++ rest) as [|[] l'] eqn:E;
      try (rewrite IH; now destruct (read_atoms rest)).
    + destruct t; [|discriminate]. simpl in E. subst rest. contradiction.
    + destruct t; [|discriminate]. simpl in E. subst rest. contradiction.
Qed.

Lemma include_regexp (t : str) :
  RegExp_i (include_source t) = Some (include_shape t).
Proof.
  unfold RegExp_i, include_source. simpl.
  rewrite lex_escaped. simpl.
  rewrite (read_literal t [PAtom (CLit "s"); PQuest; PBoundary] I).
  reflexivity.
Qed.

Lemma exclude_regexp (t : str) :
  RegExp_i (exclude_source t) = Some (exclude_shape t).
Proof.
  unfold RegExp_i, exclude_source. simpl.
  rewrite lex_escaped. simpl.
  rewrite (read_literal t [PBoundary] I).
  reflexivity.
Qed.

Lemma fold_add_token (toks : list str) (inc0 : inclusions) :
  exists inc,
    fold_left add_token toks (Some inc0) = Some inc /\
    terms inc = terms inc0 ++ map include_shape (map strip_quotes (filter is_tag toks)).
Proof.
  revert inc0. induction toks as [|tok toks IH]; intros inc0.
  - exists inc0. simpl. now rewrite app_nil_r.
  - simpl. unfold is_tag.
    destruct (mapOperator (trim (toUpperCase tok))) as [op|].
    + destruct (IH (Inclusions (terms inc0) (expression inc0 ++ [op]))) as (inc & E & T).
      exists inc. split; [exact E | exact T].
    + rewrite include_regexp.
      destruct (IH (Inclusions (terms inc0 ++ [include_shape (strip_quotes tok)])
                               (expression inc0 ++ [TTerm (length (terms inc0))])))
        as (inc & E & T).
      exists inc. split; [assumption|].
      rewrite T. simpl. now rewrite <- app_assoc.
Qed.

Lemma parseInclusions_terms (query : option str) :
  exists inc,
    parseInclusions query = Some inc /\
    terms inc = map include_shape (include_tags query).
Proof.
  unfold parseInclusions, include_tags.
  destruct query as [q|].
  - destruct (is_blank (Some q)) eqn:B.
    + exists (Inclusions [] [TTrue]). now split.
    + destruct (fold_add_token (tokens q) (Inclusions [] [])) as (inc & E & T).
      exists inc. split; [assumption|]. exact T.
  - exists (Inclusions [] [TTrue]). now split.
Qed.

Lemma all_some_regexps (l : list str) :
  all_some (map (fun t => RegExp_i (exclude_source t)) l) = Some (map exclude_shape l).
Proof.
  induction l as [|t l IH]; simpl; [reflexivity|].
  now rewrite exclude_regexp, IH.
Qed.

Lemma parseExclusions_terms (excludeString : option str) :
  parseExclusions excludeString = Some (map exclude_shape (exclude_tags excludeString)).
Proof.
  destruct excludeString as [[|c s]|]; try reflexivity.
  apply all_some_regexps.
Qed.

(** Every pattern of a term starts with [\b], which fails on the empty
    string. *)
Lemma include_shape_empty (t : str) : Js.test (include_shape t) [] = false.
Proof. reflexivity. Qed.

Lemma exclude_shape_empty (t : str) : Js.test (exclude_shape t) [] = false.
Proof. reflexivity. Qed.

(** *** What the patterns of a term match *)

Lemma matches_seq (r1 r2 : regex) (p p2 : position) :
  matches (Seq r1 r2) p p2 <-> exists p1, matches r1 p p1 /\ matches r2 p1 p2.
Proof.
  split.
  - inversion 1; subst. eauto.
  - intros (p1 & M1 & M2). now apply m_seq with (p1 := p1).
Qed.

Lemma matches_wordb (p p' : position) :
  matches WordB p p' <-> p' = p /\ at_boundary (fst p) (snd p) = true.
Proof.
  split.
  - inversion 1; subst. now split.
  - intros (-> & H). destruct p. now constructor.
Qed.

Lemma matches_eps (p p' : position) : matches Eps p p' <-> p' = p.
Proof. split; [inversion 1; reflexivity | intros ->; constructor]. Qed.

Lemma matches_chr (cl : cclass) (p p' : position) :
  matches (Chr cl) p p' <->
  exists c rest, snd p = c :: rest /\ cmatch cl c = true /\ p' = (Some c, rest).
Proof.
  split.
  - inversion 1; subst. simpl. eauto.
  - destruct p as [prev rest0]. simpl. intros (c & rest & -> & H & ->).
    now constructor.
Qed.

Lemma matches_opt (cl : cclass) (p p' : position) :
  matches (Opt cl) p p' <->
  p' = p \/
  exists c rest, snd p = c :: rest /\ cmatch cl c = true /\ p' = (Some c, rest).
Proof.
  split.
  - inversion 1; subst; simpl; eauto 6.
  - destruct p as [prev rest0]. simpl. intros [-> | (c & rest & -> & H & ->)];
      now constructor.
Qed.

Lemma literal_char (a c : ascii) : cmatch (CLit a) c = true <-> canon a = canon c.
Proof. apply Ascii.eqb_eq. Qed.

Lemma matches_literal (t : str) (tail : list regex) (p' : position) :
  forall prev rest,
    matches (seq_of (literal t ++ tail)) (prev, rest) p' <->
    exists body rest1,
      rest = body ++ rest1 /\ map canon body = map canon t /\
      matches (seq_of tail) (after prev body, rest1) p'.
Proof.
  induction t as [|a t IH]; intros prev rest.
  - simpl. split.
    + intros M. now exists [], rest.
    + intros (body & rest1 & -> & E & M). destruct body; [exact M | discriminate].
  - change (seq_of (literal (a :: t) ++ tail))
      with (Seq (Chr (CLit a)) (seq_of (literal t ++ tail))).
    rewrite matches_seq. split.
    + intros (p1 & M1 & M2).
      apply matches_chr in M1 as (c & rest' & Er & Hc & ->). simpl in Er. subst rest.
      apply literal_char in Hc.
      apply IH in M2 as (body & rest1 & -> & E & M).
      exists (c :: body), rest1. simpl. rewrite <- Hc, E. now repeat split.
    + intros (body & rest1 & -> & E & M). destruct body as [|c body]; [discriminate|].
      simpl in E. inversion E as [[Ec Eb]].
      exists (Some c, body ++ rest1). split.
      * apply matches_chr. exists c, (body ++ rest1).
        repeat split. apply literal_char. now symmetry.
      * apply IH. now exists body, rest1.
Qed.

Lemma matches_plural (plural : bool) (p p' : position) :
  matches (seq_of ((if plural then [Opt (CLit "s")] else []) ++ [WordB])) p p' <->
  exists s,
    snd p = s ++ snd p' /\ fst p' = after (fst p) s /\
    (s = [] \/ (plural = true /\ exists c, s = [c] /\ canon c = "S"%char)) /\
    at_boundary (fst p') (snd p') = true.
Proof.
  assert (W : forall q q', matches (seq_of [WordB]) q q' <->
                           q' = q /\ at_boundary (fst q) (snd q) = true).
  { intros q q'. simpl. rewrite matches_seq. split.
    - intros (p1 & M1 & M2). apply matches_wordb in M1 as (-> & B).
      apply matches_eps in M2. now subst.
    - intros (-> & B). exists q. split; [now apply matches_wordb | now apply matches_eps]. }
  destruct plural.
  - change (seq_of ([Opt (CLit "s")] ++ [WordB]))
      with (Seq (Opt (CLit "s")) (seq_of [WordB])).
    rewrite matches_seq. split.
    + intros (p1 & M1 & M2). apply W in M2 as (-> & B).
      apply matches_opt in M1 as [-> | (c & rest' & E & Hc & ->)].
      * exists []. repeat split; auto.
      * exists [c]. simpl. repeat split; auto. right. split; [reflexivity|].
        exists c. split; [reflexivity|].
        apply literal_char in Hc. now symmetry.
    + intros (s & E & A & [-> | (_ & c & -> & Hc)] & B); destruct p as [prev rest],
        p' as [prev' rest']; simpl in *; subst.
      * exists (prev, rest'). split; [now apply matches_opt; left | now apply W].
      * exists (Some c, rest'). split; [|now apply W].
        apply matches_opt. right. exists c, rest'. repeat split.
        apply literal_char. now rewrite Hc.
  - change (seq_of ([] ++ [WordB])) with (seq_of [WordB]). rewrite W. split.
    + intros (-> & B). exists []. repeat split; auto.
    + intros (s & E & A & [-> | (X & _)] & B); [|discriminate].
      destruct p as [prev rest], p' as [prev' rest']; simpl in *; subst. now split.
Qed.

Lemma shape_occurs (plural : bool) (t prompt : str) :
  Js.test (shape plural t) prompt = true <-> occurs plural t prompt.
Proof.
  rewrite test_matches. unfold matches_in, occurs, shape.
  change (seq_of ([WordB; Star CDigit] ++ literal t
                  ++ (if plural then [Opt (CLit "s")] else []) ++ [WordB]))
    with (Seq WordB (Seq (Star CDigit)
            (seq_of (literal t ++ (if plural then [Opt (CLit "s")] else []) ++ [WordB])))).
  split.
  - intros (pre & post & p' & -> & M).
    apply matches_seq in M as (p1 & M1 & M).
    apply matches_wordb in M1 as (-> & B1). simpl in B1.
    apply matches_seq in M as ([prev2 rest2] & M2 & M).
    apply matches_star in M2 as (ds & E2 & D & A2). simpl in E2, A2. subst.
    apply matches_literal in M as (body & rest3 & -> & Eb & M).
    apply matches_plural in M as (s & E4 & A4 & S & B4). simpl in E4, A4.
    destruct p' as [prev' post']. simpl in *. subst.
    exists pre, ds, body, s, post'. repeat split; auto.
    now rewrite !app_assoc, !after_app, <- !app_assoc in *.
  - intros (pre & ds & body & s & post & -> & D & Eb & S & B1 & B2).
    exists pre, (ds ++ body ++ s ++ post),
           (after None (pre ++ ds ++ body ++ s), post).
    split; [reflexivity|].
    apply matches_seq. exists (after None pre, ds ++ body ++ s ++ post).
    split; [now apply matches_wordb|].
    apply matches_seq. exists (after (after None pre) ds, body ++ s ++ post).
    split; [apply matches_star; exists ds; now repeat split|].
    apply matches_literal. exists body, (s ++ post). repeat split; auto.
    apply matches_plural. exists s. simpl.
    rewrite <- !after_app. repeat split; auto.
Qed.

(** An inclusion pattern matches the occurrences of its term with or
    without a final [s]; an exclusion pattern those without one only. *)
Lemma include_shape_occurs (t prompt : str) :
  Js.test (include_shape t) prompt = true <-> occurs true t prompt.
Proof. apply (shape_occurs true). Qed.

Lemma exclude_shape_occurs (t prompt : str) :
  Js.test (exclude_shape t) prompt = true <-> occurs false t prompt.
Proof. apply (shape_occurs false). Qed.

(** *** The compiled predicate *)

Lemma compile_inv (query excludeString : option str) (f : predicate) :
  compile query excludeString = Filter f ->
  exists inc,
    parseInclusions query = Some inc /\
    terms inc = map include_shape (include_tags query) /\
    ((exclude_tags excludeString = [] /\ include_tags query = [] /\ f = AlwaysTrue) \/
     (exists body,
        parse_expression (expression inc) = Some body /\
        f = Compiled (map exclude_shape (exclude_tags excludeString))
                     (map include_shape (include_tags query)) body)).
Proof.
  unfold compile. rewrite parseExclusions_terms.
  destruct (parseInclusions_terms query) as (inc & E & T). rewrite E.
  intros H. exists inc. split; [reflexivity|]. split; [assumption|].
  rewrite T in H. rewrite !length_map in H.
  destruct (exclude_tags excludeString) as [|x xs]; simpl in H.
  - destruct (include_tags query) as [|y ys]; simpl in H.
    + left. inversion H. now repeat split.
    + right. destruct (parse_expression (expression inc)) as [body|]; [|discriminate].
      exists body. inversion H. now split.
  - right. destruct (parse_expression (expression inc)) as [body|]; [|discriminate].
    exists body. inversion H. now split.
Qed.

(** C3.  When the pattern of some exclusion term matches the prompt, [test]
    gives [false] whatever the include query is.  The exclusions are tried
    before the expression: with the query [cat (dog)], whose expression
    throws when it is evaluated, an excluded prompt still gives [false]. *)
Theorem exclusions_veto :
  (forall query excludeString f prompt t,
      compile query excludeString = Filter f ->
      In t (exclude_tags excludeString) ->
      Js.test (exclude_shape t) (or_empty prompt) = true ->
      test f prompt = Val false) /\
  (forall query excludeString Exclusions Terms body prompt,
      compile query excludeString = Filter (Compiled Exclusions Terms body) ->
      Exclusions = map exclude_shape (exclude_tags excludeString) /\
      test (Compiled Exclusions Terms body) prompt
      = if existsb (fun r => Js.test r (or_empty prompt)) Exclusions
        then Val false
        else eval (operand Terms (or_empty prompt)) body) /\
  (exists f,
      compile (Some ("cat (dog)"%string : str)) (Some ("boy"%string : str)) = Filter f /\
      test f (Some ("cat dog"%string : str)) = TypeError /\
      test f (Some ("1boy, cat dog"%string : str)) = Val false).
Proof.
  split; [|split].
  - intros query excludeString f prompt t H Hin Ht.
    destruct (compile_inv _ _ H) as (inc & E & T & [(X & _ & _) | (b & P & F)]).
    + rewrite X in Hin. contradiction.
    + subst f. unfold test, call.
      replace (existsb (fun r => Js.test r (or_empty prompt))
                 (map exclude_shape (exclude_tags excludeString))) with true;
        [reflexivity|].
      symmetry. apply existsb_exists. exists (exclude_shape t).
      split; [now apply in_map | assumption].
  - intros query excludeString Exclusions Terms body prompt H.
    destruct (compile_inv _ _ H) as (inc & E & T & [(_ & _ & F) | (b & P & F)]);
      [discriminate|].
    inversion F; subst. split; reflexivity.
  - eexists. split; [vm_compute; reflexivity|]. split; vm_compute; reflexivity.
Qed.

Lemma exclusions_veto_witness :
  test (Compiled [exclude_shape "boy"%string] [include_shape "cat"%string] (ETerm 0))
       (Some ("1boy with a cat"%string : str)) = Val false /\
  test (Compiled [exclude_shape "boy"%string] [include_shape "cat"%string] (ETerm 0))
       (Some ("a girl with a cat"%string : str)) = Val true.
Proof.
  destruct exclusions_veto as (V & O & _).
  split.
  - apply (V (Some ("cat"%string : str)) (Some (" 'boy' , "%string : str)) _
             (Some ("1boy with a cat"%string : str)) ("boy"%string : str)).
    + vm_compute. reflexivity.
    + vm_compute. left. reflexivity.
    + vm_compute. reflexivity.
  - destruct (O (Some ("cat"%string : str)) (Some (" 'boy' , "%string : str))
                [exclude_shape "boy"%string] [include_shape "cat"%string] (ETerm 0)
                (Some ("a girl with a cat"%string : str))) as (_ & E).
    + vm_compute. reflexivity.
    + rewrite E. vm_compute. reflexivity.
Defined.

(** C4.  The pattern built for an include term is [\b], any digits, the
    term letter by letter and an optional [s], then [\b]; the pattern built
    for an exclude term is the same without the optional [s]; both compare
    letters up to case.  The terms of [parseInclusions] and of
    [parseExclusions] are these patterns.  So an include pattern matches a
    prompt exactly when the term occurs in it between word boundaries, after
    any digits and before an [s] or none, and an exclude pattern exactly
    when it occurs so without the [s].  The include pattern of [cat]
    matches [cat], [1cat] and [cats] and not [concatenate]; the exclude
    pattern of [cat] matches [cat] and [1cat] and neither [cats] nor
    [concatenate]. *)
Theorem term_patterns :
  (forall t, RegExp_i (include_source t) = Some (include_shape t)) /\
  (forall t, RegExp_i (exclude_source t) = Some (exclude_shape t)) /\
  (forall query, exists inc,
      parseInclusions query = Some inc /\
      terms inc = map include_shape (include_tags query)) /\
  (forall excludeString,
      parseExclusions excludeString
      = Some (map exclude_shape (exclude_tags excludeString))) /\
  (forall t prompt,
      Js.test (include_shape t) prompt = true <-> occurs true t prompt) /\
  (forall t prompt,
      Js.test (exclude_shape t) prompt = true <-> occurs false t prompt) /\
  (let cat := include_shape "cat"%string in
   Js.test cat "cat"%string = true /\ Js.test cat "a 1cat"%string = true /\
   Js.test cat "two Cats here"%string = true /\
   Js.test cat "concatenate"%string = false) /\
  (let cat := exclude_shape "cat"%string in
   Js.test cat "cat"%string = true /\ Js.test cat "a 1cat"%string = true /\
   Js.test cat "two Cats here"%string = false /\
   Js.test cat "concatenate"%string = false).
Proof.
  split; [exact include_regexp|]. split; [exact exclude_regexp|].
  split; [exact parseInclusions_terms|]. split; [exact parseExclusions_terms|].
  split; [exact include_shape_occurs|]. split; [exact exclude_shape_occurs|].
  split; repeat split; vm_compute; reflexivity.
Qed.

Lemma term_patterns_witness :
  Js.test (include_shape "girl"%string) "2Girls, outdoors"%string = true /\
  ~ occurs false "girl"%string "2Girls, outdoors"%string.
Proof.
  destruct term_patterns as (_ & _ & _ & _ & I & E & _).
  split.
  - apply I.
    exists [], ["2"%char], ("Girl"%string : str), ["s"%char], (", outdoors"%string : str).
    repeat split. right. split; [reflexivity|]. exists "s"%char. now split.
  - intros O. apply E in O. vm_compute in O. discriminate O.
Defined.

Lemma blank_query (query : option str) :
  is_blank query = true -> parseInclusions query = Some (Inclusions [] [TTrue]).
Proof.
  unfold parseInclusions. destruct query as [q|]; [|reflexivity].
  now intros ->.
Qed.

(** C9.  [test] on an absent prompt is [test] on the empty string; no
    pattern of a compiled filter matches the empty string; and a filter
    compiled from a blank include query and an exclusion list without terms
    gives [true] on every prompt. *)
Theorem absent_prompt_and_empty_filter :
  (forall f, test f None = test f (Some [])) /\
  (forall query excludeString Exclusions Terms body r,
      compile query excludeString = Filter (Compiled Exclusions Terms body) ->
      In r (Exclusions ++ Terms) -> Js.test r [] = false) /\
  (forall query excludeString prompt,
      is_blank query = true ->
      exclude_tags excludeString = [] ->
      exists f, compile query excludeString = Filter f /\ test f prompt = Val true).
Proof.
  split; [reflexivity|]. split.
  - intros query excludeString Exclusions Terms body r H Hin.
    destruct (compile_inv _ _ H) as (inc & E & T & [(_ & _ & F) | (b & P & F)]);
      [discriminate|].
    inversion F; subst. apply in_app_or in Hin as [Hin | Hin];
      apply in_map_iff in Hin as (t & <- & _); reflexivity.
  - intros query excludeString prompt B X.
    exists AlwaysTrue. split; [|reflexivity].
    unfold compile. now rewrite parseExclusions_terms, X, (blank_query _ B).
Qed.

Lemma absent_prompt_and_empty_filter_witness :
  Js.test (include_shape "cat"%string) [] = false /\
  (exists f, compile (Some ("  "%string : str)) (Some (" , ''"%string : str)) = Filter f /\
             test f (Some ("anything"%string : str)) = Val true).
Proof.
  destruct absent_prompt_and_empty_filter as (_ & N & T).
  split.
  - apply (N (Some ("cat"%string : str)) None []
             [include_shape "cat"%string] (ETerm 0)).
    + vm_compute. reflexivity.
    + left. reflexivity.
  - apply T; vm_compute; reflexivity.
Defined.

(** *** Keywords and the separator *)

Lemma word_char (c : ascii) :
  is_word c = true ->
  is_space c = false /\ is_quote c = false /\
  cmatch (CLit "(") c = false /\ cmatch (CLit ")") c = false /\
  is_word (canon c) = true.
Proof.
  destruct c as [[] [] [] [] [] [] [] []]; vm_compute; intuition congruence.
Qed.

Lemma words_tail (c : ascii) (s : str) : words (c :: s) -> words s.
Proof. unfold words. simpl. intros H. now apply andb_true_iff in H. Qed.

Lemma words_head (c : ascii) (s : str) : words (c :: s) -> is_word c = true.
Proof. unfold words. simpl. intros H. now apply andb_true_iff in H. Qed.

(** The separator does not match at a character that is neither white space
    nor a parenthesis. *)
Lemma separator_at_plain (prev : option ascii) (c : ascii) (rest : str) :
  is_space c = false ->
  cmatch (CLit "(") c = false -> cmatch (CLit ")") c = false ->
  exec_at separator prev (c :: rest) = None.
Proof.
  intros Hs Hl Hr. unfold exec_at, separator, parenthesis, Plus.
  cbn [rmatch star_loop m_rest m_prev m_caps].
  change (cmatch CSpace c) with (is_space c). rewrite Hs.
  cbn [rmatch star_loop m_rest m_prev m_caps].
  now rewrite Hl, Hr.
Qed.

Lemma separator_at_word (prev : option ascii) (s : str) :
  words s -> never separator prev s.
Proof.
  revert prev. induction s as [|c s IH]; intros prev H; simpl; [exact I|].
  destruct (word_char c (words_head H)) as (Hs & _ & Hl & Hr & _).
  split; [now apply separator_at_plain | apply IH; eapply words_tail; eassumption].
Qed.

Lemma rmatch_seq (r1 r2 : regex) (st : mstate) (k : mstate -> option mstate) :
  rmatch (Seq r1 r2) st k = rmatch r1 st (fun st' => rmatch r2 st' k).
Proof. reflexivity. Qed.

Lemma rmatch_alt (r1 r2 : regex) (st : mstate) (k : mstate -> option mstate) :
  rmatch (Alt r1 r2) st k
  = match rmatch r1 st k with Some res => Some res | None => rmatch r2 st k end.
Proof. reflexivity. Qed.

(** A keyword inside a word has no white space after it. *)
Lemma keyword_in_word (st : mstate) (k : mstate -> option mstate) :
  words (m_rest st) -> rmatch (Seq keyword (Plus CSpace)) st k = None.
Proof.
  intros H. rewrite rmatch_seq.
  apply rmatch_none with (Q := words); [exact words_tail | assumption |].
  intros [p rest caps] Hw. simpl in Hw. unfold Plus. cbn [rmatch m_rest].
  destruct rest as [|d rest]; [reflexivity|].
  destruct (word_char d (words_head Hw)) as (Hs & _).
  change (cmatch CSpace d) with (is_space d). now rewrite Hs.
Qed.

Lemma keyword_at (st : mstate) (k : mstate -> option mstate) (d : ascii) (rest : str) :
  m_rest st = d :: rest ->
  cmatch (CLit "A") d = false -> cmatch (CLit "O") d = false ->
  cmatch (CLit "N") d = false ->
  rmatch (Seq keyword (Plus CSpace)) st k = None.
Proof.
  intros E HA HO HN. destruct st as [p r caps]. simpl in E. subst r.
  unfold keyword, Lit. cbn [rmatch m_rest fold_right list_ascii_of_string].
  now rewrite HA, HO, HN.
Qed.

Lemma parenthesis_at (st : mstate) (k : mstate -> option mstate) :
  match m_rest st with
  | [] => True
  | d :: _ => cmatch (CLit "(") d = false /\ cmatch (CLit ")") d = false
  end ->
  rmatch (Seq parenthesis (Star CSpace)) st k = None.
Proof.
  destruct st as [p [|d r] caps]; unfold parenthesis; cbn [rmatch m_rest].
  - reflexivity.
  - intros (Hl & Hr). now rewrite Hl, Hr.
Qed.

(** Nor does the separator match at a space that a word follows: a keyword
    there would need white space after it. *)
Lemma separator_before_word (prev : option ascii) (c : ascii) (tag : str) :
  words (c :: tag) -> exec_at separator prev (" "%char :: c :: tag) = None.
Proof.
  intros H.
  set (Q := fun s : str => s = " "%char :: c :: tag \/ words s).
  assert (Q_tail : forall x s, Q (x :: s) -> Q s).
  { intros x s [E | W]; right.
    - inversion E; subst. assumption.
    - eapply words_tail; eassumption. }
  assert (K : forall st', Q (m_rest st') ->
                rmatch (Seq keyword (Plus CSpace)) st' Some = None).
  { intros st' [E | W].
    - eapply keyword_at; [eassumption | reflexivity ..].
    - now apply keyword_in_word. }
  assert (P : forall st', Q (m_rest st') ->
                rmatch (Seq parenthesis (Star CSpace)) st' Some = None).
  { intros st' [E | W]; apply parenthesis_at.
    - rewrite E. split; reflexivity.
    - destruct (m_rest st') as [|d r]; [exact I|].
      destruct (word_char d (words_head W)) as (_ & _ & Hl & Hr & _). now split. }
  unfold exec_at, separator. rewrite rmatch_alt, !rmatch_seq.
  rewrite (rmatch_none Q Q_tail (Plus CSpace)) by (assumption || now left).
  apply (rmatch_none Q Q_tail (Star CSpace)); [now left | assumption].
Qed.

(** *** A keyword, a space and a tag *)

Lemma trim_ends (a : ascii) (s : str) :
  is_space a = false ->
  (exists d r, rev (a :: s) = d :: r /\ is_space d = false) ->
  trim (a :: s) = a :: s.
Proof.
  intros Ha (d & r & E & Hd). unfold trim.
  cbn [trimStart]. rewrite Ha, E. cbn [trimStart]. rewrite Hd, <- E.
  apply rev_involutive.
Qed.

Lemma strip_quotes_ends (a : ascii) (s : str) :
  is_quote a = false ->
  (exists d r, rev (a :: s) = d :: r /\ is_quote d = false) ->
  strip_quotes (a :: s) = a :: s.
Proof.
  intros Ha (d & r & E & Hd). unfold strip_quotes, drop_last_quote.
  now rewrite Ha, E, Hd.
Qed.

Lemma rev_ends_word (pre : str) (c : ascii) (tag : str) :
  words (c :: tag) ->
  exists d r, rev (pre ++ c :: tag) = d :: r /\ is_word d = true.
Proof.
  intros H. rewrite rev_app_distr.
  destruct (rev (c :: tag)) as [|d r] eqn:E.
  - apply (f_equal (@length ascii)) in E. rewrite length_rev in E. discriminate.
  - exists d, (r ++ rev pre). split; [reflexivity|].
    assert (Hin : In d (c :: tag)) by (apply in_rev; rewrite E; now left).
    unfold words in H. rewrite forallb_forall in H. now apply H.
Qed.

Lemma words_canon (s : str) : words s -> words (map canon s).
Proof.
  unfold words. induction s as [|c s IH]; simpl; [reflexivity|].
  intros H. apply andb_true_iff in H as (Hc & Hs).
  destruct (word_char c Hc) as (_ & _ & _ & _ & Hw). now rewrite Hw, IH.
Qed.

(** A query made of a keyword, one space and a tag of word characters is a
    single token, and that token is a tag. *)
Lemma keyword_space_tag (kw : str) (c : ascii) (tag : str) :
  In kw keywords -> words (c :: tag) ->
  let q := kw ++ " "%char :: c :: tag in
  tokens q = [q] /\ is_blank (Some q) = false /\
  mapOperator (trim (toUpperCase q)) = None /\ strip_quotes q = q.
Proof.
  intros Hkw H q.
  assert (Hword : forall pre, exists d r,
            rev (pre ++ c :: tag) = d :: r /\
            is_space d = false /\ is_quote d = false).
  { intros pre. destruct (rev_ends_word pre H) as (d & r & E & Hd).
    destruct (word_char d Hd) as (Hs & Hq & _). now exists d, r. }
  assert (Hupper : forall pre, exists d r,
            rev (pre ++ canon c :: map canon tag) = d :: r /\ is_space d = false).
  { intros pre.
    destruct (@rev_ends_word pre (canon c) (map canon tag) (words_canon H)) as (d & r & E & Hd).
    destruct (word_char d Hd) as (Hs & _). now exists d, r. }
  assert (Htrim : trim q = q /\ strip_quotes q = q /\ never separator None q /\
                  mapOperator (trim (toUpperCase q)) = None).
  { subst q. destruct Hkw as [<- | [<- | [<- | []]]];
      cbn [app list_ascii_of_string].
    - (* AND *)
      split; [|split; [|split]].
      + apply trim_ends; [reflexivity|].
        destruct (Hword ("AND "%string : str)) as (d & r & E & Hs & Hq). now exists d, r.
      + apply strip_quotes_ends; [reflexivity|].
        destruct (Hword ("AND "%string : str)) as (d & r & E & Hs & Hq). now exists d, r.
      + cbn [never]. repeat split;
          try (apply separator_at_plain; reflexivity).
        * now apply separator_before_word.
        * apply separator_at_plain;
            destruct (word_char c (words_head H)) as (? & ? & ? & ? & ?); assumption.
        * apply separator_at_word. eapply words_tail; eassumption.
      + unfold toUpperCase. cbn [map].
        change (canon "A") with "A"%char. change (canon "N") with "N"%char.
        change (canon "D") with "D"%char. change (canon " ") with " "%char.
        rewrite trim_ends; [reflexivity | reflexivity |].
        apply (Hupper ("AND "%string : str)).
    - (* OR *)
      split; [|split; [|split]].
      + apply trim_ends; [reflexivity|].
        destruct (Hword ("OR "%string : str)) as (d & r & E & Hs & Hq). now exists d, r.
      + apply strip_quotes_ends; [reflexivity|].
        destruct (Hword ("OR "%string : str)) as (d & r & E & Hs & Hq). now exists d, r.
      + cbn [never]. repeat split;
          try (apply separator_at_plain; reflexivity).
        * now apply separator_before_word.
        * apply separator_at_plain;
            destruct (word_char c (words_head H)) as (? & ? & ? & ? & ?); assumption.
        * apply separator_at_word. eapply words_tail; eassumption.
      + unfold toUpperCase. cbn [map].
        change (canon "O") with "O"%char. change (canon "R") with "R"%char.
        change (canon " ") with " "%char.
        rewrite trim_ends; [reflexivity | reflexivity |].
        apply (Hupper ("OR "%string : str)).
    - (* NOT *)
      split; [|split; [|split]].
      + apply trim_ends; [reflexivity|].
        destruct (Hword ("NOT "%string : str)) as (d & r & E & Hs & Hq). now exists d, r.
      + apply strip_quotes_ends; [reflexivity|].
        destruct (Hword ("NOT "%string : str)) as (d & r & E & Hs & Hq). now exists d, r.
      + cbn [never]. repeat split;
          try (apply separator_at_plain; reflexivity).
        * now apply separator_before_word.
        * apply separator_at_plain;
            destruct (word_char c (words_head H)) as (? & ? & ? & ? & ?); assumption.
        * apply separator_at_word. eapply words_tail; eassumption.
      + unfold toUpperCase. cbn [map].
        change (canon "N") with "N"%char. change (canon "O") with "O"%char.
        change (canon "T") with "T"%char. change (canon " ") with " "%char.
        rewrite trim_ends; [reflexivity | reflexivity |].
        apply (Hupper ("NOT "%string : str)). }
  destruct Htrim as (Ht & Hq & Hn & Hm).
  assert (Hne : truthy q = true).
  { subst q. destruct Hkw as [<- | [<- | [<- | []]]]; reflexivity. }
  repeat split; try assumption.
  - unfold tokens, split.
    destruct q as [|x q'] eqn:Eq; [discriminate|]. rewrite <- Eq in *.
    rewrite Eq at 1. rewrite <- Eq.
    rewrite (split_go_never separator 2 q [] None Hn).
    cbn [rev app flat_map]. now rewrite Ht, Hne.
  - unfold is_blank. now rewrite Ht, Hne.
Qed.

(** *** What the separator splits out *)

(** When the separator captures a keyword, white space stands on both sides
    of it in the query. *)
Lemma separator_keyword (prev : option ascii) (rest : str) (st : mstate) (kw : str) :
  exec_at separator prev rest = Some st ->
  capture 1 (m_caps st) = Some kw ->
  exists ws1 ws2,
    rest = ws1 ++ kw ++ ws2 ++ m_rest st /\
    ws1 <> [] /\ ws2 <> [] /\
    forallb is_space ws1 = true /\ forallb is_space ws2 = true /\
    In (toUpperCase kw) keywords.
Proof.
  unfold exec_at, separator. rewrite rmatch_alt.
  destruct (rmatch (Seq (Plus CSpace) (Seq keyword (Plus CSpace)))
              (MState prev rest []) Some) as [res|] eqn:A.
  - intros E Hcap. inversion E; subst res. clear E.
    unfold Plus at 1 in A. rewrite !rmatch_seq in A.
    apply chr_some in A as (c1 & r1 & E1 & Hc1 & A). simpl in E1. subst rest.
    cbn [rmatch m_rest m_prev m_caps] in A.
    apply star_loop_some in A as (ws & r2 & p2 & -> & Hws & A).
    unfold keyword in A. cbn [rmatch] in A.
    assert (K : exists matched r3 p3,
               r2 = matched ++ r3 /\ In (map canon matched) keywords /\
               rmatch (Plus CSpace) (MState p3 r3 [(1, matched)]) Some = Some st).
    { clear Hcap. destruct (rmatch (Lit "AND"%string) _ _) as [res|] eqn:KA.
      - inversion A; subst res.
        apply lit_some in KA as (m & r3 & p3 & E & Hm & KA). simpl in E, KA. subst r2.
        rewrite firstn_matched in KA.
        exists m, r3, p3. repeat split; [|exact KA]. rewrite Hm. now left.
      - destruct (rmatch (Lit "OR"%string) _ _) as [res|] eqn:KO.
        + inversion A; subst res.
          apply lit_some in KO as (m & r3 & p3 & E & Hm & KO). simpl in E, KO. subst r2.
          rewrite firstn_matched in KO.
          exists m, r3, p3. repeat split; [|exact KO]. rewrite Hm. right. now left.
        + apply lit_some in A as (m & r3 & p3 & E & Hm & A). simpl in E, A. subst r2.
          rewrite firstn_matched in A.
          exists m, r3, p3. repeat split; [|exact A]. rewrite Hm. right. right. now left. }
    clear A. destruct K as (matched & r3 & p3 & -> & Hkw & K).
    unfold Plus in K. rewrite rmatch_seq in K.
    apply chr_some in K as (c2 & r4 & E2 & Hc2 & K). simpl in E2. subst r3.
    cbn [rmatch m_rest m_prev m_caps] in K.
    apply star_loop_some in K as (ws' & r5 & p5 & -> & Hws' & K).
    inversion K; subst st. simpl in Hcap. inversion Hcap; subst kw. simpl.
    exists (c1 :: ws), (c2 :: ws').
    split; [reflexivity|]. split; [discriminate|]. split; [discriminate|].
    change (cmatch CSpace) with is_space in *. simpl.
    rewrite Hc1, Hc2, Hws, Hws'. repeat split. exact Hkw.
  - intros A2 Hcap. exfalso.
    rewrite rmatch_seq in A2. cbn [rmatch m_rest m_prev m_caps] in A2.
    apply star_loop_some in A2 as (ws & r2 & p2 & -> & Hws & A2).
    unfold parenthesis in A2. cbn [rmatch] in A2.
    assert (C : exists p r c, star_loop CSpace [(2, c)] p r Some = Some st).
    { cbn [m_rest m_prev m_caps] in A2.
      destruct r2 as [|d r3]; [discriminate|].
      destruct (cmatch (CLit "(") d).
      - destruct (star_loop CSpace _ (Some d) r3 Some) as [res|] eqn:S1.
        + inversion A2; subst res.
          exact (ex_intro _ _ (ex_intro _ _ (ex_intro _ _ S1))).
        + destruct (cmatch (CLit ")") d); discriminate.
      - destruct (cmatch (CLit ")") d); [|discriminate].
        exact (ex_intro _ _ (ex_intro _ _ (ex_intro _ _ A2))). }
    destruct C as (p & r & c & C).
    apply star_loop_some in C as (ws' & r5 & p5 & _ & _ & C).
    inversion C; subst st. discriminate.
Qed.

(** C10, as stated, fails on [NOT (3d)]: the query starts with the keyword,
    with no white space before it; the keyword is still a token of its own
    and is mapped to the negation, so the query is not a single literal
    term and the predicate is the negation of [3d]. *)
Lemma keyword_before_parenthesis :
  tokens ("NOT (3d)"%string : str)
    = ["NOT"%string : str; "("%string : str; "3d"%string : str; ")"%string : str] /\
  parseInclusions (Some ("NOT (3d)"%string : str))
    = Some (Inclusions [include_shape "3d"%string] [TNot; TLP; TTerm 0; TRP]) /\
  compile (Some ("NOT (3d)"%string : str)) None
    = Filter (Compiled [] [include_shape "3d"%string] (ENot (ETerm 0))) /\
  test (Compiled [] [include_shape "3d"%string] (ENot (ETerm 0)))
       (Some ("a photo"%string : str)) = Val true /\
  test (Compiled [] [include_shape "3d"%string] (ENot (ETerm 0)))
       (Some ("a 3d render"%string : str)) = Val false /\
  ~ (forall kw rest : str,
       In kw keywords -> truthy (trim rest) = true ->
       tokens (kw ++ " "%char :: rest) = [kw ++ " "%char :: rest]).
Proof.
  repeat split; try (vm_compute; reflexivity).
  intros H.
  specialize (H ("NOT"%string : str) ("(3d)"%string : str)
                (or_intror (or_intror (or_introl eq_refl))) eq_refl).
  vm_compute in H. discriminate H.
Qed.

End TagFilterFacts.

(* ================================================================== *)
(** * Facts about [MetadataCache] *)
(* ================================================================== *)

Module MetadataCacheFacts.
Import Js JsFacts MetadataCache Demo.

Lemma ident_eqb_eq (a b : ident) : ident_eqb a b = true <-> a = b.
Proof.
  destruct a as [n|s], b as [m|t]; simpl; split; intros H;
    try discriminate; try congruence.
  - apply Z.eqb_eq in H. now subst.
  - inversion H. apply Z.eqb_refl.
  - apply str_eqb_eq in H. now subst.
  - inversion H. apply str_eqb_refl.
Qed.

Lemma ident_eqb_refl (a : ident) : ident_eqb a a = true.
Proof. now apply ident_eqb_eq. Qed.

Lemma ident_eqb_neq (a b : ident) : ident_eqb a b = false <-> a <> b.
Proof.
  split.
  - intros H E. apply ident_eqb_eq in E. congruence.
  - intros H. destruct (ident_eqb a b) eqn:E; [|reflexivity].
    apply ident_eqb_eq in E. contradiction.
Qed.

(** *** [Map.set] on an association list *)

Local Abbreviation set := (map_set ident_eqb).
Local Abbreviation get := (map_get ident_eqb).
Local Abbreviation keys := (map (@fst ident item)).

Lemma keys_set_in (k : ident) (v : item) (m : list (ident * item)) :
  In k (keys m) -> keys (set k v m) = keys m.
Proof.
  induction m as [|[k' v'] m IH]; simpl; [contradiction|].
  intros H. destruct (ident_eqb k' k) eqn:E.
  - apply ident_eqb_eq in E. now subst.
  - simpl. f_equal. apply IH. destruct H as [H|H]; [|assumption].
    apply ident_eqb_neq in E. congruence.
Qed.

Lemma set_fresh (k : ident) (v : item) (m : list (ident * item)) :
  ~ In k (keys m) -> set k v m = m ++ [(k, v)].
Proof.
  induction m as [|[k' v'] m IH]; simpl; [reflexivity|].
  intros H. destruct (ident_eqb k' k) eqn:E.
  - apply ident_eqb_eq in E. subst. exfalso. apply H. now left.
  - f_equal. apply IH. intros Hin. apply H. now right.
Qed.

Lemma in_keys_set (x k : ident) (v : item) (m : list (ident * item)) :
  In x (keys (set k v m)) <-> x = k \/ In x (keys m).
Proof.
  destruct (in_dec ident_eq_dec k (keys m)) as [Hin|Hout].
  - rewrite keys_set_in by assumption. split; [now right|].
    intros [-> | H]; assumption.
  - rewrite set_fresh by assumption. rewrite map_app, in_app_iff. simpl.
    split; [intros [H|[H|[]]] | intros [H|H]]; auto.
Qed.

Lemma nodup_set (k : ident) (v : item) (m : list (ident * item)) :
  NoDup (keys m) -> NoDup (keys (set k v m)).
Proof.
  intros H. destruct (in_dec ident_eq_dec k (keys m)) as [Hin|Hout].
  - now rewrite keys_set_in.
  - rewrite set_fresh by assumption. rewrite map_app. simpl.
    apply NoDup_app; [assumption | constructor; [intros [] | constructor] |].
    intros x Hx [<- | []]. contradiction.
Qed.

Lemma get_set (x k : ident) (v : item) (m : list (ident * item)) :
  get x (set k v m) = if ident_eqb k x then Some v else get x m.
Proof.
  induction m as [|[k' v'] m IH]; simpl.
  - reflexivity.
  - destruct (ident_eqb k' k) eqn:E; simpl.
    + apply ident_eqb_eq in E. subst k'.
      now destruct (ident_eqb k x).
    + destruct (ident_eqb k' x) eqn:E'.
      * apply ident_eqb_eq in E'. subst k'.
        apply ident_eqb_neq in E.
        destruct (ident_eqb k x) eqn:E''; [|reflexivity].
        apply ident_eqb_eq in E''. congruence.
      * exact IH.
Qed.

Lemma self_keyed_set (v : item) (m : list (ident * item)) :
  Forall (fun kv => fst kv = id (snd kv)) m ->
  Forall (fun kv => fst kv = id (snd kv)) (set (id v) v m).
Proof.
  induction m as [|[k' v'] m IH]; simpl; intros H.
  - now constructor.
  - inversion H; subst. destruct (ident_eqb k' (id v)); constructor; auto.
Qed.

(** *** A run of [set] over a list of records *)

Lemma upsert_all_app (l1 l2 : list item) (m : list (ident * item)) :
  upsert_all (l1 ++ l2) m = upsert_all l2 (upsert_all l1 m).
Proof. apply fold_left_app. Qed.

Lemma upsert_all_keys (l : list item) :
  forall m x, In x (keys (upsert_all l m)) <-> In x (map id l) \/ In x (keys m).
Proof.
  induction l as [|it l IH]; intros m x; simpl.
  - tauto.
  - rewrite IH, in_keys_set. intuition congruence.
Qed.

Lemma upsert_all_nodup (l : list item) :
  forall m, NoDup (keys m) -> NoDup (keys (upsert_all l m)).
Proof.
  induction l as [|it l IH]; intros m H; simpl; [assumption|].
  apply IH. now apply nodup_set.
Qed.

Lemma upsert_all_self_keyed (l : list item) :
  forall m,
    Forall (fun kv => fst kv = id (snd kv)) m ->
    Forall (fun kv => fst kv = id (snd kv)) (upsert_all l m).
Proof.
  induction l as [|it l IH]; intros m H; simpl; [assumption|].
  apply IH. now apply self_keyed_set.
Qed.

Lemma find_last (p : item -> bool) (l : list item) (x : item) :
  find p (rev (x :: l))
  = match find p (rev l) with
    | Some y => Some y
    | None => if p x then Some x else None
    end.
Proof.
  simpl. induction (rev l) as [|y r IH]; simpl; [reflexivity|].
  destruct (p y); [reflexivity | exact IH].
Qed.

Lemma upsert_all_get (l : list item) :
  forall m x,
    get x (upsert_all l m)
    = match last_with x l with
      | Some it => Some it
      | None => get x m
      end.
Proof.
  unfold last_with. induction l as [|it l IH]; intros m x.
  - reflexivity.
  - cbn [upsert_all fold_left]. fold (upsert_all l (set (id it) it m)).
    rewrite IH, find_last, get_set.
    destruct (find _ (rev l)); [reflexivity|].
    destruct (ident_eqb (id it) x); reflexivity.
Qed.

Lemma upsertBatches_data (batches : list (list item)) :
  forall c, data (upsertBatches batches c) = upsert_all (concat batches) (data c).
Proof.
  induction batches as [|b batches IH]; intros c; simpl; [reflexivity|].
  unfold upsertBatches in *. simpl. rewrite IH. simpl.
  now rewrite upsert_all_app.
Qed.

Lemma in_values_get (m : list (ident * item)) (it : item) :
  Forall (fun kv => fst kv = id (snd kv)) m -> NoDup (keys m) ->
  (In it (map_values m) <-> get (id it) m = Some it).
Proof.
  unfold map_values.
  induction m as [|[k v] m IH]; simpl; intros HF HN.
  - split; [contradiction | discriminate].
  - inversion HF as [|? ? Hk HF']; subst. inversion HN as [|? ? Hnin HN']; subst.
    simpl in Hk. subst k.
    destruct (ident_eqb (id v) (id it)) eqn:E.
    + apply ident_eqb_eq in E. split.
      * intros [-> | Hin]; [reflexivity|].
        exfalso. apply Hnin. rewrite E.
        apply in_map_iff in Hin as ((k', v') & <- & Hin).
        rewrite Forall_forall in HF'. specialize (HF' _ Hin). simpl in *.
        rewrite <- HF'. apply in_map_iff. now exists (k', v').
      * intros H. inversion H. now left.
    + rewrite <- IH by assumption. split; [|now right].
      intros [-> | Hin]; [|assumption].
      rewrite ident_eqb_refl in E. discriminate.
Qed.

Lemma self_keyed_ids (m : list (ident * item)) :
  Forall (fun kv => fst kv = id (snd kv)) m ->
  map id (map_values m) = keys m /\ map entry (map_values m) = m.
Proof.
  unfold map_values, entry.
  induction m as [|[k v] m IH]; simpl; intros H; [now split|].
  inversion H; subst. simpl in *. destruct (IH H3) as (E1 & E2).
  rewrite E1, E2. subst k. now split.
Qed.

(** *** The invariant of [this.data] *)

Lemma keyed_new : keyed new.
Proof. split; constructor. Qed.

Lemma keyed_upsertBatch (items : list item) (c : t) :
  keyed c -> keyed (upsertBatch items c).
Proof.
  intros (HF & HN). split; simpl.
  - now apply upsert_all_self_keyed.
  - now apply upsert_all_nodup.
Qed.

Lemma keyed_upsertBatches (batches : list (list item)) :
  forall c, keyed c -> keyed (upsertBatches batches c).
Proof.
  induction batches as [|b batches IH]; intros c H; [assumption|].
  apply IH. now apply keyed_upsertBatch.
Qed.

Lemma map_of_entries_all (arr : list item) :
  map_of_entries ident_eqb (map entry arr) = upsert_all arr [].
Proof.
  unfold map_of_entries, upsert_all. generalize (@nil (ident * item)).
  induction arr as [|it arr IH]; intros m; simpl; [reflexivity|]. apply IH.
Qed.

Lemma keyed_loadMetadata (f : file) (c : t) :
  keyed c -> keyed (fst (loadMetadata f c)).
Proof.
  intros H. destruct f as [| |arr]; simpl; try assumption.
  split; simpl; rewrite map_of_entries_all.
  - apply upsert_all_self_keyed. constructor.
  - apply upsert_all_nodup. constructor.
Qed.

Lemma keyed_loadFiles (listing : list str) (c : t) :
  keyed c -> keyed (loadFiles listing c).
Proof. intros H. exact H. Qed.

(** C7.  After any sequence of [upsertBatch] calls on a new store, the
    store holds one entry per distinct id inserted, the entry of an id is
    the last record inserted with that id, and [getAll()] has as many
    elements as there are distinct ids among the records inserted. *)
Theorem upsert_last_write_wins (batches : list (list item)) :
  let c := upsertBatches batches new in
  let inserted := concat batches in
  NoDup (ids c) /\
  (forall i, In i (ids c) <-> In i (map id inserted)) /\
  (forall it, In it (getAll c) <-> last_with (id it) inserted = Some it) /\
  length (getAll c) = length (nodup ident_eq_dec (map id inserted)).
Proof.
  intros c inserted.
  destruct (keyed_upsertBatches batches keyed_new) as (HF & HN). fold c in HF, HN.
  destruct (self_keyed_ids HF) as (Eids & _).
  assert (D : data c = upsert_all inserted []) by apply upsertBatches_data.
  assert (K : forall i, In i (ids c) <-> In i (map id inserted)).
  { intros i. unfold ids, getAll. rewrite Eids, D, upsert_all_keys. simpl. tauto. }
  split; [|split; [|split]].
  - unfold ids, getAll. now rewrite Eids.
  - exact K.
  - intros it. unfold getAll. rewrite (in_values_get it HF HN), D, upsert_all_get.
    simpl. destruct (last_with (id it) inserted); split; congruence.
  - transitivity (length (ids c)); [unfold ids; now rewrite length_map|].
    apply Permutation_length. apply NoDup_Permutation.
    + unfold ids, getAll. now rewrite Eids.
    + apply NoDup_nodup.
    + intros i. rewrite K, nodup_In. tauto.
Qed.

Lemma upsert_last_write_wins_witness :
  In (sample 2 "a dog at night" "z")
     (getAll (upsertBatches [[sample 1 "a cat" "x"; sample 2 "a dog" "y"];
                             [sample 2 "a dog at night" "z"; sample 3 "" "w"]] new)) /\
  ~ In (sample 2 "a dog" "y")
       (getAll (upsertBatches [[sample 1 "a cat" "x"; sample 2 "a dog" "y"];
                               [sample 2 "a dog at night" "z"; sample 3 "" "w"]] new)).
Proof.
  destruct (upsert_last_write_wins
              [[sample 1 "a cat" "x"; sample 2 "a dog" "y"];
               [sample 2 "a dog at night" "z"; sample 3 "" "w"]])
    as (_ & _ & L & _).
  split.
  - apply L. reflexivity.
  - intros H. apply L in H. vm_compute in H. discriminate H.
Defined.

Lemma reload_data (m : list (ident * item)) :
  forall m0,
    NoDup (keys (m0 ++ m)) ->
    fold_left (fun acc e => set (fst e) (snd e) acc) m m0 = m0 ++ m.
Proof.
  induction m as [|[k v] m IH]; intros m0 H; simpl.
  - now rewrite app_nil_r.
  - assert (Hk : ~ In k (keys m0)).
    { rewrite map_app in H. simpl in H. apply NoDup_remove_2 in H.
      intros Hin. apply H. apply in_or_app. now left. }
    rewrite set_fresh by assumption.
    rewrite IH; rewrite <- app_assoc; [reflexivity | exact H].
Qed.

Lemma reachable_keyed (c : t) : reachable c -> keyed c.
Proof.
  induction 1.
  - exact keyed_new.
  - now apply keyed_loadMetadata.
  - now apply keyed_loadFiles.
  - now apply keyed_upsertBatch.
Qed.

Lemma reachable_upsertBatches (batches : list (list item)) :
  forall c, reachable c -> reachable (upsertBatches batches c).
Proof.
  induction batches as [|b batches IH]; intros c H; [assumption|].
  apply IH. now constructor.
Qed.

(** C8.  For every store the class can produce, a [save()] whose write
    goes through followed by a load into a new store gives the same
    records, hence the same ids, whatever other fields the records carry. *)
Theorem save_reload_roundtrip (c : t) (f : file) :
  reachable c ->
  getAll (reload (save true c f)) = getAll c /\
  ids (reload (save true c f)) = ids c.
Proof.
  intros R. destruct (reachable_keyed R) as (HF & HN).
  assert (E : data (reload (save true c f)) = data c).
  { unfold reload, save, loadMetadata, getAll. simpl.
    destruct (self_keyed_ids HF) as (_ & ->).
    unfold map_of_entries. now rewrite reload_data. }
  unfold ids, getAll. now rewrite E.
Qed.

Lemma save_reload_roundtrip_witness :
  let c := upsertBatches [[sample 1 "a cat" "x"; sample 2 "a dog" "y"];
                          [sample 2 "a dog at night" "z"; sample 3 "" "w"]] new in
  getAll (reload (save true c Unparsable)) = getAll c /\
  ids (reload (save true c Unparsable)) = [IdNum 1; IdNum 2; IdNum 3].
Proof.
  intros c.
  destruct (@save_reload_roundtrip c Unparsable) as (G & I).
  - apply reachable_upsertBatches. constructor.
  - split; [exact G | rewrite I; reflexivity].
Defined.

End MetadataCacheFacts.

(* ================================================================== *)
(** * Facts about [CivitDownloader] *)
(* ================================================================== *)

Module CivitDownloaderFacts.
Import Js JsFacts MetadataCache MetadataCacheFacts CivitDownloader Demo.

Section Invariant.
Variable cfg : config.
Variable filter : TagFilter.predicate.
Variable w : world.

Lemma inv_log (e : event) (s : state) :
  neutral e = true -> inv cfg s -> inv cfg (log e s).
Proof.
  intros N [L A B C D E F]. destruct e; try discriminate;
    constructor; simpl; auto.
Qed.

Lemma inv_save (s : state) : inv cfg s -> inv cfg (save w s).
Proof.
  intros [L A B C D E F]. unfold save. constructor; simpl; auto.
Qed.

Lemma below_limit (s : state) :
  isLimitReached cfg s = false ->
  (Z.of_nat (matches (stats s)) < limit cfg)%Z.
Proof. unfold isLimitReached. intros H. apply Z.leb_gt in H. exact H. Qed.

Lemma inv_fetch (u : str) (s : state) :
  isLimitReached cfg s = false -> inv cfg s -> inv cfg (log (EvFetch u) s).
Proof.
  intros H [L A B C D E F]. apply below_limit in H.
  constructor; simpl; auto. split; [|assumption]. now rewrite <- B.
Qed.

Lemma inv_no_match (it : item) (s : state) :
  isLimitReached cfg s = false -> inv cfg s -> inv cfg (updateScanStats it s).
Proof.
  intros H [L A B C D E F]. apply below_limit in H.
  constructor; simpl; auto.
  - split; [|assumption]. now rewrite <- B.
  - unfold count in *. simpl. now rewrite A.
Qed.

Lemma inv_skip (it : item) (s : state) :
  isLimitReached cfg s = false -> inv cfg s ->
  inv cfg (count_skip it (count_match it (updateScanStats it s))).
Proof.
  intros H [L A B C D E F]. apply below_limit in H.
  constructor; simpl.
  - split; [eexists; reflexivity|]. split; [eexists; reflexivity|].
    split; [rewrite <- B; exact H | exact L].
  - unfold count in *. simpl. now rewrite A.
  - unfold count in *. simpl. now rewrite B.
  - unfold count in *. simpl. exact C.
  - unfold count in *. simpl. now rewrite D.
  - lia.
  - right. lia.
Qed.

Lemma inv_submit (it : item) (s : state) :
  isLimitReached cfg s = false -> inv cfg s ->
  inv cfg (enqueueDownload it (count_match it (updateScanStats it s))).
Proof.
  intros H [L A B C D E F]. apply below_limit in H.
  constructor; simpl.
  - split; [eexists; reflexivity|]. split; [eexists; reflexivity|].
    split; [rewrite <- B; exact H | exact L].
  - unfold count in *. simpl. now rewrite A.
  - unfold count in *. simpl. now rewrite B.
  - unfold count in *. simpl. now rewrite C.
  - unfold count in *. simpl. exact D.
  - lia.
  - right. lia.
Qed.

Lemma inv_processBatch (its : list item) :
  forall s, inv cfg s -> inv cfg (state_of (processBatch cfg filter its s)).
Proof.
  induction its as [|it its IH]; intros s H; simpl; [assumption|].
  destruct (isLimitReached cfg s) eqn:L; [assumption|].
  destruct (TagFilter.test filter (prompt it)) as [[|]|].
  - destruct (hasFile _ _); apply IH; [now apply inv_skip | now apply inv_submit].
  - apply IH. now apply inv_no_match.
  - simpl. now apply inv_no_match.
Qed.

Lemma inv_online_loop (answers : list response) :
  forall u s out,
    inv cfg s -> online_loop cfg filter w answers u s = Some out -> inv cfg (state_of out).
Proof.
  induction answers as [|r answers IH]; intros u s out H E.
  - destruct u as [u|]; simpl in E.
    + destruct (negb (truthy u) || isLimitReached cfg s); [|discriminate].
      inversion E; subst. assumption.
    + inversion E; subst. assumption.
  - destruct u as [u|]; simpl in E; [|inversion E; subst; assumption].
    destruct (negb (truthy u)); simpl in E; [inversion E; subst; assumption|].
    destruct (isLimitReached cfg s) eqn:L; [inversion E; subst; assumption|].
    destruct r as [p|status]; simpl in E.
    + destruct (isUserEmpty (items p) (log (EvFetch u) s)).
      * inversion E; subst. simpl.
        apply inv_log; [reflexivity|]. now apply inv_fetch.
      * assert (I2 : inv cfg (state_of (processBatch cfg filter (items p)
                                      (upsert (items p) (log (EvFetch u) s))))).
        { apply inv_processBatch. unfold upsert.
          apply inv_log; [reflexivity|].
          apply inv_fetch with (u := u) in H; [|assumption].
          destruct H. constructor; assumption. }
        destruct (processBatch cfg filter (items p) (upsert (items p) (log (EvFetch u) s)))
          as [s2|s2]; simpl in I2.
        -- eapply IH; [|exact E]. now apply inv_save.
        -- inversion E; subst. assumption.
    + inversion E; subst. simpl. apply inv_save.
      apply inv_log; [reflexivity|]. now apply inv_fetch.
Qed.

End Invariant.

Lemma within_limit_split (lim : Z) (t : list event) :
  within_limit lim t ->
  forall later e earlier, t = later ++ e :: earlier -> allowed lim e earlier.
Proof.
  intros H later. revert t H.
  induction later as [|x later IH]; intros t H e earlier ->; simpl in H.
  - apply H.
  - eapply IH; [apply H | reflexivity].
Qed.

Lemma inv_initial (cfg : config) (w : world) : inv cfg (initial w).
Proof. constructor; simpl; auto. Qed.

Lemma inv_initialize (cfg : config) (w : world) (s s0 : state) :
  inv cfg s -> initialize cfg w s = Some s0 -> inv cfg s0.
Proof.
  intros [L A B C D E F] H. unfold initialize in H.
  destruct (loadMetadata (disk s) (cache s)) as [c1 warned].
  destruct (offline cfg && isEmpty (loadFiles (listing w) c1)); [discriminate|].
  inversion H; subst. destruct warned; constructor; simpl; auto.
Qed.

Lemma inv_finalize (cfg : config) (w : world) (s : state) :
  inv cfg s -> inv cfg (finalize w s).
Proof.
  intros H. unfold finalize.
  apply inv_log; [reflexivity|]. apply inv_save. now apply inv_log.
Qed.

Lemma inv_run (cfg : config) (filter : TagFilter.predicate) (w : world)
    (answers : list response) (e : ending) (s : state) :
  run cfg filter w answers = Some e -> final e = Some s -> inv cfg s.
Proof.
  unfold run. intros R F.
  destruct (initialize cfg w (initial w)) as [s0|] eqn:I.
  - assert (H0 : inv cfg s0)
      by (eapply inv_initialize; [apply inv_initial | exact I]).
    destruct (offline cfg).
    + pose proof (@inv_processBatch cfg filter (getAll (cache s0)) s0 H0) as H1.
      unfold runOfflineStrategy in R.
      destruct (processBatch cfg filter (getAll (cache s0)) s0) as [s1|s1];
        inversion R; subst; inversion F; subst; simpl in H1.
      * now apply inv_finalize.
      * apply inv_log; [reflexivity|]. now apply inv_save.
    + unfold runOnlineStrategy in R.
      destruct (online_loop cfg filter w answers (Some (first_url cfg)) s0)
        as [[s1|s1]|] eqn:O; [| |discriminate];
        pose proof (@inv_online_loop cfg filter w answers _ _ _ H0 O) as H1;
        inversion R; subst; inversion F; subst; simpl in H1.
      * now apply inv_finalize.
      * apply inv_log; [reflexivity|]. now apply inv_save.
  - inversion R; subst. discriminate.
Qed.

(** *** The scan ends *)

Lemma online_loop_ends (cfg : config) (filter : TagFilter.predicate) (w : world)
    (status : option nat) (answers : list response) :
  forall u s, online_loop cfg filter w (answers ++ [Failed status]) u s <> None.
Proof.
  induction answers as [|r answers IH]; intros u s; simpl.
  - destruct u as [u|]; [|discriminate].
    destruct (negb (truthy u) || isLimitReached cfg s); discriminate.
  - destruct u as [u|]; [|discriminate].
    destruct (negb (truthy u) || isLimitReached cfg s); [discriminate|].
    destruct r as [p|st]; simpl; [|discriminate].
    destruct (isUserEmpty _ _); [discriminate|].
    destruct (processBatch _ _ _ _); [apply IH | discriminate].
Qed.

Lemma run_ends (cfg : config) (filter : TagFilter.predicate) (w : world)
    (status : option nat) (answers : list response) :
  run cfg filter w (answers ++ [Failed status]) <> None.
Proof.
  unfold run. destruct (initialize cfg w (initial w)) as [s0|]; [|discriminate].
  destruct (offline cfg).
  - destruct (runOfflineStrategy cfg filter s0); discriminate.
  - unfold runOnlineStrategy.
    pose proof (online_loop_ends cfg filter w status answers
                  (Some (first_url cfg)) s0) as H.
    destruct (online_loop _ _ _ _ _ _) as [[|]|]; [discriminate | discriminate | contradiction].
Qed.

(** *** Once the limit is reached *)

Lemma processBatch_at_limit (cfg : config) (filter : TagFilter.predicate)
    (its : list item) (s : state) :
  isLimitReached cfg s = true -> processBatch cfg filter its s = Returned s.
Proof. intros H. destruct its; simpl; [reflexivity | now rewrite H]. Qed.

Lemma online_loop_at_limit (cfg : config) (filter : TagFilter.predicate) (w : world)
    (answers : list response) (u : option str) (s : state) :
  isLimitReached cfg s = true ->
  online_loop cfg filter w answers u s = Some (Returned s).
Proof.
  intros H. destruct answers, u as [u|]; simpl; try reflexivity;
    rewrite H, orb_true_r; reflexivity.
Qed.

(** C2.  At the end of every run the downloads and the skips add up to the
    matches, the counters are the numbers of events of the run, and the
    matches do not exceed the limit (or there is none).  Every page was
    fetched and every record was scanned while the matches were below the
    limit, and every download was submitted and every skip was counted for
    the record just matched.  Once the limit is reached [processBatch] and
    the paging loop return at once.  A run ends as soon as the server
    refuses a page, so every course of a scan is a prefix of a run that
    ends. *)
Theorem match_limit_is_a_ceiling :
  (forall cfg filter w answers e s,
      run cfg filter w answers = Some e -> final e = Some s ->
      downloaded (stats s) + skipped (stats s) = matches (stats s) /\
      (matches (stats s) = 0 \/ (Z.of_nat (matches (stats s)) <= limit cfg)%Z) /\
      scanned (stats s) = count is_scan (trace s) /\
      matches (stats s) = count is_match (trace s) /\
      downloaded (stats s) = count is_submit (trace s) /\
      skipped (stats s) = count is_skip (trace s) /\
      (forall later ev earlier,
          trace s = later ++ ev :: earlier -> allowed (limit cfg) ev earlier)) /\
  (forall cfg filter its s,
      isLimitReached cfg s = true -> processBatch cfg filter its s = Returned s) /\
  (forall cfg filter w answers u s,
      isLimitReached cfg s = true ->
      online_loop cfg filter w answers u s = Some (Returned s)) /\
  (forall cfg filter w answers status,
      run cfg filter w (answers ++ [Failed status]) <> None).
Proof.
  split; [|split; [|split]].
  - intros cfg filter w answers e s R F.
    destruct (@inv_run cfg filter w answers e s R F) as [L A B C D E G].
    repeat split; try assumption.
    now apply within_limit_split.
  - exact processBatch_at_limit.
  - exact online_loop_at_limit.
  - intros cfg filter w answers status. apply run_ends.
Qed.

(** *** What [processBatch] does to the state *)

Lemma scans_app (t1 t2 : list event) : scans (t1 ++ t2) = scans t1 ++ scans t2.
Proof. unfold scans. apply flat_map_app. Qed.

Lemma processBatch_trace (cfg : config) (filter : TagFilter.predicate) (its : list item) :
  forall s,
  exists evs done rest,
    its = done ++ rest /\
    trace (state_of (processBatch cfg filter its s)) = evs ++ trace s /\
    forallb per_item evs = true /\
    scans (rev evs) = done /\
    cache (state_of (processBatch cfg filter its s)) = cache s /\
    disk (state_of (processBatch cfg filter its s)) = disk s /\
    (forall s', processBatch cfg filter its s = Returned s' ->
                rest = [] \/ isLimitReached cfg s' = true).
Proof.
  induction its as [|it its IH]; intros s.
  - exists [], [], []. simpl. repeat split. intros s' _. now left.
  - simpl. destruct (isLimitReached cfg s) eqn:L.
    + exists [], [], (it :: its). simpl. repeat split.
      intros s' E. inversion E; subst. now right.
    + assert (step : forall s1 evs1,
                trace s1 = evs1 ++ trace s -> forallb per_item evs1 = true ->
                scans (rev evs1) = [it] -> cache s1 = cache s -> disk s1 = disk s ->
                exists evs done rest,
                  it :: its = done ++ rest /\
                  trace (state_of (processBatch cfg filter its s1)) = evs ++ trace s /\
                  forallb per_item evs = true /\
                  scans (rev evs) = done /\
                  cache (state_of (processBatch cfg filter its s1)) = cache s /\
                  disk (state_of (processBatch cfg filter its s1)) = disk s /\
                  (forall s', processBatch cfg filter its s1 = Returned s' ->
                              rest = [] \/ isLimitReached cfg s' = true)).
      { intros s1 evs1 T P S C D.
        destruct (IH s1) as (evs & done & rest & -> & T' & P' & S' & C' & D' & R').
        exists (evs ++ evs1), (it :: done), rest.
        split; [reflexivity|]. split; [now rewrite T', T, app_assoc|].
        split; [rewrite forallb_app; now rewrite P', P|].
        split; [now rewrite rev_app_distr, scans_app, S, S'|].
        split; [congruence|]. split; [congruence | exact R']. }
      destruct (TagFilter.test filter (prompt it)) as [[|]|].
      * destruct (hasFile (id it) _).
        -- apply (step _ [EvSkip it; EvMatch it; EvScan it]); reflexivity.
        -- apply (step _ [EvSubmit it; EvMatch it; EvScan it]); reflexivity.
      * apply (step _ [EvScan it]); reflexivity.
      * exists [EvScan it], [it], its. simpl. repeat split. intros s' E. discriminate.
Qed.

(** *** A scan of two pages with a limit of two matches *)

Lemma demo_run :
  run demo_cfg demo_filter demo_world demo_answers = Some (Completed demo_end).
Proof. vm_compute. reflexivity. Qed.

Lemma demo_history :
  history demo_end
  = [EvFetch (first_url demo_cfg);
     EvUpsert (items page1);
     EvScan (picture 1 "a cat"); EvMatch (picture 1 "a cat");
     EvSubmit (picture 1 "a cat");
     EvScan (picture 2 "a dog"); EvScan (picture 3 "a bird");
     EvSave (items page1) true;
     EvFetch ("https://civitai.com/api/v1/images?cursor=2"%string : str);
     EvUpsert (items page2);
     EvScan (picture 4 "two cats"); EvMatch (picture 4 "two cats");
     EvSubmit (picture 4 "two cats");
     EvSave (items page1 ++ items page2) true;
     EvDrain;
     EvSave (items page1 ++ items page2) true;
     EvSummary (MkStats 4 2 2 0)].
Proof. vm_compute. reflexivity. Qed.

Lemma match_limit_is_a_ceiling_witness :
  stats demo_end = MkStats 4 2 2 0 /\
  downloaded (stats demo_end) + skipped (stats demo_end) = matches (stats demo_end) /\
  allowed (limit demo_cfg) (EvSubmit (picture 4 "two cats"))
          (skipn 5 (trace demo_end)).
Proof.
  destruct match_limit_is_a_ceiling as (H & _).
  destruct (H demo_cfg demo_filter demo_world demo_answers (Completed demo_end)
              demo_end demo_run eq_refl) as (B & _ & _ & _ & _ & _ & A).
  split; [vm_compute; reflexivity|]. split; [exact B|].
  apply (A (firstn 4 (trace demo_end))). vm_compute. reflexivity.
Defined.

(** *** One turn of the paging loop *)

(** C5, as amended.  For a page with records, fetched below the limit, the
    loop upserts the page into the store, then runs the per-item logic on
    the records of the page in order, up to all of them or until the limit
    is reached or the filter throws, and only then, unless the filter
    threw, saves the store: the array saved is the store after the upsert. *)
Theorem page_is_upserted_processed_saved :
  forall cfg filter w u p answers s,
    truthy u = true -> isLimitReached cfg s = false -> items p <> [] ->
    let out := processBatch cfg filter (items p) (upsert (items p) (log (EvFetch u) s)) in
    let s2 := state_of out in
    exists evs done rest,
      items p = done ++ rest /\
      trace s2 = evs ++ EvUpsert (items p) :: EvFetch u :: trace s /\
      forallb per_item evs = true /\
      scans (rev evs) = done /\
      cache s2 = upsertBatch (items p) (cache s) /\
      match out with
      | Returned _ =>
          (rest = [] \/ isLimitReached cfg s2 = true) /\
          trace (save w s2)
            = EvSave (getAll (upsertBatch (items p) (cache s)))
                     (write_ok w (length (trace s2))) :: trace s2 /\
          online_loop cfg filter w (Data p :: answers) (Some u) s
            = online_loop cfg filter w answers
                (if isLimitReached cfg (save w s2) then None else nextPage p)
                (save w s2)
      | Threw _ =>
          online_loop cfg filter w (Data p :: answers) (Some u) s = Some (Threw s2)
      end.
Proof.
  intros cfg filter w u p answers s Hu Hl Hp out s2.
  destruct (processBatch_trace cfg filter (items p) (upsert (items p) (log (EvFetch u) s)))
    as (evs & done & rest & E & T & P & S & C & _ & R).
  fold out in T, C, R. fold s2 in T, C.
  exists evs, done, rest.
  split; [exact E|]. split; [exact T|]. split; [exact P|]. split; [exact S|].
  split; [exact C|].
  assert (Hempty : isUserEmpty (items p) (log (EvFetch u) s) = false).
  { unfold isUserEmpty. destruct (items p); [contradiction|]. simpl.
    apply andb_false_r. }
  assert (L : online_loop cfg filter w (Data p :: answers) (Some u) s
              = match out with
                | Returned s2 =>
                    online_loop cfg filter w answers
                      (if isLimitReached cfg (save w s2) then None else nextPage p)
                      (save w s2)
                | Threw s2 => Some (Threw s2)
                end).
  { cbn [online_loop]. rewrite Hu, Hl. cbn [negb orb fetchPage].
    rewrite Hempty. reflexivity. }
  subst s2. destruct out as [s2|s2] eqn:O; simpl in *.
  - split; [now apply R|]. split; [|exact L].
    unfold save. simpl. now rewrite C.
  - exact L.
Qed.

Lemma page_is_upserted_processed_saved_witness :
  exists evs,
    trace (state_of (processBatch demo_cfg demo_filter (items page1)
                       (upsert (items page1)
                          (log (EvFetch (first_url demo_cfg)) (initial demo_world)))))
    = evs ++ [EvUpsert (items page1); EvFetch (first_url demo_cfg)] /\
    scans (rev evs) = items page1.
Proof.
  destruct (@page_is_upserted_processed_saved demo_cfg demo_filter demo_world
              (first_url demo_cfg) page1 [Data page2; Data page3] (initial demo_world))
    as (evs & done & rest & E & T & _ & S & _ & R & _).
  - reflexivity.
  - reflexivity.
  - discriminate.
  - exists evs. split; [exact T|].
    rewrite S. destruct R as [-> | R]; [now rewrite app_nil_r in E | discriminate R].
Defined.

(** C5, as stated, fails on the scan of two pages: after the first upsert
    the records are scanned and a download is submitted before the store is
    saved. *)
Lemma records_processed_before_save :
  run demo_cfg demo_filter demo_world demo_answers = Some (Completed demo_end) /\
  ~ persisted_before_processing (history demo_end).
Proof.
  split; [exact demo_run|].
  intros H. rewrite demo_history in H.
  destruct (H [EvFetch (first_url demo_cfg)] (items page1) _ eq_refl)
    as (arr & ok & after' & E); [discriminate | discriminate E].
Qed.

(** *** A page fetch that fails *)

Lemma per_item_no_error (evs : list event) :
  forallb per_item evs = true -> no_error evs.
Proof.
  unfold no_error. induction evs as [|e evs IH]; simpl; [reflexivity|].
  intros H. apply andb_true_iff in H as (He & H).
  rewrite IH by assumption. destruct e; try discriminate; reflexivity.
Qed.

Lemma no_error_app (t1 t2 : list event) :
  no_error t1 -> no_error t2 -> no_error (t1 ++ t2).
Proof. unfold no_error. intros H1 H2. now rewrite forallb_app, H1, H2. Qed.

Lemma no_error_rev (t : list event) : no_error t -> no_error (rev t).
Proof.
  unfold no_error. rewrite !forallb_forall. intros H e Hin.
  apply H. now apply in_rev.
Qed.

Lemma no_error_in (t : list event) (c : error_class) :
  no_error t -> ~ In (EvFetchError c) t.
Proof.
  unfold no_error. intros H Hin. rewrite forallb_forall in H.
  now specialize (H _ Hin).
Qed.

Lemma processBatch_no_error (cfg : config) (filter : TagFilter.predicate)
    (its : list item) (s : state) :
  no_error (trace s) ->
  no_error (trace (state_of (processBatch cfg filter its s))) /\
  cache (state_of (processBatch cfg filter its s)) = cache s.
Proof.
  intros H.
  destruct (processBatch_trace cfg filter its s)
    as (evs & done & rest & _ & T & P & _ & C & _).
  split; [|exact C]. rewrite T. apply no_error_app; [|assumption].
  now apply per_item_no_error.
Qed.

Lemma online_loop_failure (cfg : config) (filter : TagFilter.predicate) (w : world)
    (answers : list response) :
  forall u s out,
    no_error (trace s) ->
    online_loop cfg filter w answers u s = Some out ->
    no_error (trace (state_of out)) \/
    exists u' status s0,
      out = Returned (failed_at w u' status s0) /\ no_error (trace s0).
Proof.
  induction answers as [|r answers IH]; intros u s out H E.
  - left. destruct u as [u|]; simpl in E.
    + destruct (negb (truthy u) || isLimitReached cfg s); [|discriminate].
      inversion E; subst. assumption.
    + inversion E; subst. assumption.
  - destruct u as [u|]; simpl in E; [|left; inversion E; subst; assumption].
    destruct (negb (truthy u) || isLimitReached cfg s);
      [left; inversion E; subst; assumption|].
    destruct r as [p|status]; simpl in E.
    + destruct (isUserEmpty (items p) (log (EvFetch u) s)).
      * left. inversion E; subst. exact H.
      * destruct (@processBatch_no_error cfg filter (items p)
                    (upsert (items p) (log (EvFetch u) s)) H) as (N & _).
        destruct (processBatch cfg filter (items p) (upsert (items p) (log (EvFetch u) s)))
          as [s2|s2]; simpl in N.
        -- eapply IH; [|exact E]. exact N.
        -- left. inversion E; subst. exact N.
    + right. inversion E; subst. exists u, status, s. now split.
Qed.

Lemma finalize_failed (w : world) (u : str) (status : option nat) (s : state) :
  let s' := finalize w (failed_at w u status s) in
  exists ok1 ok2,
    history s'
    = rev (trace s) ++ [EvFetch u; EvFetchError (classify status);
                        EvSave (getAll (cache s)) ok1; EvDrain;
                        EvSave (getAll (cache s)) ok2; EvSummary (stats s)] /\
    cache s' = cache s /\ stats s' = stats s /\
    (ok1 = true \/ ok2 = true -> disk s' = Records (getAll (cache s))).
Proof.
  exists (write_ok w (S (S (length (trace s))))),
         (write_ok w (S (S (S (S (length (trace s))))))).
  split; [|split; [reflexivity|split; [reflexivity|]]].
  - unfold history. cbn [finalize failed_at save log trace cache stats rev length].
    rewrite <- !app_assoc. reflexivity.
  - cbn [finalize failed_at save log trace cache stats disk length].
    unfold MetadataCache.save.
    intros [-> | ->]; [|reflexivity].
    now destruct (write_ok w (S (S (S (S (length (trace s))))))).
Qed.

(** C6, as amended.  When a page fetch fails, [fetchPage] prints the
    message of the class of the failure and saves the store, and the loop
    stops without another request.  The run then goes through [finalize]
    as after a scan without failure: it ends completed, not in the catch
    block of [run], and the last events of the run are the failed request,
    its message, the save of [fetchPage], the wait for the queue, the save
    of [finalize] and the summary.  Both saves write the store as it is at
    the end of the run, which is on disk if one of the writes went
    through. *)
Theorem fetch_failure_completes :
  (forall cfg filter w status answers u s,
      truthy u = true -> isLimitReached cfg s = false ->
      online_loop cfg filter w (Failed status :: answers) (Some u) s
      = Some (Returned (failed_at w u status s))) /\
  (forall cfg filter w answers e s c,
      run cfg filter w answers = Some e -> final e = Some s ->
      In (EvFetchError c) (trace s) ->
      e = Completed s /\
      exists u before ok1 ok2,
        history s
        = before ++ [EvFetch u; EvFetchError c;
                     EvSave (getAll (cache s)) ok1; EvDrain;
                     EvSave (getAll (cache s)) ok2; EvSummary (stats s)] /\
        no_error before /\
        (ok1 = true \/ ok2 = true -> disk s = Records (getAll (cache s)))) /\
  (classify (Some 404) = NotFound /\ classify (Some 401) = Unauthorized /\
   classify (Some 403) = Unauthorized /\ classify (Some 500) = ApiError /\
   classify None = ApiError).
Proof.
  split; [|split].
  - intros cfg filter w status answers u s Hu Hl.
    cbn [online_loop]. rewrite Hu, Hl. reflexivity.
  - intros cfg filter w answers e s c R F Hin. unfold run in R.
    destruct (initialize cfg w (initial w)) as [s0|] eqn:I;
      [|inversion R; subst; discriminate].
    assert (N0 : no_error (trace s0)).
    { unfold initialize in I.
      destruct (loadMetadata (disk (initial w)) (cache (initial w))) as [c1 warned].
      destruct (offline cfg && isEmpty (loadFiles (listing w) c1)); [discriminate|].
      inversion I; subst. destruct warned; reflexivity. }
    assert (Quiet : forall s1,
              no_error (trace s1) ->
              (e = Completed (finalize w s1) \/ e = Aborted (log EvFatal (save w s1))) ->
              False).
    { intros s1 N [-> | ->]; inversion F; subst; simpl in Hin;
        repeat (destruct Hin as [Hin | Hin]; [discriminate|]);
        exact (no_error_in c N Hin). }
    destruct (offline cfg).
    + exfalso. unfold runOfflineStrategy in R.
      destruct (@processBatch_no_error cfg filter (getAll (cache s0)) s0 N0) as (N & _).
      destruct (processBatch cfg filter (getAll (cache s0)) s0) as [s1|s1];
        inversion R; subst; simpl in N; eapply Quiet; eauto.
    + unfold runOnlineStrategy in R.
      destruct (online_loop cfg filter w answers (Some (first_url cfg)) s0)
        as [out|] eqn:O; [|discriminate].
      destruct (@online_loop_failure cfg filter w answers _ s0 out N0 O)
        as [N | (u' & status & s1 & -> & N)].
      * exfalso. destruct out as [s1|s1]; inversion R; subst; simpl in N;
          eapply Quiet; eauto.
      * inversion R; subst e. inversion F; subst s. clear R F.
        split; [reflexivity|].
        simpl in Hin.
        destruct Hin as [Hin | [Hin | [Hin | [Hin | [Hin | [Hin | Hin]]]]]];
          try discriminate; [|exfalso; exact (no_error_in c N Hin)].
        inversion Hin; subst c.
        destruct (finalize_failed w u' status s1) as (ok1 & ok2 & Hh & Hc & Hs & Hd).
        rewrite Hc, Hs.
        exists u', (rev (trace s1)), ok1, ok2.
        split; [exact Hh|]. split; [now apply no_error_rev | exact Hd].
  - repeat split.
Qed.

Lemma fetch_failure_completes_witness :
  exists s,
    refused = Completed s /\
    skipn 8 (history s)
    = [EvFetch ("https://civitai.com/api/v1/images?cursor=2"%string : str);
       EvFetchError NotFound;
       EvSave (items page1) true; EvDrain; EvSave (items page1) true;
       EvSummary (MkStats 3 1 1 0)].
Proof.
  destruct fetch_failure_completes as (_ & H & _).
  destruct (final refused) as [s|] eqn:F; [|discriminate F].
  exists s.
  destruct (H demo_cfg demo_filter demo_world [Data page1; Failed (Some 404)]
              refused s NotFound) as (E & _).
  - vm_compute. reflexivity.
  - exact F.
  - vm_compute in F. inversion F; subst s. vm_compute. tauto.
  - split; [exact E|]. vm_compute in F. inversion F; subst s. vm_compute. reflexivity.
Defined.

(** C6, as stated, fails when the first request is refused with status
    404: the run ends completed, through [finalize] and its summary, and
    not in the catch block of [run]. *)
Lemma refused_run_completes :
  exists s,
    run demo_cfg demo_filter demo_world [Failed (Some 404)] = Some (Completed s) /\
    history s
    = [EvFetch (first_url demo_cfg); EvFetchError NotFound;
       EvSave [] true; EvDrain; EvSave [] true; EvSummary (MkStats 0 0 0 0)] /\
    ~ In EvFatal (history s) /\
    forall s', run demo_cfg demo_filter demo_world [Failed (Some 404)]
               <> Some (Aborted s').
Proof.
  eexists. split; [vm_compute; reflexivity|].
  split; [vm_compute; reflexivity|]. split.
  - vm_compute. intuition discriminate.
  - intros s' H. vm_compute in H. discriminate H.
Qed.

End CivitDownloaderFacts.

(* ================================================================== *)
(** * Facts about the helpers of a download *)
(* ================================================================== *)

Module UtilsFacts.
Import Js JsFacts MetadataCache Utils.

Lemma after_prefix_app (p s : str) : after_prefix p (p ++ s) = Some s.
Proof. induction p as [|a p IH]; simpl; [reflexivity|]. now rewrite Ascii.eqb_refl. Qed.

Lemma after_prefix_some (p s r : str) : after_prefix p s = Some r -> s = p ++ r.
Proof.
  revert s. induction p as [|a p IH]; intros s; simpl.
  - intros E. now inversion E.
  - destruct s as [|c s]; [discriminate|].
    destruct (Ascii.eqb a c) eqn:E; [|discriminate].
    apply Ascii.eqb_eq in E. subst c. intros H. now rewrite (IH _ H).
Qed.

Lemma endsWith_spec (s suffix : str) :
  endsWith s suffix = true <-> exists z, s = z ++ suffix.
Proof.
  unfold endsWith. split.
  - destruct (after_prefix (rev suffix) (rev s)) as [r|] eqn:E; [|discriminate].
    intros _. apply after_prefix_some in E. exists (rev r).
    apply (f_equal (@rev ascii)) in E.
    now rewrite rev_involutive, rev_app_distr, rev_involutive in E.
  - intros (z & ->). now rewrite rev_app_distr, after_prefix_app.
Qed.

(** *** The rewrite of the width *)

Lemma digit_char (c : ascii) :
  is_digit c = true ->
  Ascii.eqb "w" c = false /\ Ascii.eqb "i" c = false /\ Ascii.eqb "d" c = false /\
  Ascii.eqb "t" c = false /\ Ascii.eqb "h" c = false /\ Ascii.eqb "=" c = false /\
  Ascii.eqb "g" c = false /\ Ascii.eqb "n" c = false /\ Ascii.eqb "p" c = false /\
  Ascii.eqb "." c = false /\ Ascii.eqb "b" c = false /\ Ascii.eqb "e" c = false.
Proof.
  destruct c as [[] [] [] [] [] [] [] []]; vm_compute; intuition congruence.
Qed.

Lemma skip_digits_app (ds post : str) :
  forallb is_digit ds = true -> skip_digits (ds ++ post) = skip_digits post.
Proof.
  induction ds as [|d ds IH]; simpl; [reflexivity|].
  intros H. apply andb_true_iff in H as (Hd & Hds). now rewrite Hd, IH.
Qed.

Lemma skip_digits_split (s : str) :
  exists ds, s = ds ++ skip_digits s /\ forallb is_digit ds = true.
Proof.
  induction s as [|c s (ds & E & D)]; [now exists []|].
  simpl. destruct (is_digit c) eqn:Hc.
  - exists (c :: ds). simpl. rewrite Hc, D. split; [now rewrite <- E | reflexivity].
  - now exists [].
Qed.

Lemma replace_width_none (s : str) : has_width s = false -> replace_width s = s.
Proof.
  induction s as [|c s IH]; [reflexivity|].
  cbn [has_width replace_width].
  destruct (width_at (c :: s)); [discriminate|]. intros H. now rewrite IH.
Qed.

(** A match cannot start before a [w] and end after it. *)
Lemma width_at_straddle (p x : str) :
  p <> [] -> width_at p = None -> width_at (p ++ "w"%char :: x) = None.
Proof.
  unfold width_at. intros Hp.
  destruct p as [|c1 p]; [contradiction|]. clear Hp.
  cbn [after_prefix list_ascii_of_string app].
  destruct (Ascii.eqb "w" c1); [|reflexivity].
  destruct p as [|c2 p]; [reflexivity|]. cbn [app]. destruct (Ascii.eqb "i" c2); [|reflexivity].
  destruct p as [|c3 p]; [reflexivity|]. cbn [app]. destruct (Ascii.eqb "d" c3); [|reflexivity].
  destruct p as [|c4 p]; [reflexivity|]. cbn [app]. destruct (Ascii.eqb "t" c4); [|reflexivity].
  destruct p as [|c5 p]; [reflexivity|]. cbn [app]. destruct (Ascii.eqb "h" c5); [|reflexivity].
  destruct p as [|c6 p]; [reflexivity|]. cbn [app]. destruct (Ascii.eqb "=" c6); [|reflexivity].
  destruct p as [|c7 p]; [reflexivity|]. cbn [app].
  destruct (is_digit c7); [discriminate | reflexivity].
Qed.

Lemma replace_width_first (pre ds post : str) (d : ascii) :
  has_width pre = false ->
  forallb is_digit (d :: ds) = true -> skip_digits post = post ->
  replace_width (pre ++ "width="%string ++ d :: ds ++ post)
  = pre ++ "original=true"%string ++ post.
Proof.
  intros Hpre Hds Hpost. simpl in Hds. apply andb_true_iff in Hds as (Hd & Hds).
  induction pre as [|c pre IH].
  - cbn [app list_ascii_of_string]. unfold replace_width, width_at.
    cbn [after_prefix list_ascii_of_string]. rewrite !Ascii.eqb_refl, Hd.
    now rewrite skip_digits_app, Hpost.
  - cbn [has_width] in Hpre.
    destruct (width_at (c :: pre)) eqn:W; [discriminate|].
    change ((c :: pre) ++ "width="%string ++ d :: ds ++ post)
      with (c :: (pre ++ "width="%string ++ d :: ds ++ post)).
    cbn [replace_width].
    change (c :: (pre ++ "width="%string ++ d :: ds ++ post))
      with ((c :: pre) ++ "w"%char :: ("idth="%string ++ d :: ds ++ post)).
    rewrite width_at_straddle by (discriminate || assumption).
    cbn [app]. f_equal.
    change (pre ++ "w"%char :: ("idth="%string ++ d :: ds ++ post))
      with (pre ++ "width="%string ++ d :: ds ++ post).
    now apply IH.
Qed.

(** *** The extension after the rewrite *)

Lemma endsWith_cons (c : ascii) (x e : str) :
  length e <= length x -> endsWith (c :: x) e = endsWith x e.
Proof.
  intros L. apply eq_true_iff_eq. rewrite !endsWith_spec. split.
  - intros ([|a z] & E).
    + simpl in E. subst e. simpl in L. lia.
    + inversion E; subst. now exists z.
  - intros (z & ->). now exists (c :: z).
Qed.

Lemma suffix_after_digit (P R t1 t2 : str) (dg : ascii) :
  P = rev (".png"%string : str) \/ P = rev (".webp"%string : str) ->
  is_digit dg = true ->
  match after_prefix P (R ++ "e"%char :: "u"%char :: t1) with
  | Some _ => true | None => false end
  = match after_prefix P (R ++ dg :: t2) with
    | Some _ => true | None => false end.
Proof.
  intros HP Hd.
  destruct (digit_char dg Hd) as (Hw & _ & _ & _ & _ & _ & Hg & Hn & Hp & Hdot & Hb & He).
  destruct HP as [-> | ->]; cbn [rev app list_ascii_of_string].
  - destruct R as [|r1 R]; cbn [app after_prefix]; [now rewrite Hg|].
    destruct (Ascii.eqb "g" r1); [|reflexivity].
    destruct R as [|r2 R]; cbn [app after_prefix]; [now rewrite Hn|].
    destruct (Ascii.eqb "n" r2); [|reflexivity].
    destruct R as [|r3 R]; cbn [app after_prefix]; [now rewrite Hp|].
    destruct (Ascii.eqb "p" r3); [|reflexivity].
    destruct R as [|r4 R]; cbn [app after_prefix]; [now rewrite Hdot|].
    destruct (Ascii.eqb "." r4); reflexivity.
  - destruct R as [|r1 R]; cbn [app after_prefix]; [now rewrite Hp|].
    destruct (Ascii.eqb "p" r1); [|reflexivity].
    destruct R as [|r2 R]; cbn [app after_prefix]; [now rewrite Hb|].
    destruct (Ascii.eqb "b" r2); [|reflexivity].
    destruct R as [|r3 R]; cbn [app after_prefix]; [now rewrite He|].
    destruct (Ascii.eqb "e" r3); [|reflexivity].
    destruct R as [|r4 R]; cbn [app after_prefix]; [now rewrite Hw|].
    destruct (Ascii.eqb "w" r4); [|reflexivity].
    destruct R as [|r5 R]; cbn [app after_prefix]; [now rewrite Hdot|].
    destruct (Ascii.eqb "." r5); reflexivity.
Qed.

Lemma has_width_length (s : str) :
  has_width s = true -> 7 <= length s /\ 7 <= length (replace_width s).
Proof.
  induction s as [|c s IH]; [discriminate|].
  cbn [has_width replace_width].
  destruct (width_at (c :: s)) as [rest|] eqn:W.
  - intros _. unfold width_at in W.
    destruct (after_prefix "width="%string (c :: s)) as [[|d r]|] eqn:A; try discriminate.
    apply after_prefix_some in A. rewrite A, !length_app. simpl. lia.
  - intros H. destruct (IH H). simpl. lia.
Qed.

Lemma endsWith_replace_width (s e : str) :
  e = (".png"%string : str) \/ e = (".webp"%string : str) ->
  endsWith (replace_width s) e = endsWith s e.
Proof.
  intros He.
  assert (Le : length e <= 5) by (destruct He as [-> | ->]; simpl; lia).
  destruct (has_width s) eqn:H; [|now rewrite replace_width_none].
  induction s as [|c s IH]; [discriminate|].
  cbn [has_width] in H. cbn [replace_width].
  destruct (width_at (c :: s)) as [rest|] eqn:W.
  - clear IH H. unfold width_at in W.
    destruct (after_prefix "width="%string (c :: s)) as [[|d r]|] eqn:A; try discriminate.
    destruct (is_digit d) eqn:Hd; [|discriminate]. inversion W; subst rest. clear W.
    apply after_prefix_some in A. rewrite A.
    destruct (skip_digits_split r) as (ds & E & D).
    rewrite E at 2. set (post := skip_digits r).
    unfold endsWith.
    replace (rev ("original=true"%string ++ post))
      with (rev post ++ "e"%char :: "u"%char :: ("rt=lanigiro"%string : str))
      by (rewrite rev_app_distr; reflexivity).
    assert (Dg : exists dg D', rev (d :: ds) = dg :: D' /\ is_digit dg = true).
    { destruct (rev (d :: ds)) as [|dg D'] eqn:Er.
      - apply (f_equal (@length ascii)) in Er. rewrite length_rev in Er. discriminate.
      - exists dg, D'. split; [reflexivity|].
        assert (Hin : In dg (d :: ds)) by (apply in_rev; rewrite Er; now left).
        destruct Hin as [<- | Hin]; [assumption|].
        rewrite forallb_forall in D. now apply D. }
    destruct Dg as (dg & D' & Er & Hdg).
    replace (rev ("width="%string ++ d :: ds ++ post))
      with (rev post ++ dg :: (D' ++ rev ("width="%string : str))).
    + apply suffix_after_digit; [|assumption].
      destruct He as [-> | ->]; [now left | now right].
    + change (d :: ds ++ post) with ((d :: ds) ++ post).
      rewrite !rev_app_distr, Er. now rewrite <- !app_assoc.
  - destruct (has_width_length s H) as (L1 & L2).
    rewrite !endsWith_cons by lia. now apply IH.
Qed.

Lemma resolveExtension_replace_width (s : str) :
  resolveExtension (replace_width s) = resolveExtension s.
Proof.
  unfold resolveExtension.
  rewrite (@endsWith_replace_width s (".png"%string : str) (or_introl eq_refl)).
  now rewrite (@endsWith_replace_width s (".webp"%string : str) (or_intror eq_refl)).
Qed.

(** *** The name of a file and the id it stands for *)

Lemma combine_seq_app (x y : str) (a : nat) :
  combine (seq a (length (x ++ y))) (x ++ y)
  = combine (seq a (length x)) x ++ combine (seq (a + length x) (length y)) y.
Proof.
  revert a. induction x as [|c x IH]; intros a; simpl.
  - now rewrite Nat.add_0_r.
  - rewrite IH. now rewrite Nat.add_succ_r.
Qed.

Lemma fold_no_dot (e : str) (a : nat) (acc : option nat) :
  forallb (fun c => negb (Ascii.eqb c ".")) e = true ->
  fold_left (fun acc ci => if Ascii.eqb (snd ci) "." then Some (fst ci) else acc)
            (combine (seq a (length e)) e) acc = acc.
Proof.
  revert a acc. induction e as [|c e IH]; intros a acc; simpl; [reflexivity|].
  intros H. apply andb_true_iff in H as (Hc & He).
  apply negb_true_iff in Hc. rewrite Hc. now apply IH.
Qed.

Lemma last_dot_ext (stem e : str) :
  forallb (fun c => negb (Ascii.eqb c ".")) e = true ->
  last_dot (stem ++ "."%char :: e) = Some (length stem).
Proof.
  intros H. unfold last_dot. rewrite combine_seq_app, fold_left_app.
  simpl. now rewrite fold_no_dot.
Qed.

Lemma path_name_ext (stem ext : str) :
  stem <> [] -> In ext extensions -> path_name (stem ++ ext) = stem.
Proof.
  intros Hs Hin.
  assert (E : exists e, ext = "."%char :: e /\ 3 <= length e /\
                        forallb (fun c => negb (Ascii.eqb c ".")) e = true).
  { destruct Hin as [<- | [<- | [<- | []]]]; eexists; (split; [reflexivity|]);
      split; simpl; (lia || reflexivity). }
  destruct E as (e & -> & Le & He). unfold path_name.
  rewrite last_dot_ext by assumption.
  destruct stem as [|c stem]; [contradiction|]. cbn [length].
  destruct (str_eqb ((c :: stem) ++ "."%char :: e) ".."%string) eqn:D.
  - apply str_eqb_eq in D. apply (f_equal (@length ascii)) in D.
    rewrite length_app in D. simpl in D. lia.
  - change (S (length stem)) with (length (c :: stem)).
    now rewrite firstn_app, Nat.sub_diag, firstn_all, app_nil_r.
Qed.

Lemma number_toString (n : Z) : ident_toString (IdNum n) <> [].
Proof.
  unfold ident_toString. destruct (Z.to_int n) as [d|d]; [|discriminate].
  destruct d; discriminate.
Qed.

Lemma hasFile_loadFiles (listing : list str) (c : t) (i : ident) :
  hasFile i (loadFiles listing c) = true <->
  exists f, In f listing /\ path_name f = ident_toString i.
Proof.
  unfold hasFile, loadFiles. simpl. rewrite existsb_exists. split.
  - intros (x & Hin & E). apply str_eqb_eq in E.
    apply in_map_iff in Hin as (f & <- & Hf). now exists f.
  - intros (f & Hf & E). exists (path_name f). split.
    + now apply in_map.
    + apply str_eqb_eq. now symmetry.
Qed.

Lemma resolveExtension_in (url : str) : In (resolveExtension url) extensions.
Proof.
  unfold resolveExtension, extensions.
  destruct (endsWith url ".png"%string); [now left|].
  destruct (endsWith url ".webp"%string); [right; now left | right; right; now left].
Qed.

(** For the quality [HD] the first [width=] followed by digits becomes
    [original=true] and what stands around it stays; a URL where the
    pattern does not occur, and every URL under another quality, is
    returned as it is. *)
Theorem hd_rewrites_first_width :
  (forall pre d ds post,
      has_width pre = false ->
      forallb is_digit (d :: ds) = true -> skip_digits post = post ->
      resolveImageUrl (pre ++ "width="%string ++ d :: ds ++ post) "HD"%string
      = pre ++ "original=true"%string ++ post) /\
  (forall url, has_width url = false -> resolveImageUrl url "HD"%string = url) /\
  (forall url quality,
      quality <> ("HD"%string : str) -> resolveImageUrl url quality = url).
Proof.
  split; [|split].
  - intros pre d ds post H D P. unfold resolveImageUrl.
    rewrite str_eqb_refl. now apply replace_width_first.
  - intros url H. unfold resolveImageUrl. rewrite str_eqb_refl.
    now apply replace_width_none.
  - intros url quality H. unfold resolveImageUrl.
    apply str_eqb_neq in H. now rewrite H.
Qed.

Lemma hd_rewrites_first_width_witness :
  resolveImageUrl
    ("https://image.civitai.com/guid/width=450/1.jpeg?width=9"%string : str)
    "HD"%string
  = ("https://image.civitai.com/guid/original=true/1.jpeg?width=9"%string : str) /\
  resolveImageUrl ("https://image.civitai.com/guid/width=/1.png"%string : str)
                  "HD"%string
  = ("https://image.civitai.com/guid/width=/1.png"%string : str) /\
  resolveImageUrl ("https://image.civitai.com/guid/width=450/1.jpeg"%string : str)
                  "hd"%string
  = ("https://image.civitai.com/guid/width=450/1.jpeg"%string : str).
Proof.
  destruct hd_rewrites_first_width as (F & N & Q).
  split; [|split].
  - apply (F ("https://image.civitai.com/guid/"%string : str) "4"%char
             ("50"%string : str) ("/1.jpeg?width=9"%string : str));
      reflexivity.
  - apply N. reflexivity.
  - apply Q. discriminate.
Defined.

(** The rewrite of the URL does not change the extension the file gets:
    [.png] for a URL that ends so, [.webp] for one that ends so, [.jpeg]
    for every other one. *)
Theorem extension_survives_rewrite :
  (forall url quality,
      resolveExtension (resolveImageUrl url quality) = resolveExtension url) /\
  (forall url,
      resolveExtension url = (".png"%string : str) <->
      exists z, url = z ++ ".png"%string) /\
  (forall url,
      resolveExtension url = (".webp"%string : str) <->
      exists z, url = z ++ ".webp"%string) /\
  (forall url,
      resolveExtension url = (".jpeg"%string : str) <->
      (forall z, url <> z ++ ".png"%string) /\
      (forall z, url <> z ++ ".webp"%string)).
Proof.
  assert (X : forall url, endsWith url ".png"%string = true ->
                          endsWith url ".webp"%string = true -> False).
  { intros url. unfold endsWith. cbn [rev app list_ascii_of_string].
    destruct (rev url) as [|c r]; cbn [after_prefix]; [discriminate|].
    destruct (Ascii.eqb "g" c) eqn:G; [|discriminate].
    apply Ascii.eqb_eq in G. subst c. discriminate. }
  split; [|split; [|split]].
  - intros url quality. unfold resolveImageUrl.
    destruct (str_eqb quality "HD"%string); [|reflexivity].
    apply resolveExtension_replace_width.
  - intros url. rewrite <- endsWith_spec. unfold resolveExtension.
    destruct (endsWith url ".png"%string); [tauto|].
    destruct (endsWith url ".webp"%string); split; discriminate.
  - intros url. rewrite <- endsWith_spec. unfold resolveExtension.
    destruct (endsWith url ".png"%string) eqn:P.
    + split; [discriminate|]. intros W. exfalso. eapply X; eassumption.
    + destruct (endsWith url ".webp"%string); split; (reflexivity || discriminate).
  - intros url. unfold resolveExtension.
    destruct (endsWith url ".png"%string) eqn:P.
    + split; [discriminate|]. intros (A & _). exfalso.
      apply endsWith_spec in P as (z & E). exact (A z E).
    + destruct (endsWith url ".webp"%string) eqn:W.
      * split; [discriminate|]. intros (_ & B). exfalso.
        apply endsWith_spec in W as (z & E). exact (B z E).
      * split; [|reflexivity]. intros _. split; intros z E.
        -- assert (T : endsWith url ".png"%string = true)
             by (apply endsWith_spec; now exists z). congruence.
        -- assert (T : endsWith url ".webp"%string = true)
             by (apply endsWith_spec; now exists z). congruence.
Qed.

(** For an id that is a string or a whole number of at most 2^53 in
    absolute value: after [loadFiles], [hasFile(id)] holds exactly when
    some file of the directory has the text of the id as its name without
    the extension.  A name made of a stem and one of the three extensions
    has that stem as its name.  So the file [downloadItem] names after a
    record with such a number as id is found again by a later run,
    whatever its extension. *)
Theorem file_of_record_is_found :
  (forall listing c i,
      safe_id i ->
      (hasFile i (loadFiles listing c) = true <->
       exists f, In f listing /\ path_name f = ident_toString i)) /\
  (forall stem ext,
      stem <> [] -> In ext extensions -> path_name (stem ++ ext) = stem) /\
  (forall (sanitize : str -> str) quality it n listing c,
      id it = IdNum n -> safe_id (id it) ->
      (forall ext, In ext extensions ->
                   sanitize (ident_toString (id it) ++ ext)
                   = ident_toString (id it) ++ ext) ->
      In (filename sanitize quality it) listing ->
      hasFile (id it) (loadFiles listing c) = true).
Proof.
  split; [intros listing c i _; apply hasFile_loadFiles|].
  split; [exact path_name_ext|].
  intros sanitize quality it n listing c Hid _ Hs Hin.
  apply hasFile_loadFiles. exists (filename sanitize quality it).
  split; [assumption|]. unfold filename.
  rewrite Hs by apply resolveExtension_in.
  apply path_name_ext; [|apply resolveExtension_in].
  rewrite Hid. apply number_toString.
Qed.

Lemma file_of_record_is_found_witness :
  hasFile (IdNum 42)
          (loadFiles [("notes.txt"%string : str); ("42.webp"%string : str)] new) = true /\
  path_name ("42.webp"%string : str) = ("42"%string : str) /\
  (hasFile (IdNum 7) (loadFiles [("42.webp"%string : str)] new) = true <->
   exists f, In f [("42.webp"%string : str)] /\ path_name f = ident_toString (IdNum 7)).
Proof.
  destruct file_of_record_is_found as (H & P & F).
  split; [|split].
  - apply (F (fun s => s) ("HD"%string : str)
             (Item (IdNum 42) ("https://image.example/width=450/a.webp"%string : str)
                   None [])
             42%Z).
    + reflexivity.
    + simpl. lia.
    + reflexivity.
    + right. left. reflexivity.
  - apply (P ("42"%string : str) (".webp"%string : str)).
    + discriminate.
    + right. left. reflexivity.
  - apply H. simpl. lia.
Defined.

End UtilsFacts.

(* ================================================================== *)
(** * Facts about the configuration factory *)
(* ================================================================== *)

Module ConfigurationFacts.
Import Js JsFacts Configuration.

Lemma get_put (x k : str) (v : value) (o : object) :
  get x (put k v o) = if str_eqb k x then Some v else get x o.
Proof.
  unfold get, put. induction o as [|[k' v'] o IH]; simpl.
  - reflexivity.
  - destruct (str_eqb k' k) eqn:E; simpl.
    + apply str_eqb_eq in E. subst k'. now destruct (str_eqb k x).
    + destruct (str_eqb k' x) eqn:E'.
      * apply str_eqb_eq in E'. subst k'.
        assert (N : str_eqb k x = false).
        { apply str_eqb_neq. apply str_eqb_neq in E. congruence. }
        now rewrite N.
      * exact IH.
Qed.

Lemma get_not_in (k : str) (o : object) : ~ In k (map fst o) -> get k o = None.
Proof.
  unfold get. induction o as [|[k' v'] o IH]; simpl; [reflexivity|].
  intros H. destruct (str_eqb k' k) eqn:E.
  - apply str_eqb_eq in E. tauto.
  - apply IH. tauto.
Qed.

Lemma get_assign (k : str) (source : object) :
  NoDup (map fst source) ->
  forall target,
    get k (assign target source)
    = match get k source with Some v => Some v | None => get k target end.
Proof.
  unfold assign. induction source as [|[k1 v1] source IH]; intros N target; simpl.
  - reflexivity.
  - inversion N as [|? ? Hn N']; subst. rewrite (IH N'), get_put.
    unfold get at 3. simpl. fold (get k source).
    destruct (str_eqb k1 k) eqn:E.
    + apply str_eqb_eq in E. subst k1. now rewrite (@get_not_in k source Hn).
    + reflexivity.
Qed.

Lemma get_clean (k : str) (options : object) (keys : list str) (clean : object) :
  get k (fold_left (fun clean key =>
                      match get key options with
                      | Some VUndefined => clean
                      | Some v => put key v clean
                      | None => clean
                      end) keys clean)
  = if existsb (str_eqb k) keys
    then match given k options with Some v => Some v | None => get k clean end
    else get k clean.
Proof.
  revert clean. induction keys as [|key keys IH]; intros clean; simpl; [reflexivity|].
  rewrite IH. clear IH.
  assert (P : forall v, get key options = Some v -> v <> VUndefined ->
              (if existsb (str_eqb k) keys
               then match given k options with
                    | Some v0 => Some v0 | None => get k (put key v clean) end
               else get k (put key v clean))
              = (if str_eqb k key || existsb (str_eqb k) keys
                 then match given k options with
                      | Some v0 => Some v0 | None => get k clean end
                 else get k clean)).
  { intros v G U. rewrite get_put.
    destruct (str_eqb k key) eqn:E.
    - apply str_eqb_eq in E. subst key. rewrite str_eqb_refl. simpl.
      unfold given. rewrite G.
      destruct v; try contradiction; now destruct (existsb (str_eqb k) keys).
    - assert (E' : str_eqb key k = false).
      { apply str_eqb_neq. apply str_eqb_neq in E. congruence. }
      now rewrite E'. }
  destruct (get key options) as [v|] eqn:G.
  - destruct v; try (apply P; [reflexivity | discriminate]).
    destruct (str_eqb k key) eqn:E; [|reflexivity].
    apply str_eqb_eq in E. subst key. simpl. unfold given. rewrite G.
    now destruct (existsb (str_eqb k) keys).
  - destruct (str_eqb k key) eqn:E; [|reflexivity].
    apply str_eqb_eq in E. subst key. simpl. unfold given. rewrite G.
    now destruct (existsb (str_eqb k) keys).
Qed.

Lemma get_cleanOptions (k : str) (options : object) :
  get k (cleanOptions options) = given k options.
Proof.
  unfold cleanOptions. rewrite get_clean.
  destruct (existsb (str_eqb k) (map fst options)) eqn:E.
  - now destruct (given k options).
  - unfold given. rewrite (@get_not_in k options); [reflexivity|].
    intros Hin. apply not_true_iff_false in E. apply E.
    apply existsb_exists. exists k. split; [assumption | apply str_eqb_refl].
Qed.

Lemma in_keys_put (x k : str) (v : value) (o : object) :
  In x (map fst (put k v o)) <-> x = k \/ In x (map fst o).
Proof.
  unfold put. induction o as [|[k' v'] o IH]; simpl.
  - intuition.
  - destruct (str_eqb k' k) eqn:E; simpl.
    + apply str_eqb_eq in E. subst k'. intuition.
    + rewrite IH. intuition.
Qed.

Lemma nodup_put (k : str) (v : value) (o : object) :
  NoDup (map fst o) -> NoDup (map fst (put k v o)).
Proof.
  unfold put. induction o as [|[k' v'] o IH]; simpl; intros N.
  - constructor; [intros [] | constructor].
  - inversion N as [|? ? Hn N']; subst.
    destruct (str_eqb k' k) eqn:E; simpl.
    + apply str_eqb_eq in E. subst k'. now constructor.
    + constructor; [|now apply IH].
      intros Hin. apply (in_keys_put k' k v o) in Hin as [-> | Hin]; [|contradiction].
      apply str_eqb_neq in E. congruence.
Qed.

Lemma nodup_cleanOptions (options : object) : NoDup (map fst (cleanOptions options)).
Proof.
  unfold cleanOptions.
  assert (G : forall keys clean, NoDup (map fst clean) ->
              NoDup (map fst (fold_left (fun clean key =>
                                 match get key options with
                                 | Some VUndefined => clean
                                 | Some v => put key v clean
                                 | None => clean
                                 end) keys clean))).
  { induction keys as [|key keys IH]; intros clean N; simpl; [assumption|].
    apply IH. destruct (get key options) as [[]|]; try assumption; now apply nodup_put. }
  apply G. constructor.
Qed.

Lemma nodup_defaults : NoDup (map fst DEFAULTS).
Proof.
  repeat (constructor; [simpl; intuition discriminate|]). constructor.
Qed.

Lemma get_configuration (username : value) (options : object) (fileConfig : value)
    (k : str) :
  NoDup (map fst (own_props fileConfig)) ->
  get k (put "username"%string username
           (assign (assign (assign [] DEFAULTS) (own_props fileConfig))
                   (cleanOptions options)))
  = if str_eqb k "username"%string then Some username
    else first_of (given k options) (get k (own_props fileConfig)) (get k DEFAULTS).
Proof.
  intros N. rewrite get_put.
  replace (str_eqb "username"%string k) with (str_eqb k "username"%string).
  - destruct (str_eqb k "username"%string); [reflexivity|].
    rewrite (@get_assign k _ (nodup_cleanOptions options)).
    rewrite (@get_assign k _ N), (@get_assign k _ nodup_defaults).
    rewrite get_cleanOptions. unfold first_of.
    destruct (given k options); [reflexivity|].
    destruct (get k (own_props fileConfig)); [reflexivity|].
    now destruct (get k DEFAULTS).
  - destruct (str_eqb k "username"%string) eqn:E.
    + apply str_eqb_eq in E. subst k. symmetry. apply str_eqb_refl.
    + symmetry. apply str_eqb_neq. apply str_eqb_neq in E. congruence.
Qed.

(** When [options.config] is a string, the path of the configuration
    file, [createConfiguration] returns a configuration where [username]
    is the argument of the command and every other field is the value its
    option was given on the command line, or else the value the file at
    that path has for it, or else the default; an option left undefined
    overrides nothing.  When [options.config] is not a string the call
    throws.  A file that is missing, that cannot be read as JSON or that
    holds a falsy value brings no field. *)
Theorem configuration_precedence :
  (forall username options fs p,
      prop "config"%string options = VStr p ->
      NoDup (map fst (file_props (fs p))) ->
      exists config printed,
        createConfiguration username options fs = Some (config, printed) /\
        get "username"%string config = Some username /\
        forall k,
          k <> ("username"%string : str) ->
          get k config
          = first_of (given k options) (get k (file_props (fs p))) (get k DEFAULTS)) /\
  (forall username options fs,
      (forall p, prop "config"%string options <> VStr p) ->
      createConfiguration username options fs = None) /\
  (forall f,
      f = Missing \/ f = Broken \/ (exists v, f = Holds v /\ truthy_value v = false) ->
      file_props f = []).
Proof.
  split; [|split].
  - intros username options fs p C N.
    unfold createConfiguration, loadConfigFile, file_props in *. rewrite C.
    destruct (read_config (fs p)) as [fileConfig printed]. cbn [fst] in *.
    eexists _, printed. split; [reflexivity|]. split.
    + now rewrite (@get_configuration username options fileConfig _ N).
    + intros k Hk. rewrite (@get_configuration username options fileConfig k N).
      apply str_eqb_neq in Hk. now rewrite Hk.
  - intros username options fs H. unfold createConfiguration, loadConfigFile.
    destruct (prop "config"%string options) as [| | | | q | |] eqn:C;
      try reflexivity.
    exfalso. exact (H q eq_refl).
  - intros f [-> | [-> | (v & -> & T)]]; try reflexivity.
    unfold file_props, read_config. now rewrite T.
Qed.

Lemma configuration_precedence_witness :
  (exists config printed,
     createConfiguration (VStr "ArtMaster"%string) sample_options sample_files
     = Some (config, printed) /\
     get "username"%string config = Some (VStr "ArtMaster"%string) /\
     get "limit"%string config = Some (Number 50) /\
     get "sort"%string config = Some (VStr "Oldest"%string) /\
     get "nsfw"%string config = Some (VStr "X"%string) /\
     get "apiKey"%string config = None) /\
  createConfiguration (VStr "ArtMaster"%string)
                      [("limit"%string : str, Number 50)] sample_files = None /\
  file_props (Holds (Number 0)) = [].
Proof.
  destruct configuration_precedence as (P & T & E).
  split; [|split].
  - destruct (P (VStr "ArtMaster"%string) sample_options sample_files
                ("config.json"%string : str)) as (config & printed & C & U & K).
    + reflexivity.
    + repeat (constructor; [simpl; intuition discriminate|]). constructor.
    + exists config, printed. split; [exact C|]. split; [exact U|].
      split; [|split; [|split]].
      * apply (K ("limit"%string : str)). discriminate.
      * apply (K ("sort"%string : str)). discriminate.
      * apply (K ("nsfw"%string : str)). discriminate.
      * apply (K ("apiKey"%string : str)). discriminate.
  - apply T. intros p. discriminate.
  - apply E. right. right. exists (Number 0). split; reflexivity.
Defined.

End ConfigurationFacts.

(* ================================================================== *)
(** * Further facts about [TagFilter] *)
(* ================================================================== *)

Module QueryFacts.
Import Js JsFacts TagFilter TagFilterFacts Query.

(** *** The tokens are made of characters of the query *)

Lemma rmatch_inside (input : str) (r : regex) :
  forall st k res,
    inside input st -> rmatch r st k = Some res ->
    exists st', inside input st' /\ k st' = Some res.
Proof.
  induction r as [|cl| |r1 IH1 r2 IH2|r1 IH1 r2 IH2|cl|cl|n r1 IH1];
    intros [prev rest caps] k res (I1 & I2) H; simpl in *.
  - eexists. split; [|exact H]. now split.
  - destruct rest as [|c rest]; [discriminate|].
    destruct (cmatch cl c); [|discriminate].
    eexists. split; [|exact H]. split; simpl; [|assumption].
    intros x Hx. apply I1. now right.
  - destruct (at_boundary prev rest); [|discriminate].
    eexists. split; [|exact H]. now split.
  - apply IH1 in H as (st1 & S1 & H); [|now split]. now apply IH2 in H.
  - destruct (rmatch r1 _ k) as [res'|] eqn:E.
    + inversion H; subst res'. apply IH1 in E; [assumption | now split].
    + apply IH2 in H; [assumption | now split].
  - apply star_loop_some in H as (ws & rest' & prev' & -> & _ & H).
    eexists. split; [|exact H]. split; simpl; [|assumption].
    intros x Hx. apply I1. apply in_or_app. now right.
  - destruct rest as [|c rest].
    + eexists. split; [|exact H]. now split.
    + assert (A : inside input (MState (Some c) rest caps)).
      { split; simpl; [|assumption]. intros x Hx. apply I1. now right. }
      assert (B : inside input (MState prev (c :: rest) caps)) by now split.
      destruct (cmatch cl c).
      * destruct (k (MState (Some c) rest caps)) as [res'|] eqn:E.
        -- inversion H; subst res'. eauto.
        -- eauto.
      * eauto.
  - apply IH1 in H as (st1 & (S1 & S2) & H); [|now split].
    eexists. split; [|exact H]. split; simpl; [assumption|].
    intros m s [E | Hin]; [|eauto].
    inversion E; subst. intros x Hx. apply I1.
    rewrite <- (firstn_skipn (length rest - length (m_rest st1)) rest).
    apply in_or_app. now left.
Qed.

Lemma capture_in (n : nat) (caps : list (nat * str)) (s : str) :
  capture n caps = Some s -> In (n, s) caps.
Proof.
  induction caps as [|[m t] caps IH]; simpl; [discriminate|].
  destruct (m =? n) eqn:E.
  - apply Nat.eqb_eq in E. subst m. intros H. inversion H. now left.
  - intros H. right. now apply IH.
Qed.

Lemma split_go_inside (input : str) (r : regex) (groups : nat) (rest : str) :
  forall skip piece prev t,
    incl rest input -> incl piece input ->
    In (Some t) (split_go r groups skip piece prev rest) -> incl t input.
Proof.
  induction rest as [|c rest IH]; intros skip piece prev t Hr Hp Hin.
  - simpl in Hin. destruct Hin as [E | []]. inversion E; subst.
    intros x Hx. apply Hp. now apply in_rev.
  - assert (Hr' : incl rest input) by (intros x Hx; apply Hr; now right).
    assert (Hc : incl [c] input) by (intros x [<- | []]; apply Hr; now left).
    assert (Hcp : incl (c :: piece) input).
    { intros x [<- | Hx]; [apply Hr; now left | now apply Hp]. }
    assert (Hrev : incl (rev piece) input).
    { intros x Hx. apply Hp. now apply in_rev. }
    cbn [split_go] in Hin. destruct skip as [|n].
    + destruct (exec_at r prev (c :: rest)) as [st'|] eqn:E.
      * assert (S' : inside input st').
        { unfold exec_at in E.
          apply (@rmatch_inside input) in E as (st1 & S1 & E1).
          - inversion E1; subst. exact S1.
          - split; simpl; [assumption | intros ? ? []]. }
        assert (Hcap : forall t, In (Some t) (captures groups (m_caps st')) ->
                                 incl t input).
        { intros t' Hin'. unfold captures in Hin'.
          apply in_map_iff in Hin' as (i & Hi & _).
          apply capture_in in Hi. destruct S' as (_ & S2). eapply S2; eassumption. }
        destruct (length (c :: rest) - length (m_rest st')) as [|n].
        -- destruct piece as [|p piece].
           ++ eapply IH; [| |exact Hin]; assumption.
           ++ destruct Hin as [E' | Hin].
              ** inversion E'; subst. exact Hrev.
              ** apply in_app_or in Hin as [Hin | Hin]; [now apply Hcap|].
                 eapply IH; [| |exact Hin]; assumption.
        -- destruct Hin as [E' | Hin].
           ++ inversion E'; subst. exact Hrev.
           ++ apply in_app_or in Hin as [Hin | Hin]; [now apply Hcap|].
              eapply IH; [| |exact Hin]; [assumption | intros ? []].
      * eapply IH; [| |exact Hin]; assumption.
    + eapply IH; [| |exact Hin]; [assumption | intros ? []].
Qed.

Lemma tokens_inside (q t : str) : In t (tokens q) -> incl t q.
Proof.
  unfold tokens. intros H. apply in_flat_map in H as ([x|] & Hin & Hx); [|contradiction].
  destruct (truthy x && truthy (trim x)); [|contradiction].
  destruct Hx as [<- | []].
  unfold split in Hin. destruct q as [|c q].
  - destruct (exec_at separator None []); [contradiction|].
    destruct Hin as [E | []]. inversion E. intros ? [].
  - eapply split_go_inside; [| |exact Hin]; [apply incl_refl | intros ? []].
Qed.

Lemma trimStart_incl (s : str) : incl (trimStart s) s.
Proof.
  induction s as [|c s IH]; simpl; [apply incl_refl|].
  destruct (is_space c); [|apply incl_refl].
  intros x Hx. right. now apply IH.
Qed.

Lemma trim_incl (s : str) : incl (trim s) s.
Proof.
  unfold trim. intros x Hx. apply in_rev in Hx.
  apply trimStart_incl in Hx. apply in_rev in Hx. now apply trimStart_incl in Hx.
Qed.

Lemma canon_parenthesis (c : ascii) : canon c = "("%char -> c = "("%char.
Proof.
  destruct c as [[] [] [] [] [] [] [] []]; vm_compute; congruence.
Qed.

Lemma mapOperator_cases (s : str) (op : etok) :
  mapOperator s = Some op ->
  (op = TAnd \/ op = TOr \/ op = TNot \/ op = TRP) \/
  (op = TLP /\ s = ("("%string : str)).
Proof.
  unfold mapOperator.
  destruct (str_eqb s "AND"%string); [intros E; inversion E; tauto|].
  destruct (str_eqb s "OR"%string); [intros E; inversion E; tauto|].
  destruct (str_eqb s "NOT"%string); [intros E; inversion E; tauto|].
  destruct (str_eqb s "("%string) eqn:L.
  - intros E; inversion E. right. split; [reflexivity|]. now apply str_eqb_eq.
  - destruct (str_eqb s ")"%string); [intros E; inversion E; tauto | discriminate].
Qed.

(** *** The pieces of the expression *)

Lemma fold_add_token_expression (toks : list str) :
  forall inc0 inc,
    fold_left add_token toks (Some inc0) = Some inc ->
    length (terms inc0) <= length (terms inc) /\
    (forall i, In (TTerm i) (expression inc) ->
               In (TTerm i) (expression inc0) \/ i < length (terms inc)) /\
    (In TLP (expression inc) ->
     In TLP (expression inc0) \/
     exists t, In t toks /\ trim (toUpperCase t) = ("("%string : str)) /\
    (In TTrue (expression inc) -> In TTrue (expression inc0)).
Proof.
  induction toks as [|tok toks IH]; intros inc0 inc H.
  - simpl in H. inversion H; subst. repeat split; auto.
  - cbn [fold_left] in H. unfold add_token at 2 in H.
    destruct (mapOperator (trim (toUpperCase tok))) as [op|] eqn:M.
    + apply IH in H as (L & T & P & U). cbn [terms expression] in *.
      apply mapOperator_cases in M.
      split; [exact L|]. split; [|split].
      * intros i Hi. apply T in Hi as [Hi | Hi]; [|now right].
        apply in_app_or in Hi as [Hi | [Hi | []]]; [now left|].
        exfalso. destruct M as [[-> | [-> | [-> | ->]]] | (-> & _)]; discriminate.
      * intros Hp. apply P in Hp as [Hp | (t & Ht & Et)].
        -- apply in_app_or in Hp as [Hp | [Hp | []]]; [now left|].
           right. exists tok. split; [now left|].
           destruct M as [[-> | [-> | [-> | ->]]] | (_ & E)];
             try discriminate. exact E.
        -- right. exists t. split; [now right | exact Et].
      * intros Ht. apply U in Ht. apply in_app_or in Ht as [Ht | [Ht | []]];
          [assumption|].
        exfalso. destruct M as [[-> | [-> | [-> | ->]]] | (-> & _)]; discriminate.
    + rewrite include_regexp in H.
      apply IH in H as (L & T & P & U). cbn [terms expression] in *.
      rewrite length_app in L. simpl in L.
      split; [lia|]. split; [|split].
      * intros i Hi. apply T in Hi as [Hi | Hi]; [|now right].
        apply in_app_or in Hi as [Hi | [Hi | []]]; [now left|].
        inversion Hi; subst. right. lia.
      * intros Hp. apply P in Hp as [Hp | (t & Ht & Et)].
        -- apply in_app_or in Hp as [Hp | [Hp | []]]; [now left | discriminate].
        -- right. exists t. split; [now right | exact Et].
      * intros Ht. apply U in Ht. apply in_app_or in Ht as [Ht | [Ht | []]];
          [assumption | discriminate].
Qed.

Lemma expression_pieces (q : str) (inc : inclusions) :
  parseInclusions (Some q) = Some inc ->
  (forall i, In (TTerm i) (expression inc) -> i < length (terms inc)) /\
  (In TLP (expression inc) -> In "("%char q).
Proof.
  unfold parseInclusions. destruct (is_blank (Some q)).
  - intros E. inversion E; subst. simpl. split.
    + intros i [Hi | []]. discriminate.
    + intros [Hi | []]. discriminate.
  - intros H. apply fold_add_token_expression in H as (_ & T & P & _).
    simpl in T, P. split.
    + intros i Hi. destruct (T i Hi) as [[] | Hi']. exact Hi'.
    + intros Hp. destruct (P Hp) as [[] | (t & Ht & Et)].
      apply (tokens_inside q t Ht).
      assert (Hin : In "("%char (trim (toUpperCase t))) by (rewrite Et; now left).
      apply trim_incl in Hin. unfold toUpperCase in Hin.
      apply in_map_iff in Hin as (c & Hc & Hin).
      apply canon_parenthesis in Hc. now subst c.
Qed.

(** *** An expression without a parenthesis has a value *)

Lemma eval_without_call (n : nat) (operand : nat -> completion) :
  defined_below n operand ->
  let P := fun (ts : list etok) (e : expr) =>
             ~ In TLP ts -> (forall i, In (TTerm i) ts -> i < n) ->
             exists b, eval operand e = Val b in
  (forall ts e, g_or ts e -> P ts e) /\ (forall ts e, g_and ts e -> P ts e) /\
  (forall ts e, g_unary ts e -> P ts e) /\ (forall ts e, g_call ts e -> P ts e).
Proof.
  intros D P. subst P. apply grammar_ind; cbn beta.
  - auto.
  - intros ts1 e1 ts2 e2 _ IH1 _ IH2 N B.
    destruct IH1 as (b1 & E1).
    { intros Hin. apply N. apply in_or_app. now left. }
    { intros i Hi. apply B. apply in_or_app. now left. }
    destruct IH2 as (b2 & E2).
    { intros Hin. apply N. apply in_or_app. right. now right. }
    { intros i Hi. apply B. apply in_or_app. right. now right. }
    simpl. rewrite E1. destruct b1; [now exists true | now exists b2].
  - auto.
  - intros ts1 e1 ts2 e2 _ IH1 _ IH2 N B.
    destruct IH1 as (b1 & E1).
    { intros Hin. apply N. apply in_or_app. now left. }
    { intros i Hi. apply B. apply in_or_app. now left. }
    destruct IH2 as (b2 & E2).
    { intros Hin. apply N. apply in_or_app. right. now right. }
    { intros i Hi. apply B. apply in_or_app. right. now right. }
    simpl. rewrite E1. destruct b1; [now exists b2 | now exists false].
  - auto.
  - intros ts e _ IH N B.
    destruct IH as (b & E).
    { intros Hin. apply N. now right. }
    { intros i Hi. apply B. now right. }
    simpl. rewrite E. now exists (negb b).
  - intros i _ B. simpl. apply D. apply B. now left.
  - intros _ _. now exists true.
  - intros ts e _ _ N _. exfalso. apply N. now left.
  - intros ts f _ _ N _. exfalso. apply N. apply in_or_app. right. now left.
  - intros ts f us a _ _ _ _ N _. exfalso. apply N. apply in_or_app. right. now left.
Qed.

Lemma operand_defined (Terms : list regex) (prompt : str) :
  defined_below (length Terms) (operand Terms prompt).
Proof.
  intros i Hi. unfold operand.
  destruct (nth_error Terms i) as [r|] eqn:E; [eauto|].
  apply nth_error_None in E. lia.
Qed.

(** A filter compiled from an include query without an opening
    parenthesis never throws: [test] gives [true] or [false] on every
    prompt, whatever the exclusions are. *)
Theorem query_without_parenthesis_never_throws :
  forall (q : str) excludeString f prompt,
    compile (Some q) excludeString = Filter f ->
    ~ In "("%char q ->
    exists b, test f prompt = Val b.
Proof.
  intros q excludeString f prompt H N.
  destruct (compile_inv _ _ H) as (inc & E & T & [(_ & _ & ->) | (body & P & ->)]).
  - now exists true.
  - unfold test, call.
    destruct (existsb _ _); [now exists false|].
    destruct (expression_pieces q E) as (B & L).
    apply parse_expression_sound in P.
    destruct (eval_without_call (operand_defined
                (map include_shape (include_tags (Some q))) (or_empty prompt)))
      as (O & _).
    apply (O _ _ P).
    + intros Hin. apply N. now apply L.
    + intros i Hi. rewrite <- T. now apply B.
Qed.

Lemma query_without_parenthesis_never_throws_witness :
  exists b,
    test (Compiled [exclude_shape "boy"%string]
                   [include_shape "cat"%string; include_shape "dog"%string]
                   (EOr (ETerm 0) (ETerm 1)))
         (Some ("a cat"%string : str)) = Val b.
Proof.
  apply (@query_without_parenthesis_never_throws
           ("cat OR dog"%string : str) (Some ("boy"%string : str))).
  - vm_compute. reflexivity.
  - vm_compute. intuition discriminate.
Defined.

(** *** A query without tags *)

(** [compile] gives the filter that accepts everything exactly when the
    include query has no tag and the exclusion list has no term.  The
    expression is not read in that case, so a query made of operators only
    is accepted whatever their order, while the same operators next to a
    tag are refused. *)
Theorem filter_without_terms_accepts_all :
  (forall query excludeString,
      compile query excludeString = Filter AlwaysTrue <->
      include_tags query = [] /\ exclude_tags excludeString = []) /\
  (forall prompt, test AlwaysTrue prompt = Val true) /\
  compile (Some ("AND OR ("%string : str)) None = Filter AlwaysTrue /\
  compile (Some ("cat AND OR ("%string : str)) None = InvalidLogicSyntax.
Proof.
  split; [|split; [|split]]; try reflexivity.
  intros query excludeString. split.
  - intros H.
    destruct (compile_inv _ _ H) as (inc & E & T & [(X & I & _) | (body & _ & F)]);
      [now split | discriminate].
  - intros (I & X). unfold compile. rewrite parseExclusions_terms, X.
    destruct (parseInclusions_terms query) as (inc & E & T).
    rewrite E, T, I. reflexivity.
Qed.

(** *** Letters are compared up to case *)

Lemma canon_facts (c : ascii) :
  canon (canon c) = canon c /\ is_digit (canon c) = is_digit c /\
  is_word (canon c) = is_word c.
Proof.
  destruct c as [[] [] [] [] [] [] [] []]; vm_compute; repeat split.
Qed.

Lemma map_canon_idem (s : str) : map canon (map canon s) = map canon s.
Proof.
  rewrite map_map. apply map_ext. intros c. apply canon_facts.
Qed.

Lemma digits_canon (s : str) :
  forallb is_digit (map canon s) = forallb is_digit s.
Proof.
  induction s as [|c s IH]; simpl; [reflexivity|].
  destruct (canon_facts c) as (_ & -> & _). now rewrite IH.
Qed.

Lemma after_canon (pre : str) :
  forall prev,
    is_word_opt (after (option_map canon prev) (map canon pre))
    = is_word_opt (after prev pre).
Proof.
  induction pre as [|c pre IH]; intros prev; simpl.
  - destruct prev as [c|]; simpl; [apply canon_facts | reflexivity].
  - apply (IH (Some c)).
Qed.

Lemma at_boundary_canon (pre rest : str) :
  at_boundary (after None (map canon pre)) (map canon rest)
  = at_boundary (after None pre) rest.
Proof.
  unfold at_boundary. pose proof (after_canon pre None) as A. simpl in A.
  rewrite A. f_equal.
  destruct rest as [|c rest]; simpl; [reflexivity | apply canon_facts].
Qed.

Lemma occurs_canon (plural : bool) (t prompt : str) :
  occurs plural t (map canon prompt) <-> occurs plural t prompt.
Proof.
  unfold occurs. split.
  - intros (pre' & ds' & body' & s' & post' & E & D & B & S & B1 & B2).
    apply map_eq_app in E as (pre & r1 & -> & <- & E).
    apply map_eq_app in E as (ds & r2 & -> & <- & E).
    apply map_eq_app in E as (body & r3 & -> & <- & E).
    apply map_eq_app in E as (s & post & -> & <- & <-).
    exists pre, ds, body, s, post. split; [reflexivity|].
    rewrite digits_canon in D. rewrite map_canon_idem in B.
    rewrite <- !map_app in B1, B2. rewrite at_boundary_canon in B1, B2.
    repeat split; try assumption.
    destruct S as [S | (P & c' & S & C)].
    + left. now destruct s.
    + right. split; [assumption|].
      destruct s as [|c [|]]; try discriminate. inversion S; subst.
      exists c. split; [reflexivity|]. now rewrite (proj1 (canon_facts c)) in C.
  - intros (pre & ds & body & s & post & -> & D & B & S & B1 & B2).
    exists (map canon pre), (map canon ds), (map canon body), (map canon s),
           (map canon post).
    split; [now rewrite !map_app|].
    rewrite digits_canon, map_canon_idem.
    rewrite <- !map_app, !at_boundary_canon.
    repeat split; try assumption.
    destruct S as [-> | (P & c & -> & C)]; [now left|].
    right. split; [assumption|]. exists (canon c). split; [reflexivity|].
    now rewrite (proj1 (canon_facts c)).
Qed.

Lemma shape_up_to_case (plural : bool) (t t' p p' : str) :
  map canon t = map canon t' -> map canon p = map canon p' ->
  Js.test (shape plural t) p = Js.test (shape plural t') p'.
Proof.
  intros Et Ep. apply eq_true_iff_eq. rewrite !shape_occurs.
  rewrite <- (occurs_canon plural t p), <- (occurs_canon plural t' p'), Ep.
  unfold occurs. now rewrite Et.
Qed.

Lemma eval_ext (o1 o2 : nat -> completion) (e : expr) :
  (forall i, o1 i = o2 i) -> eval o1 e = eval o2 e.
Proof.
  intros H. induction e as [|i|e IH|e1 IH1 e2 IH2|e1 IH1 e2 IH2|f _|f _ a _];
    simpl; try reflexivity.
  - apply H.
  - now rewrite IH.
  - now rewrite IH1, IH2.
  - now rewrite IH1, IH2.
Qed.

Lemma existsb_same {A} (f g : A -> bool) (l : list A) :
  (forall x, In x l -> f x = g x) -> existsb f l = existsb g l.
Proof.
  induction l as [|x l IH]; simpl; intros H; [reflexivity|].
  rewrite (H x) by now left. rewrite IH; [reflexivity|].
  intros y Hy. apply H. now right.
Qed.

(** A compiled filter gives the same verdict on two prompts that differ
    only in the case of their letters, and two terms that differ only in
    the case of their letters have patterns that match the same prompts. *)
Theorem filter_ignores_case :
  (forall query excludeString f p p',
      compile query excludeString = Filter f ->
      map canon p = map canon p' ->
      test f (Some p) = test f (Some p')) /\
  (forall t t' prompt,
      map canon t = map canon t' ->
      Js.test (include_shape t) prompt = Js.test (include_shape t') prompt /\
      Js.test (exclude_shape t) prompt = Js.test (exclude_shape t') prompt).
Proof.
  split.
  - intros query excludeString f p p' H Ep.
    destruct (compile_inv _ _ H) as (inc & E & T & [(_ & _ & ->) | (body & P & ->)]);
      [reflexivity|].
    unfold test, call, or_empty.
    rewrite (@existsb_same _ (fun r => Js.test r p) (fun r => Js.test r p')).
    + destruct (existsb _ _); [reflexivity|].
      apply eval_ext. intros i. unfold operand.
      destruct (nth_error _ i) as [r|] eqn:N; [|reflexivity].
      apply nth_error_In in N. apply in_map_iff in N as (t & <- & _).
      f_equal. now apply (@shape_up_to_case true).
    + intros r Hr. apply in_map_iff in Hr as (t & <- & _).
      now apply (@shape_up_to_case false).
  - intros t t' prompt Et. split.
    + now apply (@shape_up_to_case true).
    + now apply (@shape_up_to_case false).
Qed.

Lemma filter_ignores_case_witness :
  test (Compiled [exclude_shape "boy"%string] [include_shape "cat"%string] (ETerm 0))
       (Some ("A CAT"%string : str))
  = test (Compiled [exclude_shape "boy"%string] [include_shape "cat"%string] (ETerm 0))
         (Some ("a cat"%string : str)) /\
  Js.test (include_shape "Cat"%string) "two cats"%string
  = Js.test (include_shape "CAT"%string) "two cats"%string.
Proof.
  destruct filter_ignores_case as (P & T).
  split.
  - apply (P (Some ("cat"%string : str)) (Some ("boy"%string : str)));
      vm_compute; reflexivity.
  - apply (T ("Cat"%string : str) ("CAT"%string : str)). reflexivity.
Defined.

(** *** One word, and two words joined by a keyword *)

Lemma split_go_word (w : str) :
  words w ->
  forall piece prev rest,
    split_go separator 2 0 piece prev (w ++ rest)
    = split_go separator 2 0 (rev w ++ piece) (after prev w) rest.
Proof.
  induction w as [|c w IH]; intros H piece prev rest; [reflexivity|].
  destruct (word_char c (words_head H)) as (Hs & _ & Hl & Hr & _).
  cbn [app split_go]. rewrite separator_at_plain by assumption.
  rewrite (IH (words_tail H)). cbn [rev after]. now rewrite <- app_assoc.
Qed.

Lemma lit_match (s rest : str) :
  forall prev caps k,
    rmatch (Lit s) (MState prev (s ++ rest) caps) k
    = k (MState (after prev s) rest caps).
Proof.
  induction s as [|a s IH]; intros prev caps k; [reflexivity|].
  change (Lit (a :: s)) with (Seq (Chr (CLit a)) (Lit s)).
  cbn [rmatch m_rest m_caps app cmatch]. rewrite Ascii.eqb_refl.
  now rewrite IH.
Qed.

Lemma plus_space_one (prev : option ascii) (c : ascii) (rest : str)
    (caps : list (nat * str)) (k : mstate -> option mstate) :
  is_space c = false ->
  rmatch (Plus CSpace) (MState prev (" "%char :: c :: rest) caps) k
  = k (MState (Some " "%char) (c :: rest) caps).
Proof.
  intros H. unfold Plus. cbn [rmatch m_rest m_caps m_prev star_loop].
  change (cmatch CSpace " ") with true. change (cmatch CSpace c) with (is_space c).
  now rewrite H.
Qed.

Lemma rmatch_group (n : nat) (r : regex) (st : mstate) (k : mstate -> option mstate) :
  rmatch (Group n r) st k
  = rmatch r st (fun st' =>
      k (MState (m_prev st') (m_rest st')
                ((n, firstn (length (m_rest st) - length (m_rest st')) (m_rest st))
                   :: m_caps st'))).
Proof. reflexivity. Qed.

Lemma separator_at_and (prev : option ascii) (c : ascii) (b : str) :
  words (c :: b) ->
  exec_at separator prev (" AND "%string ++ c :: b)
  = Some (MState (Some " "%char) (c :: b) [(1, ("AND"%string : str))]).
Proof.
  intros H. destruct (word_char c (words_head H)) as (Hs & _).
  unfold exec_at, separator.
  change (" AND "%string ++ c :: b)
    with (" "%char :: "A"%char :: (("ND"%string : str) ++ " "%char :: c :: b)).
  rewrite rmatch_alt, rmatch_seq, plus_space_one by reflexivity.
  rewrite rmatch_seq. unfold keyword. rewrite rmatch_group, rmatch_alt.
  change ("A"%char :: (("ND"%string : str) ++ " "%char :: c :: b))
    with (("AND"%string : str) ++ " "%char :: c :: b).
  rewrite lit_match. cbn [m_rest m_prev m_caps].
  rewrite firstn_matched, plus_space_one by assumption. reflexivity.
Qed.

Lemma separator_at_or (prev : option ascii) (c : ascii) (b : str) :
  words (c :: b) ->
  exec_at separator prev (" OR "%string ++ c :: b)
  = Some (MState (Some " "%char) (c :: b) [(1, ("OR"%string : str))]).
Proof.
  intros H. destruct (word_char c (words_head H)) as (Hs & _).
  unfold exec_at, separator.
  change (" OR "%string ++ c :: b)
    with (" "%char :: "O"%char :: (("R"%string : str) ++ " "%char :: c :: b)).
  rewrite rmatch_alt, rmatch_seq, plus_space_one by reflexivity.
  rewrite rmatch_seq. unfold keyword. rewrite rmatch_group, rmatch_alt.
  replace (rmatch (Lit "AND"%string) _ _) with (@None mstate) by reflexivity.
  rewrite rmatch_alt.
  change ("O"%char :: (("R"%string : str) ++ " "%char :: c :: b))
    with (("OR"%string : str) ++ " "%char :: c :: b).
  rewrite lit_match. cbn [m_rest m_prev m_caps].
  rewrite firstn_matched, plus_space_one by assumption. reflexivity.
Qed.


Lemma split_go_skip (r : regex) (groups : nat) (pre rest : str) :
  forall prev,
    split_go r groups (length pre) [] prev (pre ++ rest)
    = split_go r groups 0 [] (after prev pre) rest.
Proof.
  induction pre as [|x pre IH]; intros prev; [reflexivity|].
  cbn [length app split_go after]. apply IH.
Qed.

Lemma split_at_and (a : str) (c : ascii) (b : str) :
  words a -> a <> [] -> words (c :: b) ->
  split separator 2 (a ++ " AND "%string ++ c :: b)
  = [Some a; Some ("AND"%string : str); None; Some (c :: b)].
Proof.
  intros Ha Na Hb. unfold split.
  destruct (a ++ " AND "%string ++ c :: b) as [|x q] eqn:E.
  { destruct a; [contradiction | discriminate]. }
  rewrite <- E. clear E x q.
  rewrite split_go_word by assumption. rewrite app_nil_r.
  assert (L : length (" AND "%string ++ c :: b) - length (c :: b) = 5)
    by (rewrite length_app; cbn [length list_ascii_of_string]; lia).
  change (" AND "%string ++ c :: b)
    with (" "%char :: (("AND "%string : str) ++ c :: b)) at 1.
  cbn [split_go].
  change (" "%char :: (("AND "%string : str) ++ c :: b))
    with (" AND "%string ++ c :: b).
  rewrite separator_at_and by assumption. cbn [m_rest m_caps]. rewrite L.
  rewrite rev_involutive.
  change (split_go separator 2 4 [] (Some " "%char) (("AND "%string : str) ++ c :: b))
    with (split_go separator 2 (length ("AND "%string : str)) [] (Some " "%char)
            (("AND "%string : str) ++ c :: b)).
  rewrite split_go_skip.
  cbn [after list_ascii_of_string].
  rewrite (split_go_never separator 2 (c :: b) [] (Some " "%char)
             (separator_at_word (Some " "%char) Hb)).
  reflexivity.
Qed.

Lemma split_at_or (a : str) (c : ascii) (b : str) :
  words a -> a <> [] -> words (c :: b) ->
  split separator 2 (a ++ " OR "%string ++ c :: b)
  = [Some a; Some ("OR"%string : str); None; Some (c :: b)].
Proof.
  intros Ha Na Hb. unfold split.
  destruct (a ++ " OR "%string ++ c :: b) as [|x q] eqn:E.
  { destruct a; [contradiction | discriminate]. }
  rewrite <- E. clear E x q.
  rewrite split_go_word by assumption. rewrite app_nil_r.
  assert (L : length (" OR "%string ++ c :: b) - length (c :: b) = 4)
    by (rewrite length_app; cbn [length list_ascii_of_string]; lia).
  change (" OR "%string ++ c :: b)
    with (" "%char :: (("OR "%string : str) ++ c :: b)) at 1.
  cbn [split_go].
  change (" "%char :: (("OR "%string : str) ++ c :: b))
    with (" OR "%string ++ c :: b).
  rewrite separator_at_or by assumption. cbn [m_rest m_caps]. rewrite L.
  rewrite rev_involutive.
  change (split_go separator 2 3 [] (Some " "%char) (("OR "%string : str) ++ c :: b))
    with (split_go separator 2 (length ("OR "%string : str)) [] (Some " "%char)
            (("OR "%string : str) ++ c :: b)).
  rewrite split_go_skip.
  cbn [after list_ascii_of_string].
  rewrite (split_go_never separator 2 (c :: b) [] (Some " "%char)
             (separator_at_word (Some " "%char) Hb)).
  reflexivity.
Qed.

(** A word is its own trimmed and unquoted form. *)
Lemma word_as_token (c : ascii) (w : str) :
  words (c :: w) ->
  truthy (c :: w) = true /\ trim (c :: w) = c :: w /\
  strip_quotes (c :: w) = c :: w /\
  trim (toUpperCase (c :: w)) = toUpperCase (c :: w).
Proof.
  intros H.
  destruct (word_char c (words_head H)) as (Hs & Hq & _ & _ & Hw).
  destruct (@rev_ends_word [] c w H) as (d & r & E & Hd).
  destruct (word_char d Hd) as (Hds & Hdq & _).
  destruct (@rev_ends_word [] (canon c) (map canon w) (words_canon H))
    as (d' & r' & E' & Hd').
  destruct (word_char d' Hd') as (Hds' & _).
  destruct (word_char (canon c) Hw) as (Hcs & _).
  repeat split.
  - apply trim_ends; [assumption | now exists d, r].
  - apply strip_quotes_ends; [assumption | now exists d, r].
  - unfold toUpperCase. cbn [map]. apply trim_ends; [assumption | now exists d', r'].
Qed.

Lemma tokens_word (c : ascii) (w : str) :
  words (c :: w) -> tokens (c :: w) = [c :: w].
Proof.
  intros H. destruct (word_as_token H) as (T & Tr & _).
  unfold tokens, split.
  rewrite (split_go_never separator 2 (c :: w) [] None (separator_at_word None H)).
  cbn [rev app flat_map]. now rewrite Tr, T.
Qed.

Lemma add_tag (inc : inclusions) (c : ascii) (w : str) :
  words (c :: w) -> is_tag (c :: w) = true ->
  add_token (Some inc) (c :: w)
  = Some (Inclusions (terms inc ++ [include_shape (c :: w)])
                     (expression inc ++ [TTerm (length (terms inc))])).
Proof.
  intros H T. destruct (word_as_token H) as (_ & _ & Q & _).
  unfold add_token. unfold is_tag in T.
  destruct (mapOperator (trim (toUpperCase (c :: w)))); [discriminate|].
  now rewrite Q, include_regexp.
Qed.


Lemma not_blank (c : ascii) (w mid : str) (d : ascii) (v : str) :
  words (c :: w) -> words (d :: v) ->
  is_blank (Some ((c :: w) ++ mid ++ d :: v)) = false.
Proof.
  intros Hc Hd. unfold is_blank.
  destruct (word_char c (words_head Hc)) as (Hs & _).
  destruct (@rev_ends_word (c :: w ++ mid) d v Hd) as (x & r & E & Hx).
  destruct (word_char x Hx) as (Hxs & _).
  cbn [app]. rewrite trim_ends; [reflexivity | assumption |].
  exists x, r. split; [|assumption].
  rewrite <- E. cbn [app]. now rewrite <- app_assoc.
Qed.

Lemma parse_word (c : ascii) (w : str) :
  words (c :: w) -> is_tag (c :: w) = true ->
  parseInclusions (Some (c :: w))
  = Some (Inclusions [include_shape (c :: w)] [TTerm 0]).
Proof.
  intros H T. destruct (word_as_token H) as (Tr & Ts & _).
  unfold parseInclusions, is_blank. rewrite Ts, Tr. cbn [negb orb].
  rewrite tokens_word by assumption. cbn [fold_left].
  now rewrite add_tag.
Qed.

Lemma parse_and_of_words (c : ascii) (w : str) (d : ascii) (v : str) :
  words (c :: w) -> is_tag (c :: w) = true ->
  words (d :: v) -> is_tag (d :: v) = true ->
  parseInclusions (Some ((c :: w) ++ " AND "%string ++ d :: v))
  = Some (Inclusions [include_shape (c :: w); include_shape (d :: v)]
                     [TTerm 0; TAnd; TTerm 1]).
Proof.
  intros Hc Tc Hd Td.
  destruct (word_as_token Hc) as (T1 & T2 & _).
  destruct (word_as_token Hd) as (T3 & T4 & _).
  unfold parseInclusions. rewrite not_blank by assumption.
  unfold tokens. rewrite split_at_and by (assumption || discriminate).
  cbn [flat_map]. rewrite T2, T4.
  change (truthy ("AND"%string : str) && truthy (trim ("AND"%string : str)))
    with true.
  cbn [truthy andb app fold_left].
  rewrite add_tag by assumption.
  change (add_token (Some ?i) ("AND"%string : str))
    with (Some (Inclusions (terms i) (expression i ++ [TAnd]))).
  now rewrite add_tag.
Qed.


Lemma parse_or_of_words (c : ascii) (w : str) (d : ascii) (v : str) :
  words (c :: w) -> is_tag (c :: w) = true ->
  words (d :: v) -> is_tag (d :: v) = true ->
  parseInclusions (Some ((c :: w) ++ " OR "%string ++ d :: v))
  = Some (Inclusions [include_shape (c :: w); include_shape (d :: v)]
                     [TTerm 0; TOr; TTerm 1]).
Proof.
  intros Hc Tc Hd Td.
  destruct (word_as_token Hc) as (T1 & T2 & _).
  destruct (word_as_token Hd) as (T3 & T4 & _).
  unfold parseInclusions. rewrite not_blank by assumption.
  unfold tokens. rewrite split_at_or by (assumption || discriminate).
  cbn [flat_map]. rewrite T2, T4.
  change (truthy ("OR"%string : str) && truthy (trim ("OR"%string : str)))
    with true.
  cbn [truthy andb app fold_left].
  rewrite add_tag by assumption.
  change (add_token (Some ?i) ("OR"%string : str))
    with (Some (Inclusions (terms i) (expression i ++ [TOr]))).
  now rewrite add_tag.
Qed.

Lemma compile_parsed (query excludeString : option str) (t : regex)
    (ts : list regex) (toks : list etok) (body : expr) :
  parseInclusions query = Some (Inclusions (t :: ts) toks) ->
  parse_expression toks = Some body ->
  compile query excludeString
  = Filter (Compiled (map exclude_shape (exclude_tags excludeString)) (t :: ts) body).
Proof.
  intros P B. unfold compile. rewrite parseExclusions_terms, P.
  cbn [terms expression length Nat.eqb]. rewrite andb_false_r. now rewrite B.
Qed.

(** An include query that is one word is one tag, and the filter is the
    test of its pattern; two words joined by [AND] give the filter that
    asks for both, two words joined by [OR] the filter that asks for one of
    them; in each case an exclusion that matches comes first.  A word is
    a tag unless it is one of the three keywords. *)
Theorem words_joined_by_and_or :
  forall a b excludeString,
    words a -> a <> [] -> is_tag a = true ->
    words b -> b <> [] -> is_tag b = true ->
    let Ex := map exclude_shape (exclude_tags excludeString) in
    let A := include_shape a in
    let B := include_shape b in
    compile (Some a) excludeString = Filter (Compiled Ex [A] (ETerm 0)) /\
    compile (Some (a ++ " AND "%string ++ b)) excludeString
    = Filter (Compiled Ex [A; B] (EAnd (ETerm 0) (ETerm 1))) /\
    compile (Some (a ++ " OR "%string ++ b)) excludeString
    = Filter (Compiled Ex [A; B] (EOr (ETerm 0) (ETerm 1))) /\
    forall prompt,
      let p := or_empty prompt in
      let excluded := existsb (fun r => Js.test r p) Ex in
      test (Compiled Ex [A] (ETerm 0)) prompt
      = Val (negb excluded && Js.test A p) /\
      test (Compiled Ex [A; B] (EAnd (ETerm 0) (ETerm 1))) prompt
      = Val (negb excluded && (Js.test A p && Js.test B p)) /\
      test (Compiled Ex [A; B] (EOr (ETerm 0) (ETerm 1))) prompt
      = Val (negb excluded && (Js.test A p || Js.test B p)).
Proof.
  intros a b excludeString Ha Na Ta Hb Nb Tb Ex A B.
  destruct a as [|c w]; [contradiction|]. destruct b as [|d v]; [contradiction|].
  split; [|split; [|split]].
  - apply compile_parsed with (toks := [TTerm 0]); [now apply parse_word | reflexivity].
  - apply compile_parsed with (toks := [TTerm 0; TAnd; TTerm 1]);
      [now apply parse_and_of_words | reflexivity].
  - apply compile_parsed with (toks := [TTerm 0; TOr; TTerm 1]);
      [now apply parse_or_of_words | reflexivity].
  - intros prompt p excluded. unfold test, call. fold p. fold excluded.
    cbn [eval operand nth_error].
    destruct excluded; cbn [negb andb]; [repeat split|].
    destruct (Js.test A p), (Js.test B p); repeat split.
Qed.

Lemma words_joined_by_and_or_witness :
  compile (Some ("cat AND dog"%string : str)) (Some ("boy"%string : str))
  = Filter (Compiled [exclude_shape "boy"%string]
                     [include_shape "cat"%string; include_shape "dog"%string]
                     (EAnd (ETerm 0) (ETerm 1))) /\
  test (Compiled [exclude_shape "boy"%string]
                 [include_shape "cat"%string; include_shape "dog"%string]
                 (EOr (ETerm 0) (ETerm 1)))
       (Some ("a dog"%string : str)) = Val true.
Proof.
  destruct (@words_joined_by_and_or ("cat"%string : str) ("dog"%string : str)
              (Some ("boy"%string : str)))
    as (_ & C & _ & T); try reflexivity; try discriminate.
  split; [exact C|].
  exact (proj2 (proj2 (T (Some ("a dog"%string : str))))).
Defined.

(** *** The expressions the engine accepts *)

Lemma parse_steady (f : nat) :
  steady parse_or f /\ steady_tail or_tail f /\
  steady parse_and f /\ steady_tail and_tail f /\
  steady parse_unary f /\
  steady parse_call f /\ steady_tail call_tail f /\
  steady parse_primary f.
Proof.
  induction f as [|f (IHor & IHort & IHand & IHandt & IHun & IHcall & IHcallt & IHprim)];
    unfold steady, steady_tail in *.
  - repeat split; intros; exfalso; auto.
  - split; [|split; [|split; [|split; [|split; [|split; [|split]]]]]].
    + intros ts H. change (parse_or (S f) ts) with
        (match parse_and f ts with POk e rest => or_tail f e rest | err => err end) in *.
      change (parse_or (S (S f)) ts) with
        (match parse_and (S f) ts with POk e rest => or_tail (S f) e rest | err => err end).
      destruct (parse_and f ts) as [e rest| |] eqn:E.
      * rewrite IHand by (rewrite E; discriminate). rewrite E. now apply IHort.
      * rewrite IHand by (rewrite E; discriminate). now rewrite E.
      * contradiction.
    + intros e ts H. destruct ts as [|[] ts]; try reflexivity.
      change (or_tail (S f) e (TOr :: ts)) with
        (match parse_and f ts with POk e2 rest => or_tail f (EOr e e2) rest | err => err end) in *.
      change (or_tail (S (S f)) e (TOr :: ts)) with
        (match parse_and (S f) ts with POk e2 rest => or_tail (S f) (EOr e e2) rest | err => err end).
      destruct (parse_and f ts) as [e2 rest| |] eqn:E.
      * rewrite IHand by (rewrite E; discriminate). rewrite E. now apply IHort.
      * rewrite IHand by (rewrite E; discriminate). now rewrite E.
      * contradiction.
    + intros ts H. change (parse_and (S f) ts) with
        (match parse_unary f ts with POk e rest => and_tail f e rest | err => err end) in *.
      change (parse_and (S (S f)) ts) with
        (match parse_unary (S f) ts with POk e rest => and_tail (S f) e rest | err => err end).
      destruct (parse_unary f ts) as [e rest| |] eqn:E.
      * rewrite IHun by (rewrite E; discriminate). rewrite E. now apply IHandt.
      * rewrite IHun by (rewrite E; discriminate). now rewrite E.
      * contradiction.
    + intros e ts H. destruct ts as [|[] ts]; try reflexivity.
      change (and_tail (S f) e (TAnd :: ts)) with
        (match parse_unary f ts with POk e2 rest => and_tail f (EAnd e e2) rest | err => err end) in *.
      change (and_tail (S (S f)) e (TAnd :: ts)) with
        (match parse_unary (S f) ts with POk e2 rest => and_tail (S f) (EAnd e e2) rest | err => err end).
      destruct (parse_unary f ts) as [e2 rest| |] eqn:E.
      * rewrite IHun by (rewrite E; discriminate). rewrite E. now apply IHandt.
      * rewrite IHun by (rewrite E; discriminate). now rewrite E.
      * contradiction.
    + intros ts H. destruct ts as [|t ts].
      * change (parse_unary (S (S f)) []) with (parse_call (S f) []).
        change (parse_unary (S f) []) with (parse_call f []) in *. now apply IHcall.
      * destruct t;
          try (change (parse_unary (S (S f)) (?t :: ts)) with (parse_call (S f) (t :: ts));
               change (parse_unary (S f) (?t :: ts)) with (parse_call f (t :: ts)) in *;
               now apply IHcall).
        change (parse_unary (S f) (TNot :: ts)) with
          (match parse_unary f ts with POk e rest => POk (ENot e) rest | err => err end) in *.
        change (parse_unary (S (S f)) (TNot :: ts)) with
          (match parse_unary (S f) ts with POk e rest => POk (ENot e) rest | err => err end).
        destruct (parse_unary f ts) as [e rest| |] eqn:E.
        -- rewrite IHun by (rewrite E; discriminate). now rewrite E.
        -- rewrite IHun by (rewrite E; discriminate). now rewrite E.
        -- contradiction.
    + intros ts H. change (parse_call (S f) ts) with
        (match parse_primary f ts with POk e rest => call_tail f e rest | err => err end) in *.
      change (parse_call (S (S f)) ts) with
        (match parse_primary (S f) ts with POk e rest => call_tail (S f) e rest | err => err end).
      destruct (parse_primary f ts) as [e rest| |] eqn:E.
      * rewrite IHprim by (rewrite E; discriminate). rewrite E. now apply IHcallt.
      * rewrite IHprim by (rewrite E; discriminate). now rewrite E.
      * contradiction.
    + intros e ts H. destruct ts as [|[] ts]; try reflexivity.
      destruct ts as [|t ts].
      * change (call_tail (S f) e [TLP]) with
          (match parse_or f [] with
           | POk a (TRP :: rest) => call_tail f (ECall1 e a) rest
           | POk _ _ => PSyntaxError
           | err => err end) in *.
        change (call_tail (S (S f)) e [TLP]) with
          (match parse_or (S f) [] with
           | POk a (TRP :: rest) => call_tail (S f) (ECall1 e a) rest
           | POk _ _ => PSyntaxError
           | err => err end).
        destruct (parse_or f []) as [a rest| |] eqn:E.
        -- rewrite IHor by (rewrite E; discriminate). rewrite E.
           destruct rest as [|[] rest]; try reflexivity. now apply IHcallt.
        -- rewrite IHor by (rewrite E; discriminate). now rewrite E.
        -- contradiction.
      * destruct t;
          try (change (call_tail (S f) e (TLP :: ?t :: ts)) with
                 (match parse_or f (t :: ts) with
                  | POk a (TRP :: rest) => call_tail f (ECall1 e a) rest
                  | POk _ _ => PSyntaxError
                  | err => err end) in *;
               change (call_tail (S (S f)) e (TLP :: ?t :: ts)) with
                 (match parse_or (S f) (t :: ts) with
                  | POk a (TRP :: rest) => call_tail (S f) (ECall1 e a) rest
                  | POk _ _ => PSyntaxError
                  | err => err end);
               match goal with
               | |- context [parse_or (S f) ?l] =>
                   destruct (parse_or f l) as [a rest| |] eqn:E;
                   [ rewrite IHor by (rewrite E; discriminate); rewrite E;
                     destruct rest as [|[] rest]; try reflexivity; now apply IHcallt
                   | rewrite IHor by (rewrite E; discriminate); now rewrite E
                   | contradiction ]
               end).
        change (call_tail (S (S f)) e (TLP :: TRP :: ts)) with (call_tail (S f) (ECall0 e) ts).
        change (call_tail (S f) e (TLP :: TRP :: ts)) with (call_tail f (ECall0 e) ts) in *.
        now apply IHcallt.
    + intros ts H. destruct ts as [|[] ts]; try reflexivity.
      change (parse_primary (S f) (TLP :: ts)) with
        (match parse_or f ts with
         | POk e (TRP :: rest) => POk e rest
         | POk _ _ => PSyntaxError
         | err => err end) in *.
      change (parse_primary (S (S f)) (TLP :: ts)) with
        (match parse_or (S f) ts with
         | POk e (TRP :: rest) => POk e rest
         | POk _ _ => PSyntaxError
         | err => err end).
      destruct (parse_or f ts) as [e rest| |] eqn:E.
      * rewrite IHor by (rewrite E; discriminate). now rewrite E.
      * rewrite IHor by (rewrite E; discriminate). now rewrite E.
      * contradiction.
Qed.


Lemma steady_from (p : nat -> list etok -> presult) :
  (forall f, steady p f) ->
  forall f ts, p f ts <> POutOfFuel -> forall f', f <= f' -> p f' ts = p f ts.
Proof.
  intros S f ts H f' L. induction L as [|f' L IH]; [reflexivity|].
  rewrite <- IH. apply S. now rewrite IH.
Qed.

(** *** One step of each reader *)

Lemma settles_or (ts : list etok) (e : expr) (rest : list etok) (r : presult) :
  settles parse_and ts (POk e rest) -> settles_tail or_tail e rest r ->
  settles parse_or ts r.
Proof.
  intros (f1 & H1) (f2 & H2). exists (S (max f1 f2)). intros f L.
  destruct f as [|f]; [lia|].
  change (parse_or (S f) ts) with
    (match parse_and f ts with POk e rest => or_tail f e rest | err => err end).
  rewrite H1 by lia. apply H2. lia.
Qed.

Lemma settles_or_tail_more (e e2 : expr) (ts rest : list etok) (r : presult) :
  settles parse_and ts (POk e2 rest) -> settles_tail or_tail (EOr e e2) rest r ->
  settles_tail or_tail e (TOr :: ts) r.
Proof.
  intros (f1 & H1) (f2 & H2). exists (S (max f1 f2)). intros f L.
  destruct f as [|f]; [lia|].
  change (or_tail (S f) e (TOr :: ts)) with
    (match parse_and f ts with POk e2 rest => or_tail f (EOr e e2) rest | err => err end).
  rewrite H1 by lia. apply H2. lia.
Qed.

Lemma settles_or_tail_stop (e : expr) (ts : list etok) :
  match ts with TOr :: _ => False | _ => True end ->
  settles_tail or_tail e ts (POk e ts).
Proof.
  intros H. exists 1. intros f L. destruct f as [|f]; [lia|].
  destruct ts as [|[] ts]; try reflexivity. contradiction.
Qed.

Lemma settles_and (ts : list etok) (e : expr) (rest : list etok) (r : presult) :
  settles parse_unary ts (POk e rest) -> settles_tail and_tail e rest r ->
  settles parse_and ts r.
Proof.
  intros (f1 & H1) (f2 & H2). exists (S (max f1 f2)). intros f L.
  destruct f as [|f]; [lia|].
  change (parse_and (S f) ts) with
    (match parse_unary f ts with POk e rest => and_tail f e rest | err => err end).
  rewrite H1 by lia. apply H2. lia.
Qed.

Lemma settles_and_tail_more (e e2 : expr) (ts rest : list etok) (r : presult) :
  settles parse_unary ts (POk e2 rest) -> settles_tail and_tail (EAnd e e2) rest r ->
  settles_tail and_tail e (TAnd :: ts) r.
Proof.
  intros (f1 & H1) (f2 & H2). exists (S (max f1 f2)). intros f L.
  destruct f as [|f]; [lia|].
  change (and_tail (S f) e (TAnd :: ts)) with
    (match parse_unary f ts with POk e2 rest => and_tail f (EAnd e e2) rest | err => err end).
  rewrite H1 by lia. apply H2. lia.
Qed.

Lemma settles_and_tail_stop (e : expr) (ts : list etok) :
  match ts with TAnd :: _ => False | _ => True end ->
  settles_tail and_tail e ts (POk e ts).
Proof.
  intros H. exists 1. intros f L. destruct f as [|f]; [lia|].
  destruct ts as [|[] ts]; try reflexivity. contradiction.
Qed.

Lemma settles_not (ts : list etok) (e : expr) (rest : list etok) :
  settles parse_unary ts (POk e rest) ->
  settles parse_unary (TNot :: ts) (POk (ENot e) rest).
Proof.
  intros (f1 & H1). exists (S f1). intros f L. destruct f as [|f]; [lia|].
  change (parse_unary (S f) (TNot :: ts)) with
    (match parse_unary f ts with POk e rest => POk (ENot e) rest | err => err end).
  now rewrite H1 by lia.
Qed.

Lemma settles_unary_call (ts : list etok) (r : presult) :
  starts_call ts -> settles parse_call ts r -> settles parse_unary ts r.
Proof.
  intros St (f1 & H1). exists (S f1). intros f L. destruct f as [|f]; [lia|].
  destruct ts as [|[] ts]; try contradiction;
    match goal with
    | |- parse_unary (S f) ?l = _ =>
        change (parse_unary (S f) l) with (parse_call f l); apply H1; lia
    end.
Qed.

Lemma settles_call (ts : list etok) (e : expr) (rest : list etok) (r : presult) :
  settles parse_primary ts (POk e rest) -> settles_tail call_tail e rest r ->
  settles parse_call ts r.
Proof.
  intros (f1 & H1) (f2 & H2). exists (S (max f1 f2)). intros f L.
  destruct f as [|f]; [lia|].
  change (parse_call (S f) ts) with
    (match parse_primary f ts with POk e rest => call_tail f e rest | err => err end).
  rewrite H1 by lia. apply H2. lia.
Qed.

Lemma settles_call_tail_stop (e : expr) (ts : list etok) :
  no_call ts -> settles_tail call_tail e ts (POk e ts).
Proof.
  intros H. exists 1. intros f L. destruct f as [|f]; [lia|].
  destruct ts as [|[] ts]; try reflexivity. contradiction.
Qed.

Lemma settles_call_tail_empty (e : expr) (ts : list etok) (r : presult) :
  settles_tail call_tail (ECall0 e) ts r ->
  settles_tail call_tail e (TLP :: TRP :: ts) r.
Proof.
  intros (f1 & H1). exists (S f1). intros f L. destruct f as [|f]; [lia|].
  change (call_tail (S f) e (TLP :: TRP :: ts)) with (call_tail f (ECall0 e) ts).
  apply H1. lia.
Qed.

Lemma settles_call_tail_arg (e a : expr) (ts rest : list etok) (r : presult) :
  starts ts ->
  settles parse_or ts (POk a (TRP :: rest)) ->
  settles_tail call_tail (ECall1 e a) rest r ->
  settles_tail call_tail e (TLP :: ts) r.
Proof.
  intros St (f1 & H1) (f2 & H2). exists (S (max f1 f2)). intros f L.
  destruct f as [|f]; [lia|].
  destruct ts as [|[] ts]; try contradiction;
    match goal with
    | |- call_tail (S f) e (TLP :: ?l) = _ =>
        change (call_tail (S f) e (TLP :: l)) with
          (match parse_or f l with
           | POk a (TRP :: rest) => call_tail f (ECall1 e a) rest
           | POk _ _ => PSyntaxError
           | err => err end);
        rewrite H1 by lia; apply H2; lia
    end.
Qed.

Lemma settles_paren (ts : list etok) (e : expr) (rest : list etok) :
  settles parse_or ts (POk e (TRP :: rest)) ->
  settles parse_primary (TLP :: ts) (POk e rest).
Proof.
  intros (f1 & H1). exists (S f1). intros f L. destruct f as [|f]; [lia|].
  change (parse_primary (S f) (TLP :: ts)) with
    (match parse_or f ts with
     | POk e (TRP :: rest) => POk e rest
     | POk _ _ => PSyntaxError
     | err => err end).
  now rewrite H1 by lia.
Qed.

Lemma settles_leaf (t : etok) (e : expr) (rest : list etok) :
  (t = TTrue /\ e = ETrue) \/ (exists i, t = TTerm i /\ e = ETerm i) ->
  settles parse_primary (t :: rest) (POk e rest).
Proof.
  intros H. exists 1. intros f L. destruct f as [|f]; [lia|].
  destruct H as [(-> & ->) | (i & -> & ->)]; reflexivity.
Qed.

(** *** How an expression of the grammar starts *)

Lemma grammar_starts :
  (forall ts e, g_or ts e -> starts ts) /\ (forall ts e, g_and ts e -> starts ts) /\
  (forall ts e, g_unary ts e -> starts ts) /\
  (forall ts e, g_call ts e -> starts_call ts).
Proof.
  apply grammar_ind; cbn beta; try (intros; exact I); auto.
  - intros ts1 e1 ts2 e2 _ S _ _. destruct ts1 as [|[] ts1]; try contradiction; exact I.
  - intros ts1 e1 ts2 e2 _ S _ _. destruct ts1 as [|[] ts1]; try contradiction; exact I.
  - intros ts e _ S. destruct ts as [|[] ts]; try contradiction; exact I.
  - intros ts f _ S. destruct ts as [|[] ts]; try contradiction; exact I.
  - intros ts f us a _ S _ _. destruct ts as [|[] ts]; try contradiction; exact I.
Qed.

(** *** The reader accepts every expression of the grammar *)

Lemma grammar_settles :
  (forall ts e, g_or ts e ->
     forall rest r, no_and rest -> settles_tail or_tail e rest r ->
                    settles parse_or (ts ++ rest) r) /\
  (forall ts e, g_and ts e ->
     forall rest r, no_call rest -> settles_tail and_tail e rest r ->
                    settles parse_and (ts ++ rest) r) /\
  (forall ts e, g_unary ts e ->
     forall rest, no_call rest -> settles parse_unary (ts ++ rest) (POk e rest)) /\
  (forall ts e, g_call ts e ->
     forall rest r, settles_tail call_tail e rest r ->
                    settles parse_call (ts ++ rest) r).
Proof.
  assert (NA : forall rest, no_and rest ->
            no_call rest /\ match rest with TAnd :: _ => False | _ => True end).
  { intros [|[] rest] H; try contradiction; now split. }
  apply grammar_ind; cbn beta.
  - intros ts e _ IH rest r F T. destruct (NA rest F) as (F1 & F2).
    apply settles_or with (e := e) (rest := rest); [|exact T].
    apply IH; [exact F1 | now apply settles_and_tail_stop].
  - intros ts1 e1 ts2 e2 _ IH1 _ IH2 rest r F T. destruct (NA rest F) as (F1 & F2).
    rewrite <- app_assoc. apply IH1; [exact I|]. cbn [app].
    apply settles_or_tail_more with (e2 := e2) (rest := rest); [|exact T].
    apply IH2; [exact F1 | now apply settles_and_tail_stop].
  - intros ts e _ IH rest r F T.
    apply settles_and with (e := e) (rest := rest); [|exact T]. now apply IH.
  - intros ts1 e1 ts2 e2 _ IH1 _ IH2 rest r F T.
    rewrite <- app_assoc. apply IH1; [exact I|]. cbn [app].
    apply settles_and_tail_more with (e2 := e2) (rest := rest); [|exact T].
    now apply IH2.
  - intros ts e G IH rest F.
    apply settles_unary_call.
    + destruct grammar_starts as (_ & _ & _ & S). specialize (S _ _ G).
      destruct ts as [|[] ts]; try contradiction; exact I.
    + apply IH. now apply settles_call_tail_stop.
  - intros ts e _ IH rest F. cbn [app]. apply settles_not. now apply IH.
  - intros i rest r T. cbn [app].
    apply settles_call with (e := ETerm i) (rest := rest); [|exact T].
    apply settles_leaf. right. now exists i.
  - intros rest r T. cbn [app].
    apply settles_call with (e := ETrue) (rest := rest); [|exact T].
    apply settles_leaf. now left.
  - intros ts e _ IH rest r T. cbn [app]. rewrite <- app_assoc. cbn [app].
    apply settles_call with (e := e) (rest := rest); [|exact T].
    apply settles_paren. apply IH; [exact I|].
    now apply settles_or_tail_stop.
  - intros ts f _ IH rest r T. rewrite <- app_assoc. cbn [app].
    apply IH. now apply settles_call_tail_empty.
  - intros ts f us a _ IH1 G IH2 rest r T. rewrite <- app_assoc. cbn [app].
    apply IH1. rewrite <- app_assoc. cbn [app].
    apply settles_call_tail_arg with (a := a) (rest := rest); [| |exact T].
    + destruct grammar_starts as (S & _). specialize (S _ _ G).
      destruct us as [|[] us]; try contradiction; exact I.
    + apply IH2; [exact I|]. now apply settles_or_tail_stop.
Qed.

Lemma parse_expression_complete (ts : list etok) (e : expr) :
  g_or ts e -> parse_expression ts = Some e.
Proof.
  intros G. destruct grammar_settles as (S & _).
  destruct (S ts e G [] (POk e [])) as (f0 & H).
  { exact I. }
  { now apply settles_or_tail_stop. }
  rewrite app_nil_r in H. unfold parse_expression.
  pose proof (parse_expression_fuel ts) as F.
  assert (St : forall f, steady parse_or f) by (intros f; apply parse_steady).
  pose proof (@steady_from parse_or St (5 * length ts + 5) ts F
                (max f0 (5 * length ts + 5))) as M.
  rewrite <- M by lia. now rewrite H by lia.
Qed.

(** The engine accepts the expression of an include query exactly when it
    is an expression of the precedence grammar, and reads it in one way
    only.  So, for a query with a tag or an exclusion list with a term,
    [compile] gives the filter of the tree of the expression when there is
    one, and ends with the message about the logic syntax when there is
    none; the constructor of a pattern never throws. *)
Theorem compile_accepts_the_grammar :
  (forall ts e, parse_expression ts = Some e <-> g_or ts e) /\
  (forall ts e e', g_or ts e -> g_or ts e' -> e = e') /\
  (forall query excludeString inc,
      parseInclusions query = Some inc ->
      include_tags query <> [] \/ exclude_tags excludeString <> [] ->
      (forall body,
          g_or (expression inc) body ->
          compile query excludeString
          = Filter (Compiled (map exclude_shape (exclude_tags excludeString))
                             (terms inc) body)) /\
      ((forall body, ~ g_or (expression inc) body) ->
       compile query excludeString = InvalidLogicSyntax)) /\
  (forall query excludeString, compile query excludeString <> RegExpSyntaxError).
Proof.
  assert (Iff : forall ts e, parse_expression ts = Some e <-> g_or ts e).
  { intros ts e. split; [apply parse_expression_sound | apply parse_expression_complete]. }
  split; [exact Iff|]. split; [|split].
  - intros ts e e' G G'. apply Iff in G, G'. congruence.
  - intros query excludeString inc P N.
    assert (C : compile query excludeString
                = match parse_expression (expression inc) with
                  | Some body =>
                      Filter (Compiled (map exclude_shape (exclude_tags excludeString))
                                       (terms inc) body)
                  | None => InvalidLogicSyntax
                  end).
    { unfold compile. rewrite parseExclusions_terms, P.
      destruct (parseInclusions_terms query) as (inc' & P' & T).
      rewrite P in P'. inversion P'; subst inc'. rewrite T, !length_map.
      destruct N as [N | N].
      - destruct (include_tags query); [contradiction|].
        cbn [length Nat.eqb]. now rewrite andb_false_r.
      - destruct (exclude_tags excludeString); [contradiction|]. reflexivity. }
    rewrite C. split.
    + intros body G. apply Iff in G. now rewrite G.
    + intros G. destruct (parse_expression (expression inc)) as [body|] eqn:E;
        [|reflexivity].
      apply Iff in E. exfalso. exact (G body E).
  - intros query excludeString. unfold compile. rewrite parseExclusions_terms.
    destruct (parseInclusions_terms query) as (inc & -> & _).
    destruct (_ && _); [discriminate|].
    destruct (parse_expression (expression inc)); discriminate.
Qed.

Lemma compile_accepts_the_grammar_witness :
  compile (Some ("cat AND (dog OR bird)"%string : str)) None
  = Filter (Compiled []
              [include_shape "cat"%string; include_shape "dog"%string;
               include_shape "bird"%string]
              (EAnd (ETerm 0) (EOr (ETerm 1) (ETerm 2)))) /\
  compile (Some ("(cat OR dog"%string : str)) None = InvalidLogicSyntax.
Proof.
  destruct compile_accepts_the_grammar as (Iff & _ & C & _).
  split.
  - destruct (C (Some ("cat AND (dog OR bird)"%string : str)) None
                (Inclusions [include_shape "cat"%string; include_shape "dog"%string;
                             include_shape "bird"%string]
                            [TTerm 0; TAnd; TLP; TTerm 1; TOr; TTerm 2; TRP]))
      as (A & _).
    + vm_compute. reflexivity.
    + left. vm_compute. discriminate.
    + apply A. apply Iff. vm_compute. reflexivity.
  - destruct (C (Some ("(cat OR dog"%string : str)) None
                (Inclusions [include_shape "cat"%string; include_shape "dog"%string]
                            [TLP; TTerm 0; TOr; TTerm 1]))
      as (_ & B).
    + vm_compute. reflexivity.
    + left. vm_compute. discriminate.
    + apply B. intros body G. apply Iff in G. vm_compute in G. discriminate G.
Defined.

(** *** A negation *)

Lemma star_space_stop (prev : option ascii) (c : ascii) (rest : str)
    (caps : list (nat * str)) (k : mstate -> option mstate) :
  is_space c = false ->
  rmatch (Star CSpace) (MState prev (c :: rest) caps) k
  = k (MState prev (c :: rest) caps).
Proof.
  intros H. cbn [rmatch m_rest m_caps m_prev star_loop].
  change (cmatch CSpace c) with (is_space c). now rewrite H.
Qed.

Lemma star_space_end (prev : option ascii) (caps : list (nat * str))
    (k : mstate -> option mstate) :
  rmatch (Star CSpace) (MState prev [] caps) k = k (MState prev [] caps).
Proof. reflexivity. Qed.

Lemma star_space_one (prev : option ascii) (c : ascii) (rest : str)
    (caps : list (nat * str)) (k : mstate -> option mstate) :
  is_space c = false ->
  rmatch (Star CSpace) (MState prev (" "%char :: c :: rest) caps) k
  = match k (MState (Some " "%char) (c :: rest) caps) with
    | Some r => Some r
    | None => k (MState prev (" "%char :: c :: rest) caps)
    end.
Proof.
  intros H. cbn [rmatch m_rest m_caps m_prev star_loop].
  change (cmatch CSpace " ") with true. change (cmatch CSpace c) with (is_space c).
  now rewrite H.
Qed.

Lemma parenthesis_open (prev : option ascii) (rest : str) (caps : list (nat * str))
    (k : mstate -> option mstate) :
  rmatch parenthesis (MState prev ("("%char :: rest) caps) k
  = k (MState (Some "("%char) rest ((2, ["("%char]) :: caps)).
Proof.
  unfold parenthesis. rewrite rmatch_group, rmatch_alt.
  cbn [rmatch m_rest m_caps m_prev].
  change (cmatch (CLit "(") "(") with true. cbn iota.
  change ("("%char :: rest) with (["("%char] ++ rest).
  rewrite firstn_matched.
  now destruct (k _).
Qed.

Lemma parenthesis_close (prev : option ascii) (rest : str) (caps : list (nat * str))
    (k : mstate -> option mstate) :
  rmatch parenthesis (MState prev (")"%char :: rest) caps) k
  = k (MState (Some ")"%char) rest ((2, [")"%char]) :: caps)).
Proof.
  unfold parenthesis. rewrite rmatch_group, rmatch_alt.
  cbn [rmatch m_rest m_caps m_prev].
  change (cmatch (CLit "(") ")") with false. change (cmatch (CLit ")") ")") with true.
  cbn iota.
  change (")"%char :: rest) with ([")"%char] ++ rest).
  now rewrite firstn_matched.
Qed.

Lemma separator_at_open (prev : option ascii) (c : ascii) (rest : str) :
  is_space c = false ->
  exec_at separator prev (" ("%string ++ c :: rest)
  = Some (MState (Some "("%char) (c :: rest) [(2, ["("%char])]).
Proof.
  intros H. unfold exec_at, separator.
  change (" ("%string ++ c :: rest) with (" "%char :: "("%char :: c :: rest).
  rewrite rmatch_alt, rmatch_seq, plus_space_one by reflexivity.
  rewrite (@keyword_at _ _ "("%char (c :: rest)) by reflexivity.
  rewrite rmatch_seq, star_space_one by reflexivity.
  rewrite rmatch_seq, parenthesis_open, star_space_stop by assumption.
  reflexivity.
Qed.

Lemma separator_at_close (prev : option ascii) :
  exec_at separator prev [")"%char]
  = Some (MState (Some ")"%char) [] [(2, [")"%char])]).
Proof. reflexivity. Qed.


Lemma split_not_parenthesis (prev : option ascii) (c : ascii) (b : str) :
  words (c :: b) ->
  split_go separator 2 0 [] prev ("NOT ("%string ++ (c :: b) ++ ")"%string)
  = [Some ("NOT"%string : str); None; Some ("("%string : str);
     Some (c :: b); None; Some (")"%string : str); Some []].
Proof.
  intros H. destruct (word_char c (words_head H)) as (Hs & _).
  change ("NOT ("%string ++ (c :: b) ++ ")"%string)
    with (("NOT"%string : str) ++ " ("%string ++ c :: (b ++ ")"%string)).
  rewrite split_go_word by reflexivity. rewrite app_nil_r.
  assert (L : length (" ("%string ++ c :: (b ++ ")"%string))
              - length (c :: (b ++ ")"%string)) = 2)
    by (rewrite length_app; cbn [length list_ascii_of_string]; lia).
  change (" ("%string ++ c :: (b ++ ")"%string))
    with (" "%char :: (("("%string : str) ++ c :: (b ++ ")"%string))) at 1.
  cbn [split_go].
  change (" "%char :: (("("%string : str) ++ c :: (b ++ ")"%string)))
    with (" ("%string ++ c :: (b ++ ")"%string)).
  rewrite separator_at_open by assumption. cbn [m_rest m_caps]. rewrite L.
  change (split_go separator 2 1 [] (Some " "%char)
            (("("%string : str) ++ c :: b ++ ")"%string))
    with (split_go separator 2 (length ("("%string : str)) [] (Some " "%char)
            (("("%string : str) ++ (c :: b) ++ ")"%string)).
  rewrite split_go_skip.
  rewrite split_go_word by assumption. rewrite app_nil_r.
  cbn [split_go list_ascii_of_string]. rewrite separator_at_close.
  cbn [m_rest m_caps length Nat.sub].
  rewrite !rev_involutive. reflexivity.
Qed.

Lemma separator_at_and_then (prev : option ascii) (c : ascii) (rest : str) :
  is_space c = false ->
  exec_at separator prev (" AND "%string ++ c :: rest)
  = Some (MState (Some " "%char) (c :: rest) [(1, ("AND"%string : str))]).
Proof.
  intros Hs. unfold exec_at, separator.
  change (" AND "%string ++ c :: rest)
    with (" "%char :: "A"%char :: (("ND"%string : str) ++ " "%char :: c :: rest)).
  rewrite rmatch_alt, rmatch_seq, plus_space_one by reflexivity.
  rewrite rmatch_seq. unfold keyword. rewrite rmatch_group, rmatch_alt.
  change ("A"%char :: (("ND"%string : str) ++ " "%char :: c :: rest))
    with (("AND"%string : str) ++ " "%char :: c :: rest).
  rewrite lit_match. cbn [m_rest m_prev m_caps].
  rewrite firstn_matched, plus_space_one by assumption. reflexivity.
Qed.

Lemma split_and_not (a : str) (c : ascii) (b : str) :
  words a -> a <> [] -> words (c :: b) ->
  split separator 2 (a ++ " AND NOT ("%string ++ (c :: b) ++ ")"%string)
  = [Some a; Some ("AND"%string : str); None;
     Some ("NOT"%string : str); None; Some ("("%string : str);
     Some (c :: b); None; Some (")"%string : str); Some []].
Proof.
  intros Ha Na Hb. unfold split.
  destruct (a ++ " AND NOT ("%string ++ (c :: b) ++ ")"%string) as [|x q] eqn:E.
  { destruct a; [contradiction | discriminate]. }
  rewrite <- E. clear E x q.
  rewrite split_go_word by assumption. rewrite app_nil_r.
  set (tail := "NOT ("%string ++ (c :: b) ++ ")"%string).
  change (" AND NOT ("%string ++ (c :: b) ++ ")"%string)
    with (" AND "%string ++ "N"%char :: (("OT ("%string : str) ++ (c :: b) ++ ")"%string)).
  assert (L : length (" AND "%string ++ "N"%char
                        :: (("OT ("%string : str) ++ (c :: b) ++ ")"%string))
              - length ("N"%char :: (("OT ("%string : str) ++ (c :: b) ++ ")"%string)) = 5)
    by (rewrite length_app; cbn [length list_ascii_of_string]; lia).
  change (" AND "%string ++ "N"%char :: (("OT ("%string : str) ++ (c :: b) ++ ")"%string))
    with (" "%char :: (("AND "%string : str) ++ "N"%char
                         :: (("OT ("%string : str) ++ (c :: b) ++ ")"%string))) at 1.
  cbn [split_go].
  change (" "%char :: (("AND "%string : str) ++ "N"%char
                         :: (("OT ("%string : str) ++ (c :: b) ++ ")"%string)))
    with (" AND "%string ++ "N"%char :: (("OT ("%string : str) ++ (c :: b) ++ ")"%string)).
  rewrite separator_at_and_then by reflexivity. cbn [m_rest m_caps]. rewrite L.
  rewrite rev_involutive.
  change (split_go separator 2 4 [] (Some " "%char)
            (("AND "%string : str) ++ "N"%char
               :: (("OT ("%string : str) ++ (c :: b) ++ ")"%string)))
    with (split_go separator 2 (length ("AND "%string : str)) [] (Some " "%char)
            (("AND "%string : str) ++ tail)).
  rewrite split_go_skip. subst tail.
  rewrite split_not_parenthesis by assumption. reflexivity.
Qed.


Lemma not_blank_closed (x : ascii) (q : str) :
  is_space x = false -> is_blank (Some (x :: q ++ ")"%string)) = false.
Proof.
  intros H. unfold is_blank. rewrite trim_ends; [reflexivity | assumption |].
  exists ")"%char, (rev q ++ [x]). split; [|reflexivity].
  cbn [rev]. now rewrite rev_app_distr.
Qed.

Lemma parse_not_of_word (c : ascii) (b : str) :
  words (c :: b) -> is_tag (c :: b) = true ->
  parseInclusions (Some ("NOT ("%string ++ (c :: b) ++ ")"%string))
  = Some (Inclusions [include_shape (c :: b)] [TNot; TLP; TTerm 0; TRP]).
Proof.
  intros Hb Tb. destruct (word_as_token Hb) as (T1 & T2 & _).
  unfold parseInclusions.
  change ("NOT ("%string ++ (c :: b) ++ ")"%string)
    with ("N"%char :: (("OT ("%string : str) ++ c :: b) ++ ")"%string) at 1.
  rewrite not_blank_closed by reflexivity.
  unfold tokens, split.
  change ("NOT ("%string ++ (c :: b) ++ ")"%string)
    with ("N"%char :: (("OT ("%string : str) ++ (c :: b) ++ ")"%string)) at 1.
  cbn iota.
  rewrite split_not_parenthesis by assumption.
  cbn [flat_map]. rewrite T2.
  change (truthy ("NOT"%string : str) && truthy (trim ("NOT"%string : str))) with true.
  change (truthy ("("%string : str) && truthy (trim ("("%string : str))) with true.
  change (truthy (")"%string : str) && truthy (trim (")"%string : str))) with true.
  cbn [truthy andb app fold_left].
  change (add_token (Some ?i) ("NOT"%string : str))
    with (Some (Inclusions (terms i) (expression i ++ [TNot]))).
  change (add_token (Some ?i) ("("%string : str))
    with (Some (Inclusions (terms i) (expression i ++ [TLP]))).
  rewrite add_tag by assumption.
  reflexivity.
Qed.

Lemma parse_and_not_of_words (x : ascii) (a : str) (c : ascii) (b : str) :
  words (x :: a) -> is_tag (x :: a) = true ->
  words (c :: b) -> is_tag (c :: b) = true ->
  parseInclusions (Some ((x :: a) ++ " AND NOT ("%string ++ (c :: b) ++ ")"%string))
  = Some (Inclusions [include_shape (x :: a); include_shape (c :: b)]
                     [TTerm 0; TAnd; TNot; TLP; TTerm 1; TRP]).
Proof.
  intros Ha Ta Hb Tb.
  destruct (word_as_token Ha) as (_ & A2 & _).
  destruct (word_as_token Hb) as (_ & B2 & _).
  destruct (word_char x (words_head Ha)) as (Hs & _).
  unfold parseInclusions.
  replace ((x :: a) ++ " AND NOT ("%string ++ (c :: b) ++ ")"%string)
    with (x :: (a ++ " AND NOT ("%string ++ c :: b) ++ ")"%string) at 1
    by (cbn [app]; now rewrite <- !app_assoc).
  rewrite not_blank_closed by assumption.
  unfold tokens. rewrite split_and_not by (assumption || discriminate).
  cbn [flat_map]. rewrite A2, B2.
  change (truthy ("AND"%string : str) && truthy (trim ("AND"%string : str))) with true.
  change (truthy ("NOT"%string : str) && truthy (trim ("NOT"%string : str))) with true.
  change (truthy ("("%string : str) && truthy (trim ("("%string : str))) with true.
  change (truthy (")"%string : str) && truthy (trim (")"%string : str))) with true.
  cbn [truthy andb app fold_left].
  rewrite add_tag by assumption.
  change (add_token (Some ?i) ("AND"%string : str))
    with (Some (Inclusions (terms i) (expression i ++ [TAnd]))).
  change (add_token (Some ?i) ("NOT"%string : str))
    with (Some (Inclusions (terms i) (expression i ++ [TNot]))).
  change (add_token (Some ?i) ("("%string : str))
    with (Some (Inclusions (terms i) (expression i ++ [TLP]))).
  rewrite add_tag by assumption.
  reflexivity.
Qed.

(** A negation is read when [NOT] stands before a parenthesis: for a word
    [b], the query [NOT (b)] gives the filter that refuses the prompts
    where [b] occurs, and [a AND NOT (b)] the filter that asks for [a]
    without [b]; an exclusion that matches comes first. *)
Theorem negation_before_a_parenthesis :
  forall a b excludeString,
    words a -> a <> [] -> is_tag a = true ->
    words b -> b <> [] -> is_tag b = true ->
    let Ex := map exclude_shape (exclude_tags excludeString) in
    let A := include_shape a in
    let B := include_shape b in
    compile (Some ("NOT ("%string ++ b ++ ")"%string)) excludeString
    = Filter (Compiled Ex [B] (ENot (ETerm 0))) /\
    compile (Some (a ++ " AND NOT ("%string ++ b ++ ")"%string)) excludeString
    = Filter (Compiled Ex [A; B] (EAnd (ETerm 0) (ENot (ETerm 1)))) /\
    forall prompt,
      let p := or_empty prompt in
      let excluded := existsb (fun r => Js.test r p) Ex in
      test (Compiled Ex [B] (ENot (ETerm 0))) prompt
      = Val (negb excluded && negb (Js.test B p)) /\
      test (Compiled Ex [A; B] (EAnd (ETerm 0) (ENot (ETerm 1)))) prompt
      = Val (negb excluded && (Js.test A p && negb (Js.test B p))).
Proof.
  intros a b excludeString Ha Na Ta Hb Nb Tb Ex A B.
  destruct a as [|x a]; [contradiction|]. destruct b as [|c b]; [contradiction|].
  split; [|split].
  - apply compile_parsed with (toks := [TNot; TLP; TTerm 0; TRP]);
      [now apply parse_not_of_word | reflexivity].
  - apply compile_parsed with (toks := [TTerm 0; TAnd; TNot; TLP; TTerm 1; TRP]);
      [now apply parse_and_not_of_words | reflexivity].
  - intros prompt p excluded. unfold test, call. fold p. fold excluded.
    cbn [eval operand nth_error].
    destruct excluded; cbn [negb andb]; [repeat split|].
    destruct (Js.test A p), (Js.test B p); repeat split.
Qed.

Lemma negation_before_a_parenthesis_witness :
  compile (Some ("cat AND NOT (3d)"%string : str)) None
  = Filter (Compiled [] [include_shape "cat"%string; include_shape "3d"%string]
                     (EAnd (ETerm 0) (ENot (ETerm 1)))) /\
  test (Compiled [] [include_shape "3d"%string] (ENot (ETerm 0)))
       (Some ("a 3d render"%string : str)) = Val false.
Proof.
  destruct (@negation_before_a_parenthesis ("cat"%string : str) ("3d"%string : str) None)
    as (_ & C & T); try reflexivity; try discriminate.
  split; [exact C|].
  exact (proj1 (T (Some ("a 3d render"%string : str)))).
Defined.

End QueryFacts.

(* ================================================================== *)
(** * Facts about the layout of an include query *)
(* ================================================================== *)

Module LayoutFacts.
Import Js JsFacts TagFilter TagFilterFacts Query QueryFacts Layout.

(** *** Characters *)

Lemma plain_facts (c : ascii) :
  is_plain c = true ->
  is_space c = false /\ cmatch (CLit "(") c = false /\ cmatch (CLit ")") c = false /\
  is_space (canon c) = false /\ is_parenthesis c = false.
Proof.
  destruct c as [[] [] [] [] [] [] [] []]; vm_compute; intuition congruence.
Qed.

Lemma space_char (c : ascii) :
  is_space c = true ->
  is_plain c = false /\ is_parenthesis c = false /\
  cmatch (CLit "(") c = false /\ cmatch (CLit ")") c = false /\
  cmatch (CLit "A") c = false /\ cmatch (CLit "O") c = false /\
  cmatch (CLit "N") c = false /\ is_space (canon c) = true.
Proof.
  destruct c as [[] [] [] [] [] [] [] []]; vm_compute; intuition congruence.
Qed.

Lemma parenthesis_char (c : ascii) :
  is_parenthesis c = true ->
  (c = "("%char \/ c = ")"%char) /\ is_plain c = false /\ is_space c = false /\
  cmatch (CLit "A") c = false /\ cmatch (CLit "O") c = false /\
  cmatch (CLit "N") c = false.
Proof.
  destruct c as [[] [] [] [] [] [] [] []]; vm_compute; intuition congruence.
Qed.

Lemma cmatch_parenthesis (c : ascii) :
  cmatch (CLit "(") c = true \/ cmatch (CLit ")") c = true ->
  is_parenthesis c = true.
Proof.
  destruct c as [[] [] [] [] [] [] [] []]; vm_compute; intuition congruence.
Qed.

Lemma letter_char (c : ascii) :
  In (canon c) ["A"; "N"; "D"; "O"; "R"; "T"]%char -> is_plain c = true.
Proof.
  destruct c as [[] [] [] [] [] [] [] []]; vm_compute; intuition congruence.
Qed.

Lemma keyword_cases (w : str) :
  is_keyword w = true ->
  map canon w = ("AND"%string : str) \/ map canon w = ("OR"%string : str) \/
  map canon w = ("NOT"%string : str).
Proof.
  unfold is_keyword, keywords, toUpperCase. cbn [existsb].
  rewrite !orb_true_iff, !str_eqb_eq. intuition discriminate.
Qed.

Lemma keyword_plain (w : str) : is_keyword w = true -> chunk w = true.
Proof.
  intros H. unfold chunk.
  destruct (keyword_cases w H) as [E | [E | E]];
    repeat (destruct w as [|? w]; try discriminate E);
    cbn [map list_ascii_of_string] in E; inversion E;
    cbn [truthy forallb andb];
    repeat (rewrite letter_char by (repeat ((left; congruence) || right)));
    reflexivity.
Qed.

Lemma chunk_head (w : str) :
  chunk w = true ->
  exists c w', w = c :: w' /\ is_plain c = true /\ forallb is_plain w' = true.
Proof.
  unfold chunk. destruct w as [|c w']; [discriminate|]. simpl.
  intros H. apply andb_true_iff in H as (Hc & Hw). now exists c, w'.
Qed.

Lemma gap_head (ws : str) :
  gap ws = true ->
  exists s ws', ws = s :: ws' /\ is_space s = true /\ forallb is_space ws' = true.
Proof.
  unfold gap, blank. destruct ws as [|s ws']; [discriminate|]. simpl.
  intros H. apply andb_true_iff in H as (Hc & Hw). now exists s, ws'.
Qed.

(** *** Runs of characters *)


(** *** What the separator matches *)

Lemma matches_star_inv (cl : cclass) (p q : position) :
  matches (Star cl) p q ->
  exists ws, snd p = ws ++ snd q /\ forallb (cmatch cl) ws = true.
Proof.
  intros M. remember (Star cl) as r eqn:R.
  induction M; try discriminate R.
  - now exists [].
  - inversion R; subst. destruct (IHM eq_refl) as (ws & E & Hws).
    simpl in *. subst rest. exists (c :: ws). simpl.
    match goal with Hc : cmatch _ c = true |- _ => rewrite Hc end.
    now rewrite Hws.
Qed.

Lemma matches_lit_inv (s : str) :
  forall p q,
    matches (Lit s) p q ->
    exists m, snd p = m ++ snd q /\ map canon m = map canon s.
Proof.
  induction s as [|a s IH]; intros p q M.
  - inversion M; subst. now exists [].
  - change (Lit (a :: s)) with (Seq (Chr (CLit a)) (Lit s)) in M.
    inversion M as [| | |r1 r2 p0 p1 p2 M1 M2| | | | | | |]; subst.
    inversion M1; subst. apply IH in M2 as (m & E & Hm). simpl in *. subst rest.
    exists (c :: m). simpl. rewrite Hm.
    match goal with H : Ascii.eqb _ _ = true |- _ => apply Ascii.eqb_eq in H; rewrite H end.
    now split.
Qed.

Lemma canon_keyword (m : str) (k : string) :
  In (k : str) keywords -> map canon m = map canon (k : str) -> is_keyword m = true.
Proof.
  intros Hk E. unfold is_keyword, toUpperCase. rewrite E.
  destruct Hk as [<- | [<- | [<- | []]]]; reflexivity.
Qed.

Lemma matches_keyword_inv (p q : position) :
  matches keyword p q ->
  exists m, snd p = m ++ snd q /\ is_keyword m = true.
Proof.
  unfold keyword. intros M.
  inversion M as [| | | | | | | | | |n r p0 p1 M1]; subst. clear M.
  inversion M1 as [| | | |r1 r2 p0 p1 M2|r1 r2 p0 p1 M2| | | | |]; subst; clear M1.
  - apply (@matches_lit_inv ("AND"%string : str)) in M2 as (m & E & Hm).
    exists m. split; [exact E|].
    apply (@canon_keyword m "AND"); [now left | exact Hm].
  - inversion M2 as [| | | |r1 r2 p0 p1 M3|r1 r2 p0 p1 M3| | | | |]; subst; clear M2.
    + apply (@matches_lit_inv ("OR"%string : str)) in M3 as (m & E & Hm).
      exists m. split; [exact E|].
      apply (@canon_keyword m "OR"); [right; now left | exact Hm].
    + apply (@matches_lit_inv ("NOT"%string : str)) in M3 as (m & E & Hm).
      exists m. split; [exact E|].
      apply (@canon_keyword m "NOT"); [right; right; now left | exact Hm].
Qed.

Lemma matches_plus_inv (p q : position) :
  matches (Plus CSpace) p q ->
  exists ws, snd p = ws ++ snd q /\ gap ws = true.
Proof.
  unfold Plus. intros M.
  inversion M as [| | |r1 r2 p0 p1 p2 M1 M2| | | | | | |]; subst.
  inversion M1; subst. apply matches_star_inv in M2 as (ws & E & H).
  simpl in *. subst rest. exists (c :: ws). split; [reflexivity|].
  unfold gap, blank. simpl.
  change (cmatch CSpace) with is_space in *.
  match goal with H : is_space c = true |- _ => rewrite H end. exact H.
Qed.

(** A match of the separator is a keyword between white space, or a
    parenthesis with the white space around it. *)
Lemma separator_inv (p q : position) :
  matches separator p q ->
  (exists ws1 kw ws2,
      snd p = ws1 ++ kw ++ ws2 ++ snd q /\
      gap ws1 = true /\ is_keyword kw = true /\ gap ws2 = true) \/
  (exists ws1 c ws2,
      snd p = ws1 ++ c :: ws2 ++ snd q /\
      blank ws1 = true /\ is_parenthesis c = true /\ blank ws2 = true).
Proof.
  unfold separator. intros M.
  inversion M as [| | | |r1 r2 p0 p1 M1|r1 r2 p0 p1 M1| | | | |]; subst; clear M.
  - left.
    inversion M1 as [| | |r1 r2 p0 p1 p2 Ma Mb| | | | | | |]; subst; clear M1.
    inversion Mb as [| | |r1 r2 p0 p2 p3 Mc Md| | | | | | |]; subst; clear Mb.
    apply matches_plus_inv in Ma as (ws1 & E1 & H1).
    apply matches_keyword_inv in Mc as (kw & E2 & H2).
    apply matches_plus_inv in Md as (ws2 & E3 & H3).
    exists ws1, kw, ws2. rewrite E1, E2, E3. now repeat split.
  - right.
    inversion M1 as [| | |r1 r2 p0 p1 p2 Ma Mb| | | | | | |]; subst; clear M1.
    inversion Mb as [| | |r1 r2 p0 p2 p3 Mc Md| | | | | | |]; subst; clear Mb.
    apply matches_star_inv in Ma as (ws1 & E1 & H1).
    apply matches_star_inv in Md as (ws2 & E3 & H3).
    unfold parenthesis in Mc.
    inversion Mc as [| | | | | | | | | |n r p0 p3 Me]; subst; clear Mc.
    assert (P : exists c, snd p1 = c :: snd p2 /\ is_parenthesis c = true).
    { inversion Me as [| | | |r1 r2 p0 p3 Mf|r1 r2 p0 p3 Mf| | | | |]; subst; clear Me;
        inversion Mf; subst; simpl; exists c; (split; [reflexivity|]);
        apply cmatch_parenthesis; tauto. }
    destruct P as (c & E2 & Hc).
    exists ws1, c, ws2. rewrite E1, E2, E3. now repeat split.
Qed.

(** *** Where the separator does not match *)




Lemma plain_not_space (x : ascii) : is_plain x = true -> is_space x = false.
Proof. intros H. now destruct (plain_facts x H). Qed.

Lemma space_not_plain (x : ascii) : is_space x = true -> is_plain x = false.
Proof. intros H. now destruct (space_char x H). Qed.


Lemma blank_gap (ws : str) : blank ws = true -> ws <> [] -> gap ws = true.
Proof. unfold gap. intros H N. destruct ws; [contradiction | exact H]. Qed.

Lemma chunk_plain (c : str) : chunk c = true -> forallb is_plain c = true.
Proof. unfold chunk. intros H. now apply andb_true_iff in H. Qed.











(** *** Where the separator matches, and what it takes *)









(** *** The pieces of a query laid out as items *)


Lemma kept_app (a b : list (option str)) : kept (a ++ b) = kept a ++ kept b.
Proof. unfold kept. apply flat_map_app. Qed.

Lemma kept_some (t : str) (l : list (option str)) :
  truthy t && truthy (trim t) = true -> kept (Some t :: l) = t :: kept l.
Proof. intros H. unfold kept. cbn [flat_map]. now rewrite H. Qed.


Lemma trimStart_some (s : str) :
  existsb (fun c => negb (is_space c)) (trimStart s)
  = existsb (fun c => negb (is_space c)) s.
Proof.
  induction s as [|c s IH]; [reflexivity|].
  simpl. destruct (is_space c) eqn:Hc; simpl; [exact IH | now rewrite Hc].
Qed.

Lemma existsb_rev' (f : ascii -> bool) (s : str) : existsb f (rev s) = existsb f s.
Proof.
  induction s as [|c s IH]; [reflexivity|].
  simpl. rewrite existsb_app, IH. simpl. rewrite orb_false_r. apply orb_comm.
Qed.

Lemma trim_truthy (s : str) :
  existsb (fun c => negb (is_space c)) s = true -> truthy (trim s) = true.
Proof.
  intros H.
  assert (E : existsb (fun c => negb (is_space c)) (trim s) = true).
  { unfold trim. now rewrite existsb_rev', trimStart_some, existsb_rev', trimStart_some. }
  destruct (trim s); [discriminate E | reflexivity].
Qed.

Lemma some_kept (s : str) :
  existsb (fun c => negb (is_space c)) s = true ->
  truthy s && truthy (trim s) = true.
Proof.
  intros H. rewrite (trim_truthy s H). destruct s; [discriminate H | reflexivity].
Qed.

Lemma chunk_some (w : str) :
  chunk w = true -> existsb (fun c => negb (is_space c)) w = true.
Proof.
  intros H. destruct (chunk_head w H) as (c & w' & -> & Hc & _).
  simpl. now rewrite (plain_not_space c Hc).
Qed.


Lemma chunk_kept (w : str) :
  chunk w = true -> truthy w && truthy (trim w) = true.
Proof. intros H. apply some_kept. now apply chunk_some. Qed.









(** *** How the pieces are read *)





Lemma canon_space (c : ascii) : is_space (canon c) = is_space c.
Proof. destruct c as [[] [] [] [] [] [] [] []]; vm_compute; reflexivity. Qed.







Lemma mapOperator_none (x : str) :
  ~ In x [("AND"%string : str); ("OR"%string : str); ("NOT"%string : str);
          ("("%string : str); (")"%string : str)] ->
  mapOperator x = None.
Proof.
  intros H. unfold mapOperator.
  repeat match goal with
  | |- context [str_eqb x ?k] =>
      let E := fresh "E" in
      destruct (str_eqb x k) eqn:E;
      [apply str_eqb_eq in E; exfalso; apply H; subst x; simpl; tauto|]
  end.
  reflexivity.
Qed.








(** *** A query that is not blank *)




(** *** Every query has a layout *)




Lemma past_length (P : ascii -> bool) (q : str) : length (past P q) <= length q.
Proof.
  induction q as [|c q IH]; [reflexivity|].
  simpl. destruct (P c); simpl; lia.
Qed.


















(** *** The precedence of the operators *)




(** *** A query the separator does not cut *)

Lemma search_never (r : regex) (s : str) :
  forall prev, search r prev s = false -> never r prev s.
Proof.
  induction s as [|c s IH]; intros prev H; simpl in *; [exact I|].
  destruct (exec_at r prev (c :: s)); [discriminate|].
  split; [reflexivity | now apply IH].
Qed.

Lemma matches_star_all (cl : cclass) (ws : str) :
  forall prev rest,
    forallb (cmatch cl) ws = true ->
    matches (Star cl) (prev, ws ++ rest) (after prev ws, rest).
Proof.
  induction ws as [|c ws IH]; intros prev rest H; simpl in *.
  - constructor.
  - apply andb_true_iff in H as (Hc & Hws).
    apply m_star_more; [assumption | now apply IH].
Qed.

Lemma matches_plus_all (ws : str) (prev : option ascii) (rest : str) :
  gap ws = true ->
  matches (Plus CSpace) (prev, ws ++ rest) (after prev ws, rest).
Proof.
  intros G. destruct (gap_head ws G) as (s & ws' & -> & Hs & Hws).
  unfold Plus. change (after prev (s :: ws')) with (after (Some s) ws').
  apply m_seq with (p1 := (Some s, ws' ++ rest)).
  - now constructor.
  - now apply matches_star_all.
Qed.

Lemma matches_lit_all (s : str) :
  forall m prev rest,
    map canon m = map canon s ->
    matches (Lit s) (prev, m ++ rest) (after prev m, rest).
Proof.
  induction s as [|a s IH]; intros [|x m] prev rest E; try discriminate E.
  - constructor.
  - simpl in E. inversion E as [[Ea Es]].
    change (Lit (a :: s)) with (Seq (Chr (CLit a)) (Lit s)).
    change (after prev (x :: m)) with (after (Some x) m).
    apply m_seq with (p1 := (Some x, m ++ rest)).
    + constructor. simpl. rewrite Ea. apply Ascii.eqb_refl.
    + now apply IH.
Qed.

Lemma matches_keyword_all (kw : str) (prev : option ascii) (rest : str) :
  is_keyword kw = true ->
  matches keyword (prev, kw ++ rest) (after prev kw, rest).
Proof.
  intros H. unfold keyword. constructor.
  destruct (keyword_cases kw H) as [E | [E | E]].
  - apply m_alt_l. now apply (@matches_lit_all ("AND"%string : str)).
  - apply m_alt_r, m_alt_l. now apply (@matches_lit_all ("OR"%string : str)).
  - apply m_alt_r, m_alt_r. now apply (@matches_lit_all ("NOT"%string : str)).
Qed.

(** The separator matches somewhere in a query exactly when the query holds
    a parenthesis or a keyword with white space on both sides. *)
Lemma separator_somewhere (q : str) :
  Js.test separator q = true <->
  (exists c, In c q /\ is_parenthesis c = true) \/ spaced_keyword q.
Proof.
  rewrite test_matches. unfold matches_in. split.
  - intros (pre & post & (p' & s') & -> & M).
    apply separator_inv in M
      as [(ws1 & kw & ws2 & Eq & G1 & K & G2) | (ws1 & c & ws2 & Eq & B1 & P & B2)];
      simpl in Eq; subst post.
    + right. now exists pre, ws1, kw, ws2, s'.
    + left. exists c. split; [|assumption].
      apply in_or_app. right. apply in_or_app. right. now left.
  - intros [(c & Hin & P) | (pre & ws1 & kw & ws2 & post & -> & G1 & K & G2)].
    + apply in_split in Hin as (pre & post & ->).
      exists pre, (c :: post), (Some c, post). split; [reflexivity|].
      unfold separator. apply m_alt_r.
      apply m_seq with (p1 := (after None pre, c :: post)); [constructor|].
      apply m_seq with (p1 := (Some c, post)); [|constructor].
      unfold parenthesis. constructor.
      destruct (parenthesis_char c P) as ([-> | ->] & _).
      * apply m_alt_l. now constructor.
      * apply m_alt_r. now constructor.
    + exists pre, (ws1 ++ kw ++ ws2 ++ post),
             (after (after (after (after None pre) ws1) kw) ws2, post).
      split; [reflexivity|].
      unfold separator. apply m_alt_l.
      apply m_seq with (p1 := (after (after None pre) ws1, kw ++ ws2 ++ post));
        [now apply matches_plus_all|].
      apply m_seq with (p1 := (after (after (after None pre) ws1) kw, ws2 ++ post));
        [now apply matches_keyword_all | now apply matches_plus_all].
Qed.

Lemma trimStart_app (a b : str) :
  existsb (fun c => negb (is_space c)) a = true ->
  trimStart (a ++ b) = trimStart a ++ b.
Proof.
  induction a as [|c a IH]; intros H; [discriminate H|].
  simpl in *. destruct (is_space c); [now apply IH | reflexivity].
Qed.

Lemma canon_some (s : str) :
  existsb (fun c => negb (is_space c)) (map canon s)
  = existsb (fun c => negb (is_space c)) s.
Proof.
  induction s as [|c s IH]; [reflexivity|]. simpl. now rewrite canon_space, IH.
Qed.

(** A keyword, white space and something more: the whole is no operator,
    and is not blank. *)
Lemma keyword_and_more (kw : str) (s : ascii) (rest : str) :
  is_keyword kw = true -> is_space s = true ->
  existsb (fun c => negb (is_space c)) rest = true ->
  let q := kw ++ s :: rest in
  mapOperator (trim (toUpperCase q)) = None /\
  truthy q && truthy (trim q) = true /\ is_blank (Some q) = false.
Proof.
  intros Hk Hs Hr q.
  destruct (chunk_head kw (keyword_plain kw Hk)) as (c & kw' & -> & Hc & Hkw').
  assert (Q : existsb (fun c => negb (is_space c)) q = true).
  { subst q. simpl. now rewrite (plain_not_space c Hc). }
  assert (T : truthy (trim q) = true) by now apply trim_truthy.
  split; [|split].
  - apply mapOperator_none. intros Hin.
    assert (S : In (canon s) (trim (toUpperCase q))).
    { unfold trim, toUpperCase. subst q. cbn [app map trimStart].
      destruct (plain_facts c Hc) as (_ & _ & _ & Hcc & _). rewrite Hcc.
      apply in_rev. rewrite rev_involutive.
      change (canon c :: map canon (kw' ++ s :: rest))
        with (map canon ((c :: kw') ++ s :: rest)).
      rewrite map_app, rev_app_distr. cbn [map rev]. rewrite <- app_assoc.
      rewrite trimStart_app by now rewrite existsb_rev', canon_some.
      apply in_or_app. right. simpl. now left. }
    assert (N : forall k, In k [("AND"%string : str); ("OR"%string : str);
                               ("NOT"%string : str); ("("%string : str);
                               (")"%string : str)] ->
                forallb (fun x => negb (is_space x)) k = true).
    { intros k Hin'. simpl in Hin'.
      destruct Hin' as [<- | [<- | [<- | [<- | [<- | []]]]]]; reflexivity. }
    specialize (N _ Hin). rewrite forallb_forall in N.
    specialize (N _ S). now rewrite canon_space, Hs in N.
  - now rewrite T.
  - unfold is_blank. now rewrite T.
Qed.

(** What a match of the separator captures: the keyword, or the
    parenthesis. *)
Lemma separator_captures (prev : option ascii) (rest : str) (st : mstate) :
  exec_at separator prev rest = Some st ->
  (exists k, m_caps st = [(1, k)] /\ is_keyword k = true) \/
  (exists p, m_caps st = [(2, [p])] /\ is_parenthesis p = true).
Proof.
  unfold exec_at, separator. rewrite rmatch_alt.
  destruct (rmatch (Seq (Plus CSpace) (Seq keyword (Plus CSpace)))
              (MState prev rest []) Some) as [res|] eqn:A.
  - intros E. inversion E; subst res. clear E. left.
    unfold Plus at 1 in A. rewrite !rmatch_seq in A.
    apply chr_some in A as (c1 & r1 & E1 & Hc1 & A). simpl in E1. subst rest.
    cbn [rmatch m_rest m_prev m_caps] in A.
    apply star_loop_some in A as (ws & r2 & p2 & -> & Hws & A).
    unfold keyword in A. cbn [rmatch] in A.
    assert (K : exists matched r3 p3,
               r2 = matched ++ r3 /\ is_keyword matched = true /\
               rmatch (Plus CSpace) (MState p3 r3 [(1, matched)]) Some = Some st).
    { destruct (rmatch (Lit "AND"%string) _ _) as [res|] eqn:KA.
      - inversion A; subst res.
        apply lit_some in KA as (m & r3 & p3 & E & Hm & KA). simpl in E, KA. subst r2.
        rewrite firstn_matched in KA.
        exists m, r3, p3. repeat split; [|exact KA].
        apply (@canon_keyword m "AND"); [now left | exact Hm].
      - destruct (rmatch (Lit "OR"%string) _ _) as [res|] eqn:KO.
        + inversion A; subst res.
          apply lit_some in KO as (m & r3 & p3 & E & Hm & KO). simpl in E, KO. subst r2.
          rewrite firstn_matched in KO.
          exists m, r3, p3. repeat split; [|exact KO].
          apply (@canon_keyword m "OR"); [right; now left | exact Hm].
        + apply lit_some in A as (m & r3 & p3 & E & Hm & A). simpl in E, A. subst r2.
          rewrite firstn_matched in A.
          exists m, r3, p3. repeat split; [|exact A].
          apply (@canon_keyword m "NOT"); [right; right; now left | exact Hm]. }
    clear A. destruct K as (matched & r3 & p3 & -> & Hkw & K).
    unfold Plus in K. rewrite rmatch_seq in K.
    apply chr_some in K as (c2 & r4 & E2 & Hc2 & K). simpl in E2. subst r3.
    cbn [rmatch m_rest m_prev m_caps] in K.
    apply star_loop_some in K as (ws' & r5 & p5 & -> & Hws' & K).
    inversion K; subst st. simpl. now exists matched.
  - intros A2. right.
    rewrite rmatch_seq in A2. cbn [rmatch m_rest m_prev m_caps] in A2.
    apply star_loop_some in A2 as (ws & r2 & p2 & -> & Hws & A2).
    unfold parenthesis in A2. cbn [rmatch] in A2.
    cbn [m_rest m_prev m_caps] in A2.
    destruct r2 as [|d r3]; [discriminate|].
    assert (C : exists p r,
               star_loop CSpace [(2, [d])] p r Some = Some st /\
               is_parenthesis d = true).
    { assert (F : firstn (length (d :: r3) - length r3) (d :: r3) = [d]).
      { change (d :: r3) with ([d] ++ r3). apply firstn_matched. }
      destruct (cmatch (CLit "(") d) eqn:L.
      - rewrite F in A2.
        match type of A2 with
        | match ?x with _ => _ end = _ => destruct x as [res|] eqn:S1
        end.
        + inversion A2; subst res. exists (Some d), r3. split; [exact S1|].
          apply cmatch_parenthesis. now left.
        + destruct (cmatch (CLit ")") d); discriminate.
      - destruct (cmatch (CLit ")") d) eqn:R; [|discriminate].
        rewrite F in A2. exists (Some d), r3. split; [exact A2|].
        apply cmatch_parenthesis. now right. }
    destruct C as (p & r & C & P).
    apply star_loop_some in C as (ws' & r5 & p5 & _ & _ & C).
    inversion C; subst st. simpl. now exists d.
Qed.

(** Where the separator matches somewhere, the split gives out a keyword
    or a parenthesis as a piece of its own. *)
Lemma split_go_cut (s : str) :
  forall piece prev,
    search separator prev s = true ->
    exists t,
      In t (kept (split_go separator 2 0 piece prev s)) /\
      (is_keyword t = true \/ exists p, t = [p] /\ is_parenthesis p = true).
Proof.
  induction s as [|c s IH]; intros piece prev H.
  - exfalso. simpl in H.
    destruct (exec_at separator prev []) as [st|] eqn:E; [|discriminate].
    assert (X : exec_at separator prev [] <> None) by congruence.
    apply exec_at_matches in X as ((p' & s') & M).
    apply separator_inv in M
      as [(ws1 & kw & ws2 & Eq & G1 & _) | (ws1 & p & ws2 & Eq & _)]; simpl in Eq.
    + destruct (gap_head ws1 G1) as (x & y & -> & _). discriminate.
    + destruct ws1; discriminate.
  - cbn [search] in H. cbn [split_go].
    destruct (exec_at separator prev (c :: s)) as [st|] eqn:E.
    + assert (X : exec_at separator prev (c :: s) <> None) by congruence.
      assert (Len : exists n, length (c :: s) - length (m_rest st) = S n).
      { pose proof E as E'.
        unfold exec_at in E'. apply rmatch_sound in E' as ((p' & s') & caps' & M & K).
        inversion K; subst st. cbn [m_rest fst snd] in *.
        apply separator_inv in M
          as [(ws1 & kw & ws2 & Eq & G1 & _) | (ws1 & p & ws2 & Eq & _)];
          cbn [fst snd] in Eq; apply (f_equal (@length ascii)) in Eq;
          rewrite ?length_app in Eq; cbn [length] in Eq;
          rewrite ?length_app in Eq.
        - destruct (gap_head ws1 G1) as (x & y & -> & _). cbn [length] in *.
          exists (length y + length kw + length ws2). lia.
        - exists (length ws1 + length ws2). cbn [length]. lia. }
      destruct Len as (n & Len). rewrite Len.
      destruct (separator_captures prev (c :: s) E)
        as [(k & Ck & Hk) | (p & Cp & Hp)].
      * exists k. split; [|now left].
        rewrite Ck. change (captures 2 [(1, k)]) with [Some k; @None str].
        change (Some (rev piece) :: [Some k; None] ++ ?l)
          with ([Some (rev piece)] ++ Some k :: None :: l).
        rewrite kept_app. apply in_or_app. right.
        rewrite kept_some; [now left|].
        apply chunk_kept. now apply keyword_plain.
      * exists [p]. split; [|right; now exists p].
        rewrite Cp. change (captures 2 [(2, [p])]) with [@None str; Some [p]].
        change (Some (rev piece) :: [None; Some [p]] ++ ?l)
          with ([Some (rev piece); None] ++ Some [p] :: l).
        rewrite kept_app. apply in_or_app. right.
        rewrite kept_some; [now left|].
        destruct (parenthesis_char p Hp) as (_ & _ & Ps & _).
        assert (T : trim [p] = [p])
          by (apply trim_ends; [assumption | exists p, []; now split]).
        now rewrite T.
    + now apply IH.
Qed.

(** *** A keyword at the start of the query *)

(** C10, as amended.  The separator of the include query captures AND, OR
    or NOT only with white space on both sides of the keyword, and it
    matches somewhere in a query exactly when the query holds a
    parenthesis or a keyword between white space.  Hence, for a query that
    starts with a keyword in any case of its letters, followed by white
    space and something more: when the separator matches nowhere in it,
    the keyword is not split out, the whole query is one token and a single
    literal term, and the predicate is the test of the pattern of that
    phrase, true exactly on the prompts where the phrase occurs (and no
    exclusion matches); when the separator matches somewhere, the query is
    not one token.  A keyword, one space and a tag of word characters is
    such a query.  For [NOT 3d] the predicate accepts a prompt with
    [not 3d] and rejects a prompt without it, be [3d] there or not. *)
Theorem keyword_before_tag :
  (forall prev rest st kw,
      exec_at separator prev rest = Some st ->
      capture 1 (m_caps st) = Some kw ->
      exists ws1 ws2,
        rest = ws1 ++ kw ++ ws2 ++ m_rest st /\
        ws1 <> [] /\ ws2 <> [] /\
        forallb is_space ws1 = true /\ forallb is_space ws2 = true /\
        In (toUpperCase kw) keywords) /\
  (forall q,
      Js.test separator q = true <->
      (exists c, In c q /\ is_parenthesis c = true) \/ spaced_keyword q) /\
  (forall kw s rest excludeString,
      is_keyword kw = true -> is_space s = true ->
      existsb (fun c => negb (is_space c)) rest = true ->
      let q := kw ++ s :: rest in
      let t := strip_quotes q in
      let Ex := map exclude_shape (exclude_tags excludeString) in
      (Js.test separator q = false ->
       tokens q = [q] /\
       parseInclusions (Some q) = Some (Inclusions [include_shape t] [TTerm 0]) /\
       compile (Some q) excludeString
       = Filter (Compiled Ex [include_shape t] (ETerm 0)) /\
       forall prompt,
         test (Compiled Ex [include_shape t] (ETerm 0)) prompt
         = (if existsb (fun r => Js.test r (or_empty prompt)) Ex then Val false
            else Val (Js.test (include_shape t) (or_empty prompt))) /\
         (test (Compiled [] [include_shape t] (ETerm 0)) prompt = Val true <->
          occurs true t (or_empty prompt))) /\
      (Js.test separator q = true -> tokens q <> [q])) /\
  (forall kw c tag,
      In kw keywords -> words (c :: tag) ->
      let q := kw ++ " "%char :: c :: tag in
      tokens q = [q] /\
      parseInclusions (Some q) = Some (Inclusions [include_shape q] [TTerm 0]) /\
      compile (Some q) None = Filter (Compiled [] [include_shape q] (ETerm 0)) /\
      forall prompt,
        test (Compiled [] [include_shape q] (ETerm 0)) prompt
        = Val (Js.test (include_shape q) (or_empty prompt)) /\
        (test (Compiled [] [include_shape q] (ETerm 0)) prompt = Val true <->
         occurs true q (or_empty prompt))) /\
  compile (Some ("NOT 3d"%string : str)) None = Filter not_3d /\
  test not_3d (Some ("this is not 3d art"%string : str)) = Val true /\
  test not_3d (Some ("a photo"%string : str)) = Val false /\
  test not_3d (Some ("a 3d render"%string : str)) = Val false.
Proof.
  split; [exact separator_keyword|]. split; [exact separator_somewhere|].
  split; [|split].
  - intros kw s rest excludeString Hk Hs Hr q t Ex.
    destruct (keyword_and_more kw s rest Hk Hs Hr) as (Hm & Ht & Hb).
    fold q in Hm, Ht, Hb.
    assert (Hq : exists x q', q = x :: q').
    { subst q. destruct (chunk_head kw (keyword_plain kw Hk)) as (x & k' & -> & _).
      now exists x, (k' ++ s :: rest). }
    destruct Hq as (x & q' & Eq).
    assert (Sp : tokens q = kept (split_go separator 2 0 [] None q)).
    { change (tokens q) with (kept (split separator 2 q)). unfold split.
      rewrite Eq. reflexivity. }
    split.
    + intros N.
      assert (Tk : tokens q = [q]).
      { rewrite Sp.
        rewrite (split_go_never separator 2 q [] None (search_never separator q None N)).
        cbn [rev app]. now rewrite kept_some. }
      assert (P : parseInclusions (Some q)
                  = Some (Inclusions [include_shape t] [TTerm 0])).
      { unfold parseInclusions. rewrite Hb, Tk. cbn [fold_left].
        unfold add_token. rewrite Hm, include_regexp. reflexivity. }
      split; [exact Tk|]. split; [exact P|]. split.
      * unfold compile. rewrite parseExclusions_terms, P.
        cbn [terms expression length Nat.eqb]. now rewrite andb_false_r.
      * intros prompt. split; [reflexivity|].
        assert (V : test (Compiled [] [include_shape t] (ETerm 0)) prompt
                    = Val (Js.test (include_shape t) (or_empty prompt)))
          by reflexivity.
        rewrite V, <- include_shape_occurs.
        split; [intros E; now inversion E | now intros ->].
    + intros Y Tk. rewrite Sp in Tk.
      destruct (split_go_cut q [] None Y) as (u & Hin & Hu).
      rewrite Tk in Hin. destruct Hin as [<- | []].
      assert (S : In s q) by (subst q; apply in_or_app; right; now left).
      destruct Hu as [Ku | (p & -> & Hp)].
      * pose proof (chunk_plain q (keyword_plain q Ku)) as Pl.
        rewrite forallb_forall in Pl. specialize (Pl s S).
        now rewrite (space_not_plain s Hs) in Pl.
      * destruct S as [<- | []].
        destruct (parenthesis_char p Hp) as (_ & _ & Ps & _). congruence.
  - intros kw c tag Hkw H q.
    destruct (keyword_space_tag Hkw H) as (Ht & Hb & Hm & Hq). fold q in Ht, Hb, Hm, Hq.
    assert (P : parseInclusions (Some q) = Some (Inclusions [include_shape q] [TTerm 0])).
    { unfold parseInclusions. rewrite Hb, Ht. cbn [fold_left].
      unfold add_token. rewrite Hm, Hq, include_regexp. reflexivity. }
    split; [exact Ht|]. split; [exact P|]. split.
    + unfold compile. rewrite P. reflexivity.
    + intros prompt.
      assert (V : test (Compiled [] [include_shape q] (ETerm 0)) prompt
                  = Val (Js.test (include_shape q) (or_empty prompt))) by reflexivity.
      split; [exact V|]. rewrite V, <- include_shape_occurs.
      split; [intros E; now inversion E | now intros ->].
  - repeat split; vm_compute; reflexivity.
Qed.

Lemma keyword_before_tag_witness :
  tokens ("OR 1girl"%string : str) = ["OR 1girl"%string : str] /\
  (exists ws1 ws2,
     ("  and x"%string : str) = ws1 ++ ("and"%string : str) ++ ws2 ++ ("x"%string : str) /\
     ws1 <> [] /\ ws2 <> []) /\
  tokens ("not  blue-eyed girl"%string : str) = ["not  blue-eyed girl"%string : str] /\
  compile (Some ("Not '3d'"%string : str)) (Some ("boy"%string : str))
  = Filter (Compiled [exclude_shape "boy"%string] [include_shape "Not '3d"%string]
                     (ETerm 0)) /\
  tokens ("NOT black and white"%string : str) <> ["NOT black and white"%string : str].
Proof.
  destruct keyword_before_tag as (S & _ & G & K & _).
  split; [|split; [|split; [|split]]].
  - apply (K ("OR"%string : str) "1"%char ("girl"%string : str)).
    + right. left. reflexivity.
    + reflexivity.
  - destruct (S None ("  and x"%string : str)
                (MState (Some " "%char) ("x"%string : str) [(1, ("and"%string : str))])
                ("and"%string : str))
      as (ws1 & ws2 & E & N1 & N2 & _); [reflexivity | reflexivity |].
    exists ws1, ws2. now repeat split.
  - apply (G ("not"%string : str) " "%char (" blue-eyed girl"%string : str) None);
      reflexivity.
  - apply (G ("Not"%string : str) " "%char ("'3d'"%string : str)
             (Some ("boy"%string : str))); reflexivity.
  - apply (G ("NOT"%string : str) " "%char ("black and white"%string : str) None);
      reflexivity.
Defined.



End LayoutFacts.

(* ================================================================== *)
(** * Further facts about [CivitDownloader] and [MetadataCache] *)
(* ================================================================== *)

Module CourseFacts.
Import Js JsFacts MetadataCache MetadataCacheFacts CivitDownloader Demo.
Import CivitDownloaderFacts Course.

(** *** What holds along a run *)

Section Steps.
Variable cfg : config.
Variable filter : TagFilter.predicate.
Variable w : world.
Variable J : state -> Prop.

Hypothesis J_fetch :
  forall u s, truthy u = true -> isLimitReached cfg s = false -> J s ->
              J (log (EvFetch u) s).
Hypothesis J_message : forall e s, message e = true -> J s -> J (log e s).
Hypothesis J_closing : forall e s, closing e = true -> J s -> J (log e s).
Hypothesis J_save : forall s, J s -> J (save w s).
Hypothesis J_upsert : forall its s, J s -> J (upsert its s).
Hypothesis J_scan :
  forall it s, isLimitReached cfg s = false -> J s -> J (updateScanStats it s).
Hypothesis J_skip :
  forall it s,
    J (updateScanStats it s) ->
    TagFilter.test filter (prompt it) = Val true ->
    hasFile (id it) (cache s) = true ->
    J (count_skip it (count_match it (updateScanStats it s))).
Hypothesis J_submit :
  forall it s,
    J (updateScanStats it s) ->
    TagFilter.test filter (prompt it) = Val true ->
    hasFile (id it) (cache s) = false ->
    J (enqueueDownload it (count_match it (updateScanStats it s))).

Lemma steps_processBatch (its : list item) :
  forall s, J s -> J (state_of (processBatch cfg filter its s)).
Proof.
  induction its as [|it its IH]; intros s H; simpl; [assumption|].
  destruct (isLimitReached cfg s) eqn:L; [assumption|].
  destruct (TagFilter.test filter (prompt it)) as [[|]|] eqn:T.
  - destruct (hasFile (id it) (cache s)) eqn:F; apply IH.
    + apply J_skip; auto.
    + apply J_submit; auto.
  - apply IH. now apply J_scan.
  - simpl. now apply J_scan.
Qed.

Lemma steps_online_loop (answers : list response) :
  forall u s out,
    J s -> online_loop cfg filter w answers u s = Some out -> J (state_of out).
Proof.
  induction answers as [|r answers IH]; intros u s out H E.
  - destruct u as [u|]; simpl in E.
    + destruct (negb (truthy u) || isLimitReached cfg s); [|discriminate].
      inversion E; subst. assumption.
    + inversion E; subst. assumption.
  - destruct u as [u|]; simpl in E; [|inversion E; subst; assumption].
    destruct (truthy u) eqn:U; simpl in E; [|inversion E; subst; assumption].
    destruct (isLimitReached cfg s) eqn:L; [inversion E; subst; assumption|].
    assert (H1 : J (log (EvFetch u) s)) by now apply J_fetch.
    destruct r as [p|status]; simpl in E.
    + destruct (isUserEmpty (items p) (log (EvFetch u) s)).
      * inversion E; subst. simpl. now apply J_message.
      * pose proof (steps_processBatch (items p) (J_upsert (items p) H1)) as H2.
        destruct (processBatch cfg filter (items p) (upsert (items p) (log (EvFetch u) s)))
          as [s2|s2]; simpl in H2.
        -- eapply IH; [|exact E]. now apply J_save.
        -- inversion E; subst. assumption.
    + inversion E; subst. simpl. apply J_save. now apply J_message.
Qed.


End Steps.

Lemma initialize_loaded (cfg : config) (w : world) (s0 : state) :
  initialize cfg w (initial w) = Some s0 ->
  cache s0 = loaded w /\ stats s0 = MkStats 0 0 0 0 /\ queue s0 = [] /\
  disk s0 = metadata_file w /\
  (trace s0 = [] \/ trace s0 = [EvCorruptMetadata]).
Proof.
  unfold initialize, loaded. simpl.
  destruct (loadMetadata (metadata_file w) MetadataCache.new) as [c1 warned].
  destruct (offline cfg && isEmpty (loadFiles (listing w) c1)); [discriminate|].
  intros E. inversion E; subst. destruct warned; simpl; auto 6.
Qed.

(** *** What is downloaded *)






(** *** The pages requested *)

Lemma requests_app (a b : list event) : requests (a ++ b) = requests a ++ requests b.
Proof. unfold requests. apply flat_map_app. Qed.

Lemma upserted_app (a b : list event) : upserted (a ++ b) = upserted a ++ upserted b.
Proof. unfold upserted. apply flat_map_app. Qed.

Lemma per_item_quiet (evs : list event) :
  forallb per_item evs = true -> requests (rev evs) = [] /\ upserted (rev evs) = [].
Proof.
  induction evs as [|e evs IH]; simpl; [now split|].
  intros H. apply andb_true_iff in H as (He & H). destruct (IH H) as (R & U).
  rewrite requests_app, upserted_app, R, U.
  destruct e; try discriminate; now split.
Qed.

Ltac reqs :=
  unfold history, finalize; cbn zeta; unfold save, upsert; cbn [log trace rev];
  rewrite ?requests_app; cbn [requests flat_map app];
  rewrite ?app_nil_r, <- ?app_assoc; cbn [app].

Lemma processBatch_requests (cfg : config) (filter : TagFilter.predicate)
    (its : list item) (s : state) :
  requests (rev (trace (state_of (processBatch cfg filter its s))))
  = requests (rev (trace s)).
Proof.
  destruct (processBatch_trace cfg filter its s) as (evs & _ & _ & _ & T & P & _).
  rewrite T, rev_app_distr, requests_app.
  destruct (per_item_quiet evs P) as (-> & _). apply app_nil_r.
Qed.

Lemma online_loop_requests (cfg : config) (filter : TagFilter.predicate) (w : world)
    (answers : list response) :
  forall u s out,
    online_loop cfg filter w answers u s = Some out ->
    exists k,
      k <= length answers /\
      requests (rev (trace (state_of out)))
      = requests (rev (trace s))
        ++ firstn k match u with Some u => u :: links answers | None => [] end.
Proof.
  induction answers as [|r answers IH]; intros u s out E.
  - exists 0. split; [lia|]. rewrite app_nil_r.
    destruct u as [u|]; simpl in E.
    + destruct (negb (truthy u) || isLimitReached cfg s); [|discriminate].
      now inversion E.
    + now inversion E.
  - assert (Stop : out = Returned s ->
              exists k, k <= length (r :: answers) /\
                requests (rev (trace (state_of out)))
                = requests (rev (trace s))
                  ++ firstn k match u with
                              | Some u => u :: links (r :: answers)
                              | None => []
                              end).
    { intros ->. exists 0. split; [lia|]. simpl. now rewrite app_nil_r. }
    destruct u as [u|]; simpl in E; [|apply Stop; now inversion E].
    destruct (negb (truthy u)); simpl in E; [apply Stop; now inversion E|].
    destruct (isLimitReached cfg s); [apply Stop; now inversion E|]. clear Stop.
    assert (One : requests (rev (trace (state_of out)))
                  = requests (rev (trace s)) ++ [u] ->
              exists k, k <= length (r :: answers) /\
                requests (rev (trace (state_of out)))
                = requests (rev (trace s)) ++ firstn k (u :: links (r :: answers))).
    { intros ->. exists 1. split; [simpl; lia | reflexivity]. }
    destruct r as [p|status]; simpl in E.
    + destruct (isUserEmpty (items p) (log (EvFetch u) s)).
      * inversion E; subst. apply One. cbn [state_of]. now reqs.
      * pose proof (processBatch_requests cfg filter (items p)
                      (upsert (items p) (log (EvFetch u) s))) as PR.
        assert (U : requests (rev (trace (upsert (items p) (log (EvFetch u) s))))
                    = requests (rev (trace s)) ++ [u]).
        { now reqs. }
        rewrite U in PR. clear U.
        destruct (processBatch cfg filter (items p) (upsert (items p) (log (EvFetch u) s)))
          as [s2|s2]; simpl in PR.
        -- apply IH in E as (k & Lk & E).
           assert (S3 : requests (rev (trace (save w s2)))
                        = requests (rev (trace s)) ++ [u]).
           { reqs. now rewrite PR. }
           rewrite S3 in E.
           destruct (isLimitReached cfg (save w s2)).
           ++ apply One. rewrite E. destruct k; simpl; now rewrite app_nil_r.
           ++ destruct (nextPage p) as [u'|] eqn:N.
              ** exists (S k). split; [simpl; lia|].
                 rewrite E. cbn [links firstn]. rewrite N.
                 now rewrite <- app_assoc.
              ** apply One. rewrite E. destruct k; simpl; now rewrite app_nil_r.
        -- inversion E; subst. apply One. exact PR.
    + inversion E; subst. apply One. cbn [state_of]. now reqs.
Qed.

(** The first page is requested at the URL made from the configuration,
    every further page at the link the page before it carried, one request
    for each answer and none after a page without a link. *)
Theorem pages_follow_the_links :
  forall cfg filter w answers e s,
    run cfg filter w answers = Some e -> final e = Some s ->
    exists k,
      k <= length answers /\
      requests (history s) = firstn k (first_url cfg :: links answers).
Proof.
  intros cfg filter w answers e s R F. unfold run in R.
  destruct (initialize cfg w (initial w)) as [s0|] eqn:I;
    [|inversion R; subst; discriminate].
  destruct (initialize_loaded cfg w I) as (_ & _ & _ & _ & T0).
  assert (R0 : requests (rev (trace s0)) = []) by (destruct T0 as [-> | ->]; reflexivity).
  assert (End : forall out k,
            requests (rev (trace (state_of out)))
            = firstn k (first_url cfg :: links answers) ->
            Some match out with
                 | Returned s1 => Completed (finalize w s1)
                 | Threw s1 => Aborted (log EvFatal (save w s1))
                 end = Some e ->
            requests (history s) = firstn k (first_url cfg :: links answers)).
  { intros [s1|s1] k H E; inversion E; subst; inversion F; subst;
      cbn [state_of] in H; reqs; now rewrite H. }
  destruct (offline cfg).
  - exists 0. split; [lia|].
    apply (End (runOfflineStrategy cfg filter s0)).
    + unfold runOfflineStrategy. now rewrite processBatch_requests.
    + destruct (runOfflineStrategy cfg filter s0); exact R.
  - unfold runOnlineStrategy in R.
    destruct (online_loop cfg filter w answers (Some (first_url cfg)) s0)
      as [out|] eqn:O; [|discriminate].
    destruct (online_loop_requests _ _ _ _ _ _ O) as (k & Lk & E).
    rewrite R0 in E. exists k. split; [exact Lk|].
    apply (End out); [exact E|]. destruct out; exact R.
Qed.

Lemma pages_follow_the_links_witness :
  exists k,
    k <= 3 /\
    [first_url demo_cfg; ("https://civitai.com/api/v1/images?cursor=2"%string : str)]
    = firstn k [first_url demo_cfg;
                ("https://civitai.com/api/v1/images?cursor=2"%string : str);
                ("https://civitai.com/api/v1/images?cursor=3"%string : str)].
Proof.
  destruct (pages_follow_the_links demo_cfg demo_filter demo_world demo_answers
              demo_run eq_refl) as (k & Lk & E).
  exists k. split; [exact Lk|].
  change (links demo_answers)
    with [("https://civitai.com/api/v1/images?cursor=2"%string : str);
          ("https://civitai.com/api/v1/images?cursor=3"%string : str)] in E.
  rewrite <- E. vm_compute. reflexivity.
Defined.

(** *** A run on the local store *)

Lemma isEmpty_getAll (c : MetadataCache.t) : isEmpty c = true <-> getAll c = [].
Proof.
  unfold isEmpty, getAll, map_values. destruct (data c); simpl; split;
    (reflexivity || discriminate).
Qed.

Lemma initialize_offline (cfg : config) (w : world) :
  offline cfg = true ->
  (getAll (loaded w) = [] -> initialize cfg w (initial w) = None) /\
  (getAll (loaded w) <> [] -> exists s0, initialize cfg w (initial w) = Some s0).
Proof.
  intros O. unfold initialize, loaded. simpl.
  destruct (loadMetadata (metadata_file w) MetadataCache.new) as [c1 warned]. simpl.
  rewrite O. simpl. split.
  - intros E. apply isEmpty_getAll in E. now rewrite E.
  - intros N. destruct (isEmpty (loadFiles (listing w) c1)) eqn:E.
    + apply isEmpty_getAll in E. contradiction.
    + eauto.
Qed.

(** In offline mode the answers of the server play no part.  With no
    record in the metadata file [initialize] throws; otherwise the run
    requests no page and upserts nothing, leaves the store as it was
    loaded, and scans the stored records from the first one on, in the
    order of the store. *)
Theorem offline_run_stays_local :
  forall cfg filter w answers,
    offline cfg = true ->
    run cfg filter w answers = run cfg filter w [] /\
    (getAll (loaded w) = [] -> run cfg filter w answers = Some InitFailed) /\
    (getAll (loaded w) <> [] ->
     exists e s,
       run cfg filter w answers = Some e /\ final e = Some s /\
       requests (history s) = [] /\ upserted (history s) = [] /\
       cache s = loaded w /\
       exists rest, getAll (loaded w) = scans (history s) ++ rest).
Proof.
  intros cfg filter w answers O.
  destruct (initialize_offline cfg w O) as (I0 & I1).
  split; [|split].
  - unfold run. now rewrite O.
  - intros E. unfold run. now rewrite (I0 E).
  - intros N. destruct (I1 N) as (s0 & I).
    destruct (initialize_loaded cfg w I) as (C & _ & _ & _ & T0).
    unfold run. rewrite I, O. unfold runOfflineStrategy.
    destruct (processBatch_trace cfg filter (getAll (cache s0)) s0)
      as (evs & done & rest & E & T & P & S & C' & _).
    destruct (per_item_quiet evs P) as (Rq & Up).
    assert (Q0 : requests (rev (trace s0)) = [] /\ upserted (rev (trace s0)) = [] /\
                 scans (rev (trace s0)) = [])
      by (destruct T0 as [-> | ->]; repeat split).
    destruct Q0 as (R0 & U0 & S0).
    rewrite C in E.
    destruct (processBatch cfg filter (getAll (cache s0)) s0) as [s1|s1];
      cbn [state_of] in *.
    + exists (Completed (finalize w s1)), (finalize w s1).
      split; [reflexivity|]. split; [reflexivity|].
      unfold history, finalize. cbn zeta. unfold save. cbn [log trace rev cache].
      rewrite T, rev_app_distr, !requests_app, !upserted_app, !scans_app.
      rewrite Rq, Up, R0, U0, S0, S. cbn [requests upserted scans flat_map app].
      rewrite !app_nil_r. repeat split; [congruence|]. now exists rest.
    + exists (Aborted (log EvFatal (save w s1))), (log EvFatal (save w s1)).
      split; [reflexivity|]. split; [reflexivity|].
      unfold history, save. cbn [log trace rev cache].
      rewrite T, rev_app_distr, !requests_app, !upserted_app, !scans_app.
      rewrite Rq, Up, R0, U0, S0, S. cbn [requests upserted scans flat_map app].
      rewrite !app_nil_r. repeat split; [congruence|]. now exists rest.
Qed.

Lemma offline_run_stays_local_witness :
  run offline_cfg demo_filter offline_world demo_answers
  = run offline_cfg demo_filter offline_world [] /\
  exists e s,
    run offline_cfg demo_filter offline_world demo_answers = Some e /\
    final e = Some s /\ requests (history s) = [] /\
    cache s = loaded offline_world.
Proof.
  destruct (offline_run_stays_local offline_cfg demo_filter offline_world
              demo_answers eq_refl) as (A & _ & B).
  split; [exact A|].
  destruct B as (e & s & R & F & Q & _ & C & _); [discriminate|].
  exists e, s. split; [exact R|]. split; [exact F|]. split; [exact Q | exact C].
Defined.

(** *** A user without images, and an empty page later on *)

Lemma save_limit (cfg : config) (w : world) (s : state) :
  isLimitReached cfg (save w s) = isLimitReached cfg s.
Proof. reflexivity. Qed.

(** When the first page has no record the scan stops with the message that
    the user has no images; the run then completes with all counters at
    zero and the store as it was loaded, after one request and one save.
    A page without records that comes after some record was scanned is no
    such case: the loop saves and goes on to the next link. *)
Theorem empty_first_page_ends_the_scan :
  (forall cfg filter w p answers,
      offline cfg = false -> (0 < limit cfg)%Z -> items p = [] ->
      exists s before ok,
        run cfg filter w (Data p :: answers) = Some (Completed s) /\
        stats s = MkStats 0 0 0 0 /\ cache s = loaded w /\ queue s = [] /\
        (before = [] \/ before = [EvCorruptMetadata]) /\
        history s
        = before ++ [EvFetch (first_url cfg); EvNoImages; EvDrain;
                     EvSave (getAll (loaded w)) ok; EvSummary (MkStats 0 0 0 0)]) /\
  (forall cfg filter w p answers u s,
      truthy u = true -> isLimitReached cfg s = false ->
      scanned (stats s) <> 0 -> items p = [] ->
      online_loop cfg filter w (Data p :: answers) (Some u) s
      = online_loop cfg filter w answers (nextPage p)
          (save w (upsert [] (log (EvFetch u) s)))).
Proof.
  split.
  - intros cfg filter w p answers O L P. unfold run.
    destruct (initialize cfg w (initial w)) as [s0|] eqn:I.
    + destruct (initialize_loaded cfg w I) as (C & St & Q & _ & T0).
      rewrite O. unfold runOnlineStrategy. cbn [online_loop].
      assert (U : truthy (first_url cfg) = true) by reflexivity.
      assert (Lim : isLimitReached cfg s0 = false).
      { unfold isLimitReached. rewrite St. simpl. apply Z.leb_gt. exact L. }
      rewrite U, Lim. cbn [negb orb fetchPage].
      unfold isUserEmpty. cbn [log stats]. rewrite St, P. cbn [scanned length Nat.eqb andb].
      eexists _, (rev (trace s0)), _. split; [reflexivity|].
      unfold finalize. cbn zeta. unfold save, history. cbn [log stats cache queue trace rev].
      rewrite St, C, Q. repeat split.
      * destruct T0 as [-> | ->]; [now left | now right].
      * now rewrite <- !app_assoc.
    + exfalso. unfold initialize in I.
      destruct (loadMetadata (disk (initial w)) (cache (initial w))) as [c1 warned].
      rewrite O in I. simpl in I. discriminate.
  - intros cfg filter w p answers u s U L Sc P.
    cbn [online_loop fetchPage]. rewrite U, L. cbn [negb orb].
    unfold isUserEmpty. cbn [log stats].
    destruct (scanned (stats s)) as [|n] eqn:E; [contradiction|].
    cbn [Nat.eqb andb]. rewrite P. cbn [processBatch].
    rewrite save_limit.
    replace (isLimitReached cfg (upsert [] (log (EvFetch u) s))) with false
      by (symmetry; exact L).
    reflexivity.
Qed.

Lemma empty_first_page_ends_the_scan_witness :
  exists s,
    run demo_cfg demo_filter demo_world [Data (Page [] None)] = Some (Completed s) /\
    stats s = MkStats 0 0 0 0.
Proof.
  destruct empty_first_page_ends_the_scan as (A & _).
  destruct (A demo_cfg demo_filter demo_world (Page [] None) [])
    as (s & before & ok & R & St & _); try reflexivity.
  exists s. split; [exact R | exact St].
Defined.

(** *** A filter that throws *)

Lemma processBatch_threw (cfg : config) (filter : TagFilter.predicate)
    (its : list item) :
  forall s s',
    processBatch cfg filter its s = Threw s' ->
    exists it t, trace s' = EvScan it :: t /\
                 TagFilter.test filter (prompt it) = TypeError.
Proof.
  induction its as [|it its IH]; intros s s' E; simpl in E; [discriminate|].
  destruct (isLimitReached cfg s); [discriminate|].
  destruct (TagFilter.test filter (prompt it)) as [[|]|] eqn:T.
  - destruct (hasFile _ _); eapply IH; exact E.
  - eapply IH; exact E.
  - inversion E; subst. exists it, (trace s). now split.
Qed.

Lemma online_loop_threw (cfg : config) (filter : TagFilter.predicate) (w : world)
    (answers : list response) :
  forall u s s',
    online_loop cfg filter w answers u s = Some (Threw s') ->
    exists it t, trace s' = EvScan it :: t /\
                 TagFilter.test filter (prompt it) = TypeError.
Proof.
  induction answers as [|r answers IH]; intros u s s' E.
  - destruct u as [u|]; simpl in E; [|discriminate].
    destruct (negb (truthy u) || isLimitReached cfg s); discriminate.
  - destruct u as [u|]; simpl in E; [|discriminate].
    destruct (negb (truthy u) || isLimitReached cfg s); [discriminate|].
    destruct r as [p|status]; simpl in E; [|discriminate].
    destruct (isUserEmpty _ _); [discriminate|].
    destruct (processBatch cfg filter (items p) (upsert (items p) (log (EvFetch u) s)))
      as [s2|s2] eqn:P.
    + eapply IH; exact E.
    + inversion E; subst. eapply processBatch_threw; exact P.
Qed.

Lemma scan_not_closing (cfg : config) (filter : TagFilter.predicate) (w : world) :
  (forall its s,
      forallb (fun e => negb (closing e)) (trace s) = true ->
      forallb (fun e => negb (closing e))
              (trace (state_of (processBatch cfg filter its s))) = true) /\
  (forall answers u s out,
      forallb (fun e => negb (closing e)) (trace s) = true ->
      online_loop cfg filter w answers u s = Some out ->
      forallb (fun e => negb (closing e)) (trace (state_of out)) = true).
Proof.
  split.
  - intros its s.
    apply steps_processBatch with
      (J := fun s => forallb (fun e => negb (closing e)) (trace s) = true);
      intros; simpl in *; assumption.
  - intros answers u s out.
    apply steps_online_loop with
      (J := fun s => forallb (fun e => negb (closing e)) (trace s) = true);
      try (intros; simpl in *; assumption).
    intros e s1 M H. simpl. rewrite H. now destruct e.
Qed.

(** Over answers that are failures or pages of records, [run] ends in its
    catch block only when the filter throws on the prompt of a record: the
    scan stops at that record, the store is saved and the fatal error is
    printed; the queue is not waited for and no summary is printed.  With
    a filter that never throws a run never ends there. *)
Theorem filter_error_aborts_the_run :
  (forall cfg filter w answers s,
      run cfg filter w answers = Some (Aborted s) ->
      exists it before ok,
        history s = before ++ [EvScan it; EvSave (getAll (cache s)) ok; EvFatal] /\
        TagFilter.test filter (prompt it) = TypeError /\
        forallb (fun e => negb (closing e)) before = true /\
        (ok = true -> disk s = Records (getAll (cache s)))) /\
  (forall cfg filter w answers s,
      (forall prompt, TagFilter.test filter prompt <> TypeError) ->
      run cfg filter w answers <> Some (Aborted s)).
Proof.
  assert (Main : forall cfg filter w answers s,
            run cfg filter w answers = Some (Aborted s) ->
            exists it before ok,
              history s = before ++ [EvScan it; EvSave (getAll (cache s)) ok; EvFatal] /\
              TagFilter.test filter (prompt it) = TypeError /\
              forallb (fun e => negb (closing e)) before = true /\
              (ok = true -> disk s = Records (getAll (cache s)))).
  { intros cfg filter w answers s R. unfold run in R.
    destruct (initialize cfg w (initial w)) as [s0|] eqn:I; [|discriminate].
    destruct (initialize_loaded cfg w I) as (_ & _ & _ & _ & T0).
    assert (N0 : forallb (fun e => negb (closing e)) (trace s0) = true)
      by (destruct T0 as [-> | ->]; reflexivity).
    destruct (scan_not_closing cfg filter w) as (NP & NL).
    assert (End : forall s1 it t,
              forallb (fun e => negb (closing e)) (trace s1) = true ->
              trace s1 = EvScan it :: t ->
              TagFilter.test filter (prompt it) = TypeError ->
              s = log EvFatal (save w s1) ->
              exists it before ok,
                history s = before ++ [EvScan it; EvSave (getAll (cache s)) ok; EvFatal] /\
                TagFilter.test filter (prompt it) = TypeError /\
                forallb (fun e => negb (closing e)) before = true /\
                (ok = true -> disk s = Records (getAll (cache s)))).
    { intros s1 it t N T Ht ->.
      exists it, (rev t), (write_ok w (length (trace s1))).
      unfold history, save. cbn [log trace cache disk rev]. rewrite T.
      cbn [rev]. rewrite <- !app_assoc. cbn [app].
      split; [reflexivity|]. split; [exact Ht|]. split.
      - rewrite T in N. simpl in N. rewrite forallb_forall in *.
        intros x Hx. apply N. now apply in_rev.
      - unfold MetadataCache.save. now intros ->. }
    destruct (offline cfg).
    - unfold runOfflineStrategy in R.
      destruct (processBatch cfg filter (getAll (cache s0)) s0) as [s1|s1] eqn:P;
        [discriminate|].
      inversion R; subst s.
      destruct (processBatch_threw _ _ _ _ P) as (it & t & T & Ht).
      apply (End s1 it t); auto.
      specialize (NP (getAll (cache s0)) s0 N0). now rewrite P in NP.
    - unfold runOnlineStrategy in R.
      destruct (online_loop cfg filter w answers (Some (first_url cfg)) s0)
        as [[s1|s1]|] eqn:O; try discriminate.
      inversion R; subst s.
      destruct (online_loop_threw _ _ _ _ _ _ O) as (it & t & T & Ht).
      apply (End s1 it t); auto.
      exact (NL _ _ _ _ N0 O). }
  split; [exact Main|].
  intros cfg filter w answers s H R.
  destruct (Main _ _ _ _ _ R) as (it & _ & _ & _ & Ht & _).
  exact (H _ Ht).
Qed.

Lemma filter_error_aborts_the_run_witness :
  exists s it,
    run demo_cfg throwing_filter demo_world demo_answers = Some (Aborted s) /\
    In (EvScan it) (history s) /\
    TagFilter.test throwing_filter (prompt it) = TypeError.
Proof.
  destruct filter_error_aborts_the_run as (A & _).
  destruct (run demo_cfg throwing_filter demo_world demo_answers)
    as [[|s|s]|] eqn:R; try (vm_compute in R; discriminate R).
  destruct (A demo_cfg throwing_filter demo_world demo_answers s R)
    as (it & before & ok & H & Ht & _).
  exists s, it. split; [reflexivity|]. split; [|exact Ht].
  rewrite H. apply in_or_app. right. now left.
Defined.

(** *** Writes that fail *)

Lemma alike_log (e : event) (s1 s2 : state) :
  alike s1 s2 -> alike (log e s1) (log e s2).
Proof.
  intros (A & B & C & D). unfold alike. simpl. now rewrite A, B, C, D.
Qed.

Lemma alike_save (w1 w2 : world) (s1 s2 : state) :
  alike s1 s2 -> alike (save w1 s1) (save w2 s2).
Proof.
  intros (A & B & C & D). unfold alike, save. simpl. now rewrite A, B, C, D.
Qed.

Lemma alike_limit (cfg : config) (s1 s2 : state) :
  alike s1 s2 -> isLimitReached cfg s1 = isLimitReached cfg s2.
Proof. intros (A & _). unfold isLimitReached. now rewrite A. Qed.

Lemma alike_processBatch (cfg : config) (filter : TagFilter.predicate)
    (its : list item) :
  forall s1 s2,
    alike s1 s2 ->
    alike_outcome (processBatch cfg filter its s1) (processBatch cfg filter its s2).
Proof.
  induction its as [|it its IH]; intros s1 s2 H; simpl; [exact H|].
  rewrite (alike_limit cfg H).
  destruct (isLimitReached cfg s2); [exact H|].
  assert (H1 : alike (updateScanStats it s1) (updateScanStats it s2)).
  { destruct H as (A & B & C & D). unfold alike. simpl. now rewrite A, B, C, D. }
  destruct (TagFilter.test filter (prompt it)) as [[|]|]; [|now apply IH | exact H1].
  destruct H as (A & B & C & D). rewrite B.
  destruct (hasFile (id it) (cache s2)); apply IH;
    unfold alike; simpl; now rewrite A, B, C, D.
Qed.

Lemma alike_online_loop (cfg : config) (filter : TagFilter.predicate)
    (w1 w2 : world) (answers : list response) :
  forall u s1 s2,
    alike s1 s2 ->
    match online_loop cfg filter w1 answers u s1,
          online_loop cfg filter w2 answers u s2 with
    | Some o1, Some o2 => alike_outcome o1 o2
    | None, None => True
    | _, _ => False
    end.
Proof.
  induction answers as [|r answers IH]; intros u s1 s2 H.
  - destruct u as [u|]; simpl; [|exact H].
    rewrite (alike_limit cfg H).
    destruct (negb (truthy u) || isLimitReached cfg s2); [exact H | exact I].
  - destruct u as [u|]; simpl; [|exact H].
    rewrite (alike_limit cfg H).
    destruct (negb (truthy u) || isLimitReached cfg s2); [exact H|].
    assert (H1 : alike (log (EvFetch u) s1) (log (EvFetch u) s2)) by now apply alike_log.
    destruct r as [p|status]; simpl.
    + assert (E : isUserEmpty (items p) (log (EvFetch u) s1)
                  = isUserEmpty (items p) (log (EvFetch u) s2)).
      { unfold isUserEmpty. destruct H as (A & _). simpl. now rewrite A. }
      rewrite E. destruct (isUserEmpty (items p) (log (EvFetch u) s2)).
      * now apply alike_log.
      * assert (H2 : alike (upsert (items p) (log (EvFetch u) s1))
                           (upsert (items p) (log (EvFetch u) s2))).
        { destruct H as (A & B & C & D). unfold alike. simpl. now rewrite A, B, C, D. }
        pose proof (alike_processBatch cfg filter (items p) H2) as H3.
        destruct (processBatch cfg filter (items p) (upsert (items p) (log (EvFetch u) s1)))
          as [t1|t1],
          (processBatch cfg filter (items p) (upsert (items p) (log (EvFetch u) s2)))
          as [t2|t2]; simpl in H3; try contradiction; [|exact H3].
        pose proof (alike_save w1 w2 H3) as H4.
        rewrite (alike_limit cfg H4). now apply IH.
    + apply alike_save. now apply alike_log.
Qed.

(** Whether the writes of the metadata file go through has no influence
    on the course of a run: two runs over the same directory and the same
    answers, where different writes fail, end in the same way, with the
    same counters, the same store, the same queue and the same events, up
    to the outcomes of the writes.  A failed write stops nothing. *)
Theorem failed_writes_change_only_the_file :
  forall cfg filter w1 w2 answers,
    metadata_file w1 = metadata_file w2 -> listing w1 = listing w2 ->
    match run cfg filter w1 answers, run cfg filter w2 answers with
    | Some e1, Some e2 => alike_ending e1 e2
    | None, None => True
    | _, _ => False
    end.
Proof.
  intros cfg filter w1 w2 answers M L. unfold run.
  assert (Init : match initialize cfg w1 (initial w1), initialize cfg w2 (initial w2) with
              | Some s1, Some s2 => alike s1 s2
              | None, None => True
              | _, _ => False
              end).
  { unfold initialize, initial. simpl. rewrite M, L.
    destruct (loadMetadata (metadata_file w2) MetadataCache.new) as [c1 warned].
    destruct (offline cfg && isEmpty (loadFiles (listing w2) c1)); [exact I|].
    destruct warned; repeat split. }
  destruct (initialize cfg w1 (initial w1)) as [s1|],
           (initialize cfg w2 (initial w2)) as [s2|]; try contradiction; [|exact I].
  assert (End : forall o1 o2, alike_outcome o1 o2 ->
            alike_ending
              match o1 with
              | Returned t => Completed (finalize w1 t)
              | Threw t => Aborted (log EvFatal (save w1 t))
              end
              match o2 with
              | Returned t => Completed (finalize w2 t)
              | Threw t => Aborted (log EvFatal (save w2 t))
              end).
  { intros [t1|t1] [t2|t2] H; simpl in H; try contradiction; simpl.
    - unfold finalize. cbn zeta.
      assert (H' : alike (save w1 (log EvDrain t1)) (save w2 (log EvDrain t2)))
        by (apply alike_save; now apply alike_log).
      set (a1 := save w1 (log EvDrain t1)) in *.
      set (a2 := save w2 (log EvDrain t2)) in *.
      destruct H' as (A & B & C & D). unfold alike.
      cbn [log stats cache queue trace map unflagged].
      now rewrite A, B, C, D.
    - apply alike_log. now apply alike_save. }
  destruct (offline cfg).
  - assert (H : alike_outcome (runOfflineStrategy cfg filter s1)
                              (runOfflineStrategy cfg filter s2)).
    { unfold runOfflineStrategy. destruct Init as (A & B & C & D). rewrite B.
      apply alike_processBatch. now repeat split. }
    apply End in H.
    destruct (runOfflineStrategy cfg filter s1), (runOfflineStrategy cfg filter s2);
      exact H.
  - unfold runOnlineStrategy.
    pose proof (alike_online_loop cfg filter w1 w2 answers (Some (first_url cfg)) Init) as H.
    destruct (online_loop cfg filter w1 answers (Some (first_url cfg)) s1) as [o1|],
             (online_loop cfg filter w2 answers (Some (first_url cfg)) s2) as [o2|];
      try contradiction; [|exact I].
    apply End in H. destruct o1, o2; exact H.
Qed.

Lemma failed_writes_change_only_the_file_witness :
  exists s,
    run demo_cfg demo_filter failing_world demo_answers = Some (Completed s) /\
    stats s = stats demo_end /\ cache s = cache demo_end /\
    queue s = queue demo_end.
Proof.
  pose proof (failed_writes_change_only_the_file
                demo_cfg demo_filter failing_world demo_world demo_answers
                eq_refl eq_refl) as A.
  rewrite demo_run in A.
  destruct (run demo_cfg demo_filter failing_world demo_answers)
    as [[|s|s]|] eqn:R; try contradiction.
  exists s. destruct A as (St & C & Q & _).
  split; [reflexivity|]. split; [exact St|]. split; [exact C | exact Q].
Defined.

(** *** The order of the store *)

Lemma news_keys (l : list item) :
  forall m,
    map fst (upsert_all l m)
    = map fst m ++ news (map fst m) (map id l).
Proof.
  induction l as [|it l IH]; intros m; simpl.
  - now rewrite app_nil_r.
  - unfold upsert_all in *. simpl. rewrite IH.
    destruct (existsb (ident_eqb (id it)) (map fst m)) eqn:E.
    + apply existsb_exists in E as (x & Hin & Hx).
      apply ident_eqb_eq in Hx. subst x.
      now rewrite (keys_set_in (id it) it m Hin).
    + assert (N : ~ In (id it) (map fst m)).
      { intros Hin. apply not_true_iff_false in E. apply E.
        apply existsb_exists. exists (id it). split; [assumption|].
        apply ident_eqb_refl. }
      rewrite (set_fresh (id it) it m N), map_app. simpl.
      now rewrite <- app_assoc.
Qed.

(** [upsertBatch] leaves the records already stored at their places and
    appends the records with new ids, in the order in which those ids
    first occur in the batch; so the array that [save] writes and the
    order of an offline scan follow the order in which the ids were first
    seen. *)
Theorem upsert_keeps_the_order :
  forall c items,
    reachable c ->
    ids (upsertBatch items c) = ids c ++ news (ids c) (map id items).
Proof.
  intros c items R. pose proof (reachable_keyed R) as K.
  destruct (keyed_upsertBatch items K) as (HF' & _).
  destruct K as (HF & _).
  unfold ids, getAll.
  rewrite (proj1 (self_keyed_ids HF')), (proj1 (self_keyed_ids HF)).
  apply news_keys.
Qed.

Lemma upsert_keeps_the_order_witness :
  ids (upsertBatch [picture 9 "new"; picture 1 "a cat, again"; picture 9 "newer"]
                   (upsertBatch [picture 1 "a cat"; picture 2 "a dog"] new))
  = [IdNum 1; IdNum 2; IdNum 9].
Proof.
  rewrite upsert_keeps_the_order.
  - vm_compute. reflexivity.
  - apply reach_upsertBatch. apply reach_new.
Defined.

(** *** What the store holds at the end *)







End CourseFacts.
